(** * pm7: document chunking and the in-memory search index

    A shallow embedding of [DocumentProcessor] (document-processor.ts) and
    [SearchEngine] (services/search-engine.ts), and the properties of the
    chunker, the tokenizer, the edit distance and the ranked search; then
    of what is built around them: the registry of resources
    (services/resource-manager.ts), the choice of the files that a crawl
    indexes (services/gitlab-crawler.ts) and the snippet that the search
    tool shows for a result (integrations/gitlab.ts).

    Conventions of the embedding.
    - A JavaScript string is the list of its code units.  The embedding
      covers the code units 0..255 (Latin-1), so [toLowerCase] and the
      regular-expression classes are the ones of that range.
    - A JavaScript number that holds a length, a line number or a counter
      is a [nat]; a score is a binary64 [float], with the operations in the
      order the source evaluates them.  [Math.log] is a parameter.
    - An array that is mutated in place lives in a heap and is named by a
      reference, so that two names of one array see each other's updates. *)

From Stdlib Require Import Ascii String DecimalString DecimalNat ZArith Lia PrimFloat Uint63 FloatOps.
From stdpp Require Import base option list strings gmap.
From Equations Require Import Equations.

Set Warnings "-abstract-large-number".

Local Open Scope nat_scope.
Local Open Scope list_scope.

(** ** JavaScript strings *)

Abbreviation str := (list ascii).

Definition lit (s : string) : str := list_ascii_of_string s.
Coercion lit : string >-> list.

Module Js.

Definition charCode (c : ascii) : nat := nat_of_ascii c.

Definition between (lo hi : nat) (c : ascii) : bool :=
  (lo <=? charCode c) && (charCode c <=? hi).

(** The character classes [[a-z]], [[A-Z]], [[0-9]] of the regular
    expressions in the source. *)
Definition is_lower (c : ascii) : bool := between 97 122 c.
Definition is_upper (c : ascii) : bool := between 65 90 c.
Definition is_digit (c : ascii) : bool := between 48 57 c.
Definition is_alnum (c : ascii) : bool := is_lower c || is_upper c || is_digit c.

(** The class [\s], which is also what [trim] removes: TAB, LF, VT, FF,
    CR, SPACE and NBSP are its members below 256. *)
Definition is_space (c : ascii) : bool :=
  between 9 13 c || (charCode c =? 32) || (charCode c =? 160).

(** [String.prototype.toLowerCase] on one code unit: A..Z and the
    Latin-1 capitals (all of 192..222 but the multiplication sign). *)
Definition toLowerChar (c : ascii) : ascii :=
  if is_upper c || (between 192 222 c && negb (charCode c =? 215))
  then ascii_of_nat (charCode c + 32) else c.

Definition toLowerCase (s : str) : str := map toLowerChar s.

(** [s.split(sep)] for a separator of one character. *)
Fixpoint split (sep : ascii) (s : str) : list str :=
  match s with
  | [] => [[]]
  | c :: s' =>
      if bool_decide (c = sep) then [] :: split sep s'
      else match split sep s' with
           | piece :: pieces => (c :: piece) :: pieces
           | [] => [[c]]
           end
  end.

(** [parts.join(sep)] *)
Fixpoint join (sep : str) (parts : list str) : str :=
  match parts with
  | [] => []
  | [p] => p
  | p :: ps => p ++ sep ++ join sep ps
  end.

(** [xs.slice(from, to)] for [0 <= from] and [0 <= to <= xs.length] *)
Definition slice {A} (xs : list A) (from to : nat) : list A :=
  take (to - from) (drop from xs).

(** [xs.slice(0, n)] for any integer [n]: a negative [n] counts from the
    end. *)
Definition slice0 {A} (xs : list A) (n : Z) : list A :=
  let len := Z.of_nat (length xs) in
  let final := if (n <? 0)%Z then Z.max (len + n) 0 else Z.min n len in
  take (Z.to_nat final) xs.

Fixpoint startsWith (s p : str) : bool :=
  match p, s with
  | [], _ => true
  | _ :: _, [] => false
  | a :: p', c :: s' => bool_decide (c = a) && startsWith s' p'
  end.

(** [s.includes(p)] *)
Fixpoint includes (s p : str) : bool :=
  startsWith s p ||
  match s with
  | [] => false
  | _ :: s' => includes s' p
  end.

(** [s.trim()] *)
Fixpoint trimStart (s : str) : str :=
  match s with
  | c :: s' => if is_space c then trimStart s' else s
  | [] => []
  end.

Definition trim (s : str) : str := rev (trimStart (rev (trimStart s))).

(** [String(n)] for a natural number *)
Definition toString (n : nat) : str :=
  lit (NilZero.string_of_uint (Nat.to_uint n)).

(** Numbers: a count as a binary64. *)
Definition num (n : nat) : float := PrimFloat.of_uint63 (Uint63.of_Z (Z.of_nat n)).

End Js.

(** ** document-processor.ts *)

Inductive ChunkType := markdown | code | text.

Record Metadata := {
  title : option str;
  type : ChunkType;
  startLine : option nat;
  endLine : option nat
}.

Record DocumentChunk := {
  id : str;
  projectId : str;
  filePath : str;
  content : str;
  metadata : Metadata
}.

Module DocumentProcessor.

Definition LF : ascii := ascii_of_nat 10.

(** The id template [`${projectId}:${filePath}:${startLine}`]. *)
Definition chunkId (projectId filePath : str) (startLine : nat) : str :=
  projectId ++ lit ":" ++ filePath ++ lit ":" ++ Js.toString startLine.

(** *** chunkMarkdown *)

Definition hash : ascii := "#"%char.

(** [line.match(/^#{1,3}\s/)]: for some [k] of 3, 2, 1 (the order in
    which the greedy quantifier tries them) the line starts with [k]
    hashes and a white-space character follows. *)
Definition hashes_then_space (k : nat) (line : str) : bool :=
  forallb (fun c => bool_decide (c = hash)) (take k line)
  && (length (take k line) =? k)
  && match line !! k with Some c => Js.is_space c | None => false end.

Definition is_heading (line : str) : bool :=
  existsb (fun k => hashes_then_space k line) [3; 2; 1].

(** [line.replace(/^#+\s/, '')]: the longest run of hashes at the start,
    when a white-space character follows it, is removed with that
    character. *)
Fixpoint after_hashes (line : str) : str :=
  match line with
  | c :: line' => if bool_decide (c = hash) then after_hashes line' else line
  | [] => []
  end.

Definition strip_marker (line : str) : str :=
  match line, after_hashes line with
  | c :: _, s :: rest =>
      if bool_decide (c = hash) && Js.is_space s then rest else line
  | _, _ => line
  end.

(** The variables of the loop. *)
Record MdState := {
  chunks : list DocumentChunk;
  currentChunkLines : list str;
  currentTitle : str;
  mdStartLine : nat
}.

Definition mdChunk (projectId filePath : str) (st : MdState) (end_ : nat)
  : DocumentChunk :=
  {| id := chunkId projectId filePath (mdStartLine st);
     projectId := projectId;
     filePath := filePath;
     content := Js.join [LF] (currentChunkLines st);
     metadata := {| title := Some (currentTitle st);
                    type := markdown;
                    startLine := Some (mdStartLine st);
                    endLine := Some end_ |} |}.

(** [if (currentChunkLines.length > 0) chunks.push({...})] *)
Definition flush (projectId filePath : str) (st : MdState) (end_ : nat)
  : list DocumentChunk :=
  if 0 <? length (currentChunkLines st)
  then chunks st ++ [mdChunk projectId filePath st end_]
  else chunks st.

(** One iteration of the loop, at index [i] on [line]. *)
Definition mdStep (projectId filePath : str) (st : MdState)
    (il : nat * str) : MdState :=
  let '(i, line) := il in
  if is_heading line then
    {| chunks := flush projectId filePath st i;
       currentChunkLines := [line];
       currentTitle := Js.trim (strip_marker line);
       mdStartLine := i + 1 |}
  else
    {| chunks := chunks st;
       currentChunkLines := currentChunkLines st ++ [line];
       currentTitle := currentTitle st;
       mdStartLine := mdStartLine st |}.

Definition mdInit : MdState :=
  {| chunks := [];
     currentChunkLines := [];
     currentTitle := lit "Introduction";
     mdStartLine := 1 |}.

(** The lines with their indices, as [for (let i = 0; i < lines.length; i++)]
    visits them. *)
Definition indexed {A} (xs : list A) : list (nat * A) :=
  zip (seq 0 (length xs)) xs.

Definition chunkMarkdown (projectId filePath content : str)
  : list DocumentChunk :=
  let lines := Js.split LF content in
  let st := fold_left (mdStep projectId filePath) (indexed lines) mdInit in
  flush projectId filePath st (length lines).

(** *** chunkCode *)

Definition CHUNK_SIZE : nat := 50.
Definition OVERLAP : nat := 10.

Definition codeChunk (projectId filePath : str) (lines : list str)
    (i end_ : nat) : DocumentChunk :=
  {| id := chunkId projectId filePath (i + 1);
     projectId := projectId;
     filePath := filePath;
     content := Js.join [LF] (Js.slice lines i end_);
     metadata := {| title := None;
                    type := code;
                    startLine := Some (i + 1);
                    endLine := Some end_ |} |}.

(** [for (let i = 0; i < lines.length; i += CHUNK_SIZE - OVERLAP)] with
    its [break], from the state [(i, chunks)]. *)
Equations? codeLoop (projectId filePath : str) (lines : list str)
    (i : nat) (chunks : list DocumentChunk)
  : list DocumentChunk by wf (length lines - i) lt :=
  codeLoop projectId filePath lines i chunks :=
    match decide (i < length lines) with
    | right _ => chunks
    | left _ =>
        let end_ := Nat.min (i + CHUNK_SIZE) (length lines) in
        let chunks' := chunks ++ [codeChunk projectId filePath lines i end_] in
        match decide (end_ = length lines) with
        | left _ => chunks'
        | right _ =>
            codeLoop projectId filePath lines (i + (CHUNK_SIZE - OVERLAP)) chunks'
        end
    end.
Proof. unfold CHUNK_SIZE, OVERLAP in *. lia. Qed.

Definition chunkCode (projectId filePath content : str)
  : list DocumentChunk :=
  codeLoop projectId filePath (Js.split LF content) 0 [].

(** *** chunkText *)

Definition chunkText (projectId filePath content : str)
  : list DocumentChunk :=
  [ {| id := chunkId projectId filePath 1;
       projectId := projectId;
       filePath := filePath;
       content := Js.slice0 content 10000;
       metadata := {| title := None;
                      type := text;
                      startLine := Some 1;
                      endLine := Some (length (Js.split LF content)) |} |} ].

(** *** chunkDocument *)

(** [filePath.split('.').pop()?.toLowerCase()]: [split] never returns an
    empty array, so [pop] always finds a last piece. *)
Definition extension (filePath : str) : str :=
  Js.toLowerCase (List.last (Js.split "."%char filePath) []).

Definition codeExtensions : list str :=
  [lit "ts"; lit "js"; lit "py"; lit "java"; lit "go"; lit "rs"; lit "c";
   lit "cpp"; lit "h"].

Definition chunkDocument (projectId filePath content : str)
  : list DocumentChunk :=
  let extension := extension filePath in
  if bool_decide (extension = lit "md") || bool_decide (extension = lit "markdown")
  then chunkMarkdown projectId filePath content
  else if bool_decide (extension ∈ codeExtensions)
  then chunkCode projectId filePath content
  else chunkText projectId filePath content.

End DocumentProcessor.


(** ** search-engine.ts *)

Inductive MatchType := exact | fuzzy | semantic.

(** An entry of [matchDetails].  The local variable [matchType] that is
    stored in it has type ['exact' | 'fuzzy' | null]; [None] is [null]. *)
Record MatchDetail := {
  term : str;
  matchType : option MatchType
}.

Record SearchResult := {
  chunk : DocumentChunk;
  score : float;
  matchDetails : list MatchDetail
}.

(** What [.gitlab_index.json] holds, by what the [try] block of
    [loadIndex] does with it:
    - text that [JSON.parse] rejects with a [SyntaxError];
    - JSON that [new Map] rejects with a [TypeError], because it is not a
      list of entries: a number, a boolean, an object, a string that is not
      empty, or an array with an element that is neither an array nor an
      object;
    - the entries of an index, each a project id with its array of chunks,
      which is what [saveIndex] writes (the JSON values [null], the empty
      string and the empty array all give the empty index, as [Entries []]
      does).
    There is no fourth case for JSON that [new Map] accepts although its
    entries are not a string with an array of chunks (an entry with the
    value [null], say): line 52 of the source does not look at the entries,
    so they would become values of [this.index] that are not of its type
    [Map<string, DocumentChunk[]>].  The engine is described for an index
    of that type, and nothing is said here about an engine that has loaded
    such a file. *)
Inductive FileData :=
| Unparsable
| NotEntries
| Entries (entries : list (str * list DocumentChunk)).

(** The value of [JSON.parse(data)], when there is one. *)
Inductive Parsed :=
| NoEntryList
| EntryList (entries : list (str * list DocumentChunk)).

(** A reference to a [DocumentChunk[]] array in the heap. *)
#[local] Abbreviation ref := nat (only parsing).

(** The engine and the part of the world it acts on: the heap of chunk
    arrays, [this.index] (a [Map], in insertion order, from a project id to
    the reference of its array), the snapshot file and the console. *)
Record State := {
  heap : list (list DocumentChunk);
  index : list (str * ref);
  disk : option FileData;
  console : list str
}.

(** A call that can throw. *)
Inductive Outcome (A : Type) :=
| Returns (a : A)
| Throws.
Arguments Returns {A} a.
Arguments Throws {A}.

Module SearchEngine.

(** *** The [Map] of the index *)

Fixpoint Map_set {V} (k : str) (v : V) (m : list (str * V)) : list (str * V) :=
  match m with
  | [] => [(k, v)]
  | (k', v') :: m' =>
      if bool_decide (k' = k) then (k, v) :: m' else (k', v') :: Map_set k v m'
  end.

Fixpoint Map_get {V} (k : str) (m : list (str * V)) : option V :=
  match m with
  | [] => None
  | (k', v) :: m' => if bool_decide (k' = k) then Some v else Map_get k m'
  end.

Definition Map_has {V} (k : str) (m : list (str * V)) : bool :=
  bool_decide (is_Some (Map_get k m)).

Definition Map_delete {V} (k : str) (m : list (str * V)) : list (str * V) :=
  List.filter (fun kv => negb (bool_decide (kv.1 = k))) m.

(** *** Arrays in the heap *)

Definition deref (st : State) (r : ref) : list DocumentChunk :=
  default [] (heap st !! r).

Definition setHeap (h : list (list DocumentChunk)) (st : State) : State :=
  {| heap := h; index := index st; disk := disk st; console := console st |}.

Definition setIndex (ix : list (str * ref)) (st : State) : State :=
  {| heap := heap st; index := ix; disk := disk st; console := console st |}.

Definition setDisk (d : option FileData) (st : State) : State :=
  {| heap := heap st; index := index st; disk := d; console := console st |}.

(** [console.error(message, ...)] *)
Definition console_error (message : str) (st : State) : State :=
  {| heap := heap st; index := index st; disk := disk st;
     console := console st ++ [message] |}.

(** A new array with the elements [xs]. *)
Definition alloc (xs : list DocumentChunk) (st : State) : ref * State :=
  (length (heap st), setHeap (heap st ++ [xs]) st).

(** [array.push(...xs)] on the array at [r]. *)
Definition push (r : ref) (xs : list DocumentChunk) (st : State) : State :=
  setHeap (alter (fun old => old ++ xs) r (heap st)) st.

(** [Array.from(this.index.entries())], with the arrays' elements. *)
Definition entries (st : State) : list (str * list DocumentChunk) :=
  map (fun kr => (kr.1, deref st kr.2)) (index st).

(** *** Persistence *)

(** [fs.writeFileSync(path, data)]; [writable] says whether the file
    system accepts the write. *)
Definition writeFileSync (writable : bool) (data : FileData) (st : State)
  : Outcome State :=
  if writable then Returns (setDisk (Some data) st) else Throws.

Definition saveIndex (writable : bool) (st : State) : State :=
  match writeFileSync writable (Entries (entries st)) st with
  | Returns st' => st'
  | Throws => console_error (lit "Failed to save search index:") st
  end.

Definition JSON_parse (data : FileData) : Outcome Parsed :=
  match data with
  | Unparsable => Throws
  | NotEntries => Returns NoEntryList
  | Entries es => Returns (EntryList es)
  end.

(** [this.index = new Map(value)]: the constructor throws on a value that
    is not a list of entries, before anything is assigned; otherwise the
    index is the new map, and every array of the parsed snapshot is a new
    array. *)
Definition new_Map (value : Parsed) (st : State) : Outcome State :=
  match value with
  | NoEntryList => Throws
  | EntryList es =>
      Returns
        (fold_left (fun st kv =>
                      let '(r, st') := alloc kv.2 st in
                      setIndex (Map_set kv.1 r (index st')) st')
                   es (setIndex [] st))
  end.

(** Both calls are inside the [try]: whichever throws, the [catch] logs
    the failure and the index stays what it was. *)
Definition loadIndex (st : State) : State :=
  match disk st with
  | Some data =>
      match JSON_parse data with
      | Returns value =>
          match new_Map value st with
          | Returns st' =>
              console_error (lit "Loaded search index from disk") st'
          | Throws => console_error (lit "Failed to load search index:") st
          end
      | Throws => console_error (lit "Failed to load search index:") st
      end
  | None => st
  end.

(** [new SearchEngine()] in a process whose snapshot file is [d]. *)
Definition new (d : option FileData) : State :=
  loadIndex {| heap := []; index := []; disk := d; console := [] |}.

Definition indexProject (projectId : str) (chunks : ref) (writable : bool)
    (st : State) : State :=
  let st := setIndex (Map_set projectId chunks (index st)) st in
  let st := console_error
              (lit "Indexed " ++ Js.toString (length (deref st chunks))
               ++ lit " chunks for project " ++ projectId) st in
  saveIndex writable st.

Definition clearIndex (projectId : str) (writable : bool) (st : State) : State :=
  saveIndex writable (setIndex (Map_delete projectId (index st)) st).

(** *** tokenize *)

(** [text.split(/[^a-zA-Z0-9]+/)]: [piece] is the piece being read and
    [inSep] tells that the last character belonged to a separator. *)
Fixpoint splitNonAlnum_from (piece : str) (inSep : bool) (s : str) : list str :=
  match s with
  | [] => [piece]
  | c :: s' =>
      if Js.is_alnum c then splitNonAlnum_from (piece ++ [c]) false s'
      else if inSep then splitNonAlnum_from piece true s'
      else piece :: splitNonAlnum_from [] true s'
  end.

Definition splitNonAlnum (text : str) : list str :=
  splitNonAlnum_from [] false text.

(** [token.replace(/([a-z])([A-Z])/g, '$1 $2')] *)
Fixpoint camelReplace (token : str) : str :=
  match token with
  | c1 :: ((c2 :: rest) as token') =>
      if Js.is_lower c1 && Js.is_upper c2
      then c1 :: " "%char :: c2 :: camelReplace rest
      else c1 :: camelReplace token'
  | _ => token
  end.

Definition stopWords : list str :=
  [lit "the"; lit "is"; lit "at"; lit "of"; lit "on"; lit "and"; lit "a";
   lit "an"; lit "in"; lit "to"; lit "for"; lit "with"; lit "by";
   lit "about"; lit "as";
   lit "this"; lit "that"; lit "these"; lit "those"; lit "are"; lit "was";
   lit "were"; lit "be"; lit "been"; lit "being";
   lit "have"; lit "has"; lit "had"; lit "do"; lit "does"; lit "did";
   lit "but"; lit "if"; lit "or"; lit "because"; lit "as"; lit "until";
   lit "while";
   lit "function"; lit "class"; lit "const"; lit "var"; lit "let";
   lit "return"; lit "import"; lit "export"; lit "default"].

Definition isStopWord (word : str) : bool := bool_decide (word ∈ stopWords).

(** The body of the inner loop: [tokens.push(lower)] under its test. *)
Definition pushPart (tokens : list str) (part : str) : list str :=
  let lower := Js.toLowerCase part in
  if (2 <? length lower) && negb (isStopWord lower)
  then tokens ++ [lower] else tokens.

(** The body of the outer loop. *)
Definition pushToken (tokens : list str) (token : str) : list str :=
  if bool_decide (token = []) then tokens
  else fold_left pushPart (Js.split " "%char (camelReplace token)) tokens.

Definition tokenize (text : str) : list str :=
  fold_left pushToken (splitNonAlnum text) [].

(** *** levenshteinDistance *)

(** [xs[i] = v] on an array without holes: an element is replaced, the
    array grows by one at [i = xs.length]; a write further out would
    leave holes and is [None]. *)
Definition arraySet {A} (xs : list A) (i : nat) (v : A) : option (list A) :=
  if i <? length xs then Some (<[i := v]> xs)
  else if i =? length xs then Some (xs ++ [v])
  else None.

(** [matrix[i][j]]; [None] is a read of [undefined]. *)
Definition matrixGet (matrix : list (list nat)) (i j : nat) : option nat :=
  row ← matrix !! i; row !! j.

(** [matrix[i][j] = v] *)
Definition matrixSet (matrix : list (list nat)) (i j v : nat)
  : option (list (list nat)) :=
  row ← matrix !! i;
  row' ← arraySet row j v;
  Some (<[i := row']> matrix).

(** A [for] loop over the values [js] of its counter. *)
Fixpoint forLoop {S} (js : list nat) (body : S -> nat -> option S) (s : S)
  : option S :=
  match js with
  | [] => Some s
  | j :: js' => s' ← body s j; forLoop js' body s'
  end.

(** [s.charAt(i)]: [None] stands for the empty string that [charAt]
    returns out of range. *)
Definition charAt (s : str) (i : nat) : option ascii := s !! i.

Definition levCell (a b : str) (i : nat) (matrix : list (list nat)) (j : nat)
  : option (list (list nat)) :=
  if bool_decide (charAt b (i - 1) = charAt a (j - 1)) then
    d ← matrixGet matrix (i - 1) (j - 1);
    matrixSet matrix i j d
  else
    substitution ← matrixGet matrix (i - 1) (j - 1);
    insertion ← matrixGet matrix i (j - 1);
    deletion ← matrixGet matrix (i - 1) j;
    matrixSet matrix i j
      (Nat.min (substitution + 1) (Nat.min (insertion + 1) (deletion + 1))).

Definition levenshteinDistance (a b : str) : option nat :=
  if length a =? 0 then Some (length b)
  else if length b =? 0 then Some (length a)
  else
    matrix ← forLoop (seq 0 (length b + 1))
               (fun matrix i => arraySet matrix i [i]) [];
    matrix ← forLoop (seq 0 (length a + 1))
               (fun matrix j => matrixSet matrix 0 j j) matrix;
    matrix ← forLoop (seq 1 (length b))
               (fun matrix i => forLoop (seq 1 (length a)) (levCell a b i) matrix)
               matrix;
    matrixGet matrix (length b) (length a).

(** [this.levenshteinDistance(term, token) <= 2]; a comparison with
    [undefined] is false. *)
Definition withinTwoEdits (term token : str) : bool :=
  match levenshteinDistance term token with
  | Some d => d <=? 2
  | None => false
  end.

(** *** search *)

(** The test [projectId && this.index.has(projectId)]: the empty string
    is falsy, as [undefined] is. *)
Definition truthy (projectId : option str) : bool :=
  match projectId with
  | Some p => negb (bool_decide (p = []))
  | None => false
  end.

Definition knownProject (projectId : option str) (st : State) : option ref :=
  match projectId with
  | Some p => if truthy projectId then Map_get p (index st) else None
  | None => None
  end.

(** The first part of [search]: the candidates [allChunks].  For a known
    project [allChunks] IS the array stored in the index, and the chunks
    of the other projects are pushed onto it; otherwise it is a new array
    that only [search] holds. *)
Definition collect (projectId : option str) (st : State)
  : State * list DocumentChunk :=
  match knownProject projectId st with
  | Some allChunks =>
      let st' :=
        fold_left (fun st pc =>
                     if negb (bool_decide (Some pc.1 = projectId))
                     then push allChunks (deref st pc.2) st else st)
                  (index st) st in
      (st', deref st' allChunks)
  | None =>
      (st, fold_left (fun allChunks pc => allChunks ++ deref st pc.2)
             (index st) [])
  end.

(** [new RegExp(term, 'gi')] compares characters by their upper-case
    forms; on the code units below 256 those are a..z and the small
    Latin-1 letters but the division sign (the capitals of 181 and 255
    lie beyond 255 and equal no other capital). *)
Definition canonicalize (c : ascii) : ascii :=
  if Js.is_lower c || (Js.between 224 254 c && negb (Js.charCode c =? 247))
  then ascii_of_nat (Js.charCode c - 32) else c.

Fixpoint matchesAt (term s : str) : bool :=
  match term, s with
  | [], _ => true
  | _ :: _, [] => false
  | t :: term', c :: s' =>
      bool_decide (canonicalize c = canonicalize t) && matchesAt term' s'
  end.

(** [s.match(new RegExp(term, 'gi'))] for a [term] of letters and digits,
    which is a pattern that matches itself: the matches are found from
    left to right, each search starting where the last match ended.  The
    empty list is [null]. *)
Equations? regexMatches (term s : str) : list str by wf (length s) lt :=
  regexMatches term [] := if bool_decide (term = []) then [[]] else [];
  regexMatches term (c :: s') :=
    if matchesAt term (c :: s')
    then take (length term) (c :: s')
           :: regexMatches term (drop (length term - 1) s')
    else regexMatches term s'.
Proof. all: rewrite ?length_drop; simpl; lia. Qed.

Definition k1 : float := 0x1.3333333333333p+0%float. (* 1.2 *)
Definition b : float := 0.75%float.
Definition NaN : float := PrimFloat.nan.

(** [chunk.projectId], under a name that the parameter [projectId] of
    [search] does not hide. *)
Definition projectIdOf (chunk : DocumentChunk) : str := projectId chunk.

Section Ranking.

(** [Math.log], which ECMAScript leaves to the implementation. *)
Variable Math_log : float -> float.

Variable projectId : option str.
Variable allChunks : list DocumentChunk.
Variable queryTerms : list str.

Definition avgDocLength : float :=
  (fold_left (fun sum chunk => sum + Js.num (length (content chunk)))
             allChunks 0
   / Js.num (length allChunks))%float.

Definition docCount (term : str) : nat :=
  fold_left (fun docCount chunk =>
               if Js.includes (Js.toLowerCase (content chunk)) term
               then docCount + 1 else docCount)
            allChunks 0.

(** The object [idf] after its loop. *)
Definition idf : gmap str float :=
  fold_left (fun idf term =>
               <[term := Math_log
                 (1 + (Js.num (length allChunks) - Js.num (docCount term) + 0.5)
                      / (Js.num (docCount term) + 0.5))%float]> idf)
            queryTerms ∅.

(** [idf[term]]; a missing property is [undefined], [NaN] as a number. *)
Definition idfOf (term : str) : float := default NaN (idf !! term).

(** [termFreq] and [matchType] at the end of the body of the loop over
    the query terms. *)
Definition termMatch (chunk : DocumentChunk) (term : str)
  : nat * option MatchType :=
  let contentLower := Js.toLowerCase (content chunk) in
  match regexMatches term contentLower with
  | (_ :: _) as matches => (length matches, Some exact)
  | [] =>
      fold_left (fun tm token =>
                   if withinTwoEdits term token then (tm.1 + 1, Some fuzzy)
                   else tm)
                (tokenize (content chunk)) (0, None)
  end.

Definition scoreTerm (chunk : DocumentChunk)
    (acc : float * list MatchDetail) (term : str)
  : float * list MatchDetail :=
  let docLength := Js.num (length (content chunk)) in
  let '(termFreq, matchType) := termMatch chunk term in
  if 0 <? termFreq then
    let numerator := (idfOf term * Js.num termFreq * (k1 + 1))%float in
    let denominator :=
      (Js.num termFreq + k1 * (1 - b + b * (docLength / avgDocLength)))%float in
    ((acc.1 + numerator / denominator)%float,
     acc.2 ++ [{| term := term; matchType := matchType |}])
  else acc.

Definition titleLower (chunk : DocumentChunk) : str :=
  match title (metadata chunk) with
  | Some t => Js.toLowerCase t
  | None => []
  end.

Definition boostTitle (chunk : DocumentChunk) (score : float) (term : str)
  : float :=
  if Js.includes (titleLower chunk) term then (score + 2.0)%float else score.

(** The callback of [allChunks.map]. *)
Definition scoreChunk (chunk : DocumentChunk) : SearchResult :=
  let '(score, matchDetails) :=
    fold_left (scoreTerm chunk) queryTerms (0%float, []) in
  let score := fold_left (boostTitle chunk) queryTerms score in
  let score :=
    if truthy projectId
       && bool_decide (Some (projectIdOf chunk) = projectId)
    then (score * 1.5)%float else score in
  {| chunk := chunk; score := score; matchDetails := matchDetails |}.

(** [xs.sort((a, b) => b.score - a.score)]: the sort is stable, so an
    item goes before the first item that the comparator does not put
    before it. *)
Definition compareScore (a b : SearchResult) : float :=
  (score b - score a)%float.

Fixpoint insertByScore (x : SearchResult) (xs : list SearchResult)
  : list SearchResult :=
  match xs with
  | [] => [x]
  | y :: xs' =>
      if PrimFloat.ltb (compareScore y x) 0 then y :: insertByScore x xs'
      else x :: y :: xs'
  end.

Definition sortByScore (xs : list SearchResult) : list SearchResult :=
  foldr insertByScore [] xs.

(** The end of [search]: [scoredChunks], filtered, sorted and cut. *)
Definition rank (limit : Z) : list SearchResult :=
  Js.slice0
    (sortByScore
       (List.filter (fun item => PrimFloat.ltb 0 (score item))
          (map scoreChunk allChunks)))
    limit.

End Ranking.

Definition search (Math_log : float -> float) (projectId : option str)
    (query : str) (limit : Z) (st : State) : State * list SearchResult :=
  let '(st', allChunks) := collect projectId st in
  if length allChunks =? 0 then (st', [])
  else
    let queryTerms := tokenize query in
    if length queryTerms =? 0 then (st', [])
    else (st', rank Math_log projectId allChunks queryTerms limit).

End SearchEngine.

(** ** The words of the specification

    Definitions that follow the specification and not the code; the
    theorems below compare the two. *)

Module Spec.

Import DocumentProcessor.

(** The segmentation strategy of a file, by its extension. *)
Definition strategy (filePath : str) : ChunkType :=
  let e := extension filePath in
  if bool_decide (e ∈ [lit "md"; lit "markdown"]) then markdown
  else if bool_decide (e ∈ codeExtensions) then code
  else text.

(** The number of lines of a document: one more than its line feeds. *)
Definition lineCount (content : str) : nat :=
  S (length (List.filter (fun c => bool_decide (c = LF)) content)).

(** The lines of a document. *)
Definition linesOf (content : str) : list str := Js.split LF content.

(** A heading of level 1 to 3: one to three hashes at the start of the
    line, and a white-space character after them. *)
Definition headingMarker (line : str) : Prop :=
  exists k c rest,
    1 <= k <= 3 /\ line = replicate k hash ++ c :: rest /\ Js.is_space c = true.

(** The 0-based positions of the heading lines. *)
Definition headingLines (lines : list str) : list nat :=
  map fst (List.filter (fun il => is_heading il.2) (indexed lines)).

(** Whether something precedes the first heading: the first line is not
    itself a heading. *)
Definition hasLeadingContent (lines : list str) : bool :=
  match lines with
  | first :: _ => negb (is_heading first)
  | [] => false
  end.

(** The line span of a chunk. *)
Definition span (chunk : DocumentChunk) : option nat * option nat :=
  (startLine (metadata chunk), endLine (metadata chunk)).

(** *** Tokenization *)

Import SearchEngine.

(** The pieces of [s] between its characters that satisfy [sep]. *)
Fixpoint pieces (sep : ascii -> bool) (s : str) : list str :=
  match s with
  | [] => [[]]
  | c :: s' =>
      if sep c then [] :: pieces sep s'
      else match pieces sep s' with
           | piece :: rest => (c :: piece) :: rest
           | [] => [[c]]
           end
  end.

Definition nonEmpty (s : str) : bool := negb (bool_decide (s = [])).

(** Step 1: the fragments between the runs of characters that are not
    letters or digits; two separators next to each other have nothing
    between them. *)
Definition fragments (text : str) : list str :=
  List.filter nonEmpty (pieces (fun c => negb (Js.is_alnum c)) text).

(** Step 2: a boundary between a lowercase letter and the uppercase
    letter that follows it. *)
Fixpoint subFragments (fragment : str) : list str :=
  match fragment with
  | [] => [[]]
  | c :: rest =>
      let boundary :=
        Js.is_lower c
        && match rest with c' :: _ => Js.is_upper c' | [] => false end in
      match subFragments rest with
      | part :: parts =>
          if boundary then [c] :: part :: parts else (c :: part) :: parts
      | [] => [[c]]
      end
  end.

(** Step 3: what survives. *)
Definition survives (token : str) : bool :=
  negb (length token <=? 2) && negb (bool_decide (token ∈ stopWords)).

Definition tokenize (text : str) : list str :=
  List.filter survives
    (map Js.toLowerCase (concat (map subFragments (fragments text)))).

(** *** Edit distance *)

(** One insertion, deletion or substitution of a character, at the
    front or further into the string. *)
Inductive edit : str -> str -> Prop :=
| insertion c s : edit s (c :: s)
| deletion c s : edit (c :: s) s
| substitution c d s : edit (c :: s) (d :: s)
| further c s t : edit s t -> edit (c :: s) (c :: t).

(** [n] edits, one after the other. *)
Inductive edits : nat -> str -> str -> Prop :=
| edits_none s : edits 0 s s
| edits_more n s t u : edit s t -> edits n t u -> edits (S n) s u.

(** [d] is the least number of edits that turn [a] into [b]. *)
Definition editDistance (a b : str) (d : nat) : Prop :=
  edits d a b /\ forall n, edits n a b -> d <= n.

(** The edits read along both strings: an alignment of cost [n]. *)
Inductive aligned : str -> str -> nat -> Prop :=
| aligned_nil : aligned [] [] 0
| aligned_keep c s t n : aligned s t n -> aligned (c :: s) (c :: t) n
| aligned_subst c d s t n : aligned s t n -> aligned (c :: s) (d :: t) (S n)
| aligned_delete c s t n : aligned s t n -> aligned (c :: s) t (S n)
| aligned_insert d s t n : aligned s t n -> aligned s (d :: t) (S n).

(** The recurrence of the distance, on the strings themselves. *)
Fixpoint distance (s t : str) : nat :=
  match s with
  | [] => length t
  | c :: s' =>
      (fix against (t : str) : nat :=
         match t with
         | [] => S (length s')
         | d :: t' =>
             if bool_decide (c = d) then distance s' t'
             else S (Nat.min (distance s' t')
                       (Nat.min (against t') (distance s' t)))
         end) t
  end.

(** *** The score of a chunk *)

(** Two characters that differ by case at most. *)
Definition sameLetter (x y : ascii) : bool :=
  bool_decide (Js.toLowerChar x = Js.toLowerChar y).

Fixpoint occursAt (term s : str) : bool :=
  match term, s with
  | [], _ => true
  | _ :: _, [] => false
  | t :: term', c :: s' => sameLetter c t && occursAt term' s'
  end.

(** The occurrences of [term] in [s], counted from left to right; the
    characters of an occurrence are not counted again ([skip] of them are
    still to pass). *)
Fixpoint occurrencesFrom (skip : nat) (term s : str) : nat :=
  match s with
  | [] => 0
  | _ :: s' =>
      match skip with
      | S skip' => occurrencesFrom skip' term s'
      | 0 =>
          if occursAt term s
          then S (occurrencesFrom (length term - 1) term s')
          else occurrencesFrom 0 term s'
      end
  end.

Definition occurrences (term s : str) : nat := occurrencesFrom 0 term s.

Definition withinDistance (n : nat) (term token : str) : bool :=
  distance term token <=? n.

Definition termFreq (term : str) (chunk : DocumentChunk) : nat :=
  let exactCount := occurrences term (content chunk) in
  if 1 <=? exactCount then exactCount
  else length (List.filter (withinDistance 2 term) (tokenize (content chunk))).

(** How a term that counts was found: by an exact occurrence, or else
    by tokens close to it. *)
Definition kindOf (term : str) (chunk : DocumentChunk) : MatchType :=
  if 1 <=? occurrences term (content chunk) then exact else fuzzy.

Definition k1 : float := 0x1.3333333333333p+0%float. (* 1.2 *)
Definition b : float := 0.75%float.

Definition titleOf (chunk : DocumentChunk) : str :=
  default [] (title (metadata chunk)).

(** [term] is a substring of the title, up to case. *)
Definition inTitle (term : str) (chunk : DocumentChunk) : bool :=
  Js.includes (Js.toLowerCase (titleOf chunk)) (Js.toLowerCase term).

Section Score.

Variable idf : str -> float.
Variable avgDocLength : float.
Variable collectionId : option str.
Variable queryTerms : list str.

Definition contribution (term : str) (termFreq docLength : nat) : float :=
  (idf term * Js.num termFreq * (k1 + 1)
   / (Js.num termFreq
      + k1 * (1 - b + b * (Js.num docLength / avgDocLength))))%float.

Definition addTerm (chunk : DocumentChunk) (score : float) (term : str)
  : float :=
  let tf := termFreq term chunk in
  if 0 <? tf
  then (score + contribution term tf (length (content chunk)))%float
  else score.

Definition addTitle (chunk : DocumentChunk) (score : float) (term : str)
  : float :=
  if inTitle term chunk then (score + 2.0)%float else score.

Definition belongs (chunk : DocumentChunk) : bool :=
  match collectionId with
  | Some c => bool_decide (projectIdOf chunk = c)
  | None => false
  end.

(** The terms are taken in the order of the query, first for their
    contributions, then for the title; the boost comes last. *)
Definition score (chunk : DocumentChunk) : float :=
  let accumulated :=
    fold_left (addTitle chunk) queryTerms
      (fold_left (addTerm chunk) queryTerms 0%float) in
  if belongs chunk then (accumulated * 1.5)%float else accumulated.

End Score.

(** *** The index *)

(** The chunks of all collections, in the order of the index. *)
Definition allChunks (st : State) : list DocumentChunk :=
concat (map snd (entries st)).

(** The chunks stored for a collection. *)
Definition chunksOf (collectionId : str) (st : State) : option (list DocumentChunk) :=
deref st <$> Map_get collectionId (index st).

(** The chunks of the collections other than [collectionId]. *)
Definition otherChunks (collectionId : str) (st : State) : list DocumentChunk :=
concat (map snd (List.filter (fun kv => negb (bool_decide (kv.1 = collectionId)))
                   (entries st))).

End Spec.

(** ** Sample data *)

Module Examples.

Import SearchEngine.

(** One admissible [Math.log]: ECMAScript asks for an approximation of the
    natural logarithm with given values at 0, 1, the infinities and below
    0.  This one writes [x] as [m * 2^e] with [m] in [[1/2, 1)] and sums the
    series of [2 * atanh ((m - 1) / (m + 1))]. *)
Definition ln2 : float := 0x1.62e42fefa39efp-1%float.

Definition atanhSeries (t : float) : float :=
(fold_right (fun k acc => 1 / Js.num k + t * t * acc) 0
   [1; 3; 5; 7; 9; 11; 13; 15; 17; 19; 21; 23; 25; 27; 29; 31; 33; 35; 37; 39]%nat
 * t)%float.

Definition Math_log (x : float) : float :=
if PrimFloat.eqb x x then
  if PrimFloat.ltb x 0 then PrimFloat.nan
  else if PrimFloat.eqb x 0 then PrimFloat.neg_infinity
  else if PrimFloat.eqb x PrimFloat.infinity then PrimFloat.infinity
  else if PrimFloat.eqb x 1 then 0%float
  else
    let '(m, e) := PrimFloat.frshiftexp x in
    (2 * atanhSeries ((m - 1) / (m + 1))
     + (PrimFloat.of_uint63 e - PrimFloat.of_uint63 (Uint63.of_Z FloatOps.shift))
       * ln2)%float
else PrimFloat.nan.

Definition chunkOf (id pid : str) (title : option str) (content : str)
  : DocumentChunk :=
{| id := id; projectId := pid; filePath := lit "README.md"; content := content;
   metadata := {| title := title; type := markdown;
                  startLine := Some 1; endLine := Some 1 |} |}.

(** Project A has a chunk whose title, but not whose content, speaks of
    widgets; [a2] is what a later crawl of A finds instead. *)
Definition a1 : DocumentChunk :=
chunkOf (lit "A:README.md:1") (lit "A") (Some (lit "Widget guide"))
  (lit "How to assemble it").

Definition a2 : DocumentChunk :=
chunkOf (lit "A:README.md:1") (lit "A") (Some (lit "Changelog"))
  (lit "Nothing happened").

Definition b1 : DocumentChunk :=
chunkOf (lit "B:README.md:1") (lit "B") None (lit "Unrelated notes").

(** Chunks with exact and with close occurrences of the words of a query. *)
Definition c1 : DocumentChunk :=
chunkOf (lit "C:README.md:1") (lit "C") (Some (lit "Search"))
  (lit "The searchEngine ranks chunks. Search again!").

Definition c2 : DocumentChunk :=
chunkOf (lit "C:README.md:9") (lit "C") None (lit "An engin for serach").

(** The engine of a process without snapshot after [indexProject("A", [a1])]
    and then [indexProject("B", [b1])]. *)
Definition indexedA : State :=
let '(r, st) := alloc [a1] (new None) in indexProject (lit "A") r true st.

Definition indexedAB : State :=
let '(r, st) := alloc [b1] indexedA in indexProject (lit "B") r true st.

(** ... after a search in project B, *)
Definition searchedB : State :=
(search Math_log (Some (lit "B")) (lit "notes") 5 indexedAB).1.

(** ... and then after [indexProject("A", [a2])], or after
    [clearIndex("A")]. *)
Definition reindexedA : State :=
let '(r, st) := alloc [a2] searchedB in indexProject (lit "A") r true st.

Definition clearedA : State := clearIndex (lit "A") true searchedB.

Definition indexedC : State :=
let '(r, st) := alloc [c1; c2] (new None) in indexProject (lit "C") r true st.

End Examples.

(** ** resource-manager.ts *)

Module ResourceManager.

Import SearchEngine.

Record GitLabResource := {
  uri : str;
  name : str;
  mimeType : option str;
  text : option str;
  isFolder : bool;
  children : option (list str);
  webUrl : option str;
  projectPath : option str;
  instructionToLLM : option str
}.

(** [this.resources]: a [Map] from a URI to its resource, in insertion
    order. *)
Definition Resources := list (str * GitLabResource).

Definition registerResource (resource : GitLabResource) (resources : Resources)
  : Resources :=
  Map_set (uri resource) resource resources.

Definition getResource (uri : str) (resources : Resources)
  : option GitLabResource :=
  Map_get uri resources.

(** [Array.from(this.resources.values())] *)
Definition getAllResources (resources : Resources) : list GitLabResource :=
  map snd resources.

(** The prefix [`gitlab://${projectId}/`]. *)
Definition projectPrefix (projectId : str) : str :=
  lit "gitlab://" ++ projectId ++ lit "/".

(** The loop over [this.resources.keys()]: a key is deleted when the loop
    visits it, so the loop sees every key the map had. *)
Definition clearProjectResources (projectId : str) (resources : Resources)
  : Resources :=
  fold_left (fun resources key =>
               if Js.startsWith key (projectPrefix projectId)
               then Map_delete key resources else resources)
            (map fst resources) resources.

(** [filePath.substring(1)] *)
Definition substring1 (s : str) : str := drop 1 s.

Definition getUri (projectId filePath : str) : str :=
  let cleanPath :=
    if Js.startsWith filePath (lit "/") then substring1 filePath else filePath in
  lit "gitlab://" ++ projectId ++ lit "/" ++ cleanPath.

End ResourceManager.

(** ** gitlab-crawler.ts *)

Module GitLabCrawler.

(** [s.lastIndexOf(c)] for one character: the index of its last
    occurrence, or -1. *)
Fixpoint lastIndexOf_from (c : ascii) (s : str) (i : nat) (found : Z) : Z :=
  match s with
  | [] => found
  | x :: s' =>
      lastIndexOf_from c s' (S i) (if bool_decide (x = c) then Z.of_nat i else found)
  end.

Definition lastIndexOf (s : str) (c : ascii) : Z := lastIndexOf_from c s 0 (-1)%Z.

(** [s.substring(start)]: a negative [start] counts as 0. *)
Definition substring (s : str) (start : Z) : str :=
  drop (Z.to_nat (Z.max 0 start)) s.

Definition excludedDirs : list str :=
  [lit "node_modules"; lit "dist"; lit "build"; lit ".git"; lit "coverage"].

Definition supportedExtensions : list str := [lit ".md"; lit ".markdown"].

Definition shouldProcessFile (filePath : str) : bool :=
  if existsb (fun dir => Js.includes filePath (dir ++ lit "/")) excludedDirs
  then false
  else
    let ext := Js.toLowerCase (substring filePath (lastIndexOf filePath "."%char)) in
    bool_decide (ext ∈ supportedExtensions).

(** An entry of the repository tree, as far as [crawlProject] reads it:
    [file.type], [file.name] and [file.path]. *)
Record TreeEntry := {
  entryType : str;
  entryName : str;
  entryPath : str
}.

Section CrawlProject.

(** [fetchFileContent(projectId, path, defaultBranch)]: the content that
    the server returns for a path, or the request throws. *)
Variable fetchFileContent : str -> Outcome str.

(** [project.path_with_namespace] *)
Variable path_with_namespace : str.

Variable metadataOnly : bool.

(** The body of [for (const file of tree)] in [crawlProject], on the
    variables [chunks] and [processedCount]: a folder and a README are only
    registered as resources; the content of another file is chunked when
    [shouldProcessFile] accepts its path, the crawl is not for metadata
    only and the content could be fetched. *)
Definition crawlStep (acc : list DocumentChunk * nat) (file : TreeEntry)
  : list DocumentChunk * nat :=
  let '(chunks, processedCount) := acc in
  if bool_decide (entryType file = lit "tree") then acc
  else
    let shouldProcess := shouldProcessFile (entryPath file) in
    let isReadme :=
      bool_decide (Js.toLowerCase (entryName file) = lit "readme.md") in
    if isReadme then acc
    else if shouldProcess && negb metadataOnly then
      match fetchFileContent (entryPath file) with
      | Returns content =>
          let fileChunks :=
            DocumentProcessor.chunkDocument path_with_namespace
              (entryPath file) content in
          (chunks ++ fileChunks, processedCount + 1)
      | Throws => acc
      end
    else acc.

(** [chunks] and [processedCount] after the loop. *)
Definition crawlChunks (tree : list TreeEntry) : list DocumentChunk * nat :=
  fold_left crawlStep tree ([], 0).

(** The end of [crawlProject]: [searchEngine.indexProject] with the new
    array [chunks]. *)
Definition crawlIndex (tree : list TreeEntry) (writable : bool) (st : State)
  : State :=
  let '(chunks, st) := SearchEngine.alloc (crawlChunks tree).1 st in
  SearchEngine.indexProject path_with_namespace chunks writable st.

End CrawlProject.

End GitLabCrawler.

(** ** integrations/gitlab.ts: the snippet of a search result *)

Module GitLabTools.

(** [xs.findIndex(p)]: [None] is -1. *)
Fixpoint findIndex {A} (p : A -> bool) (xs : list A) : option nat :=
  match xs with
  | [] => None
  | x :: xs' => if p x then Some 0 else S <$> findIndex p xs'
  end.

(** [bestLineIndex] after the test on [result.matchDetails]. *)
Definition bestLineIndex (result : SearchResult) (lines : list str) : nat :=
  match matchDetails result with
  | first :: _ =>
      match findIndex (fun l => Js.includes (Js.toLowerCase l) (term first)) lines with
      | Some idx => idx
      | None => 0
      end
  | [] => 0
  end.

(** [lines.slice(start, end)], the lines of the snippet. *)
Definition snippetLines (result : SearchResult) : list str :=
  let lines := Js.split DocumentProcessor.LF (content (chunk result)) in
  let bestLineIndex := bestLineIndex result lines in
  let start := Nat.max 0 (bestLineIndex - 1) in
  let end_ := Nat.min (length lines) (bestLineIndex + 3) in
  Js.slice lines start end_.

Definition snippet (result : SearchResult) : str :=
  Js.join [DocumentProcessor.LF] (snippetLines result).

End GitLabTools.

(** ** More words for the properties *)

Module Shape.

(** The spans [(start, end)] follow one another from line [from] to line
    [to] without gap or overlap, and none is empty. *)
Fixpoint tiles (from : nat) (spans : list (nat * nat)) (to : nat) : Prop :=
  match spans with
  | [] => from = S to
  | (s, e) :: rest => s = from /\ s <= e /\ tiles (S e) rest to
  end.

(** The lines [s] to [e] (1-based, inclusive) of a document. *)
Definition linesBetween (lines : list str) (s e : nat) : str :=
  Js.join [DocumentProcessor.LF] (Js.slice lines (s - 1) e).

(** The title of the section that starts at a line: the text of a
    heading, "Introduction" otherwise. *)
Definition sectionTitle (line : str) : str :=
  if DocumentProcessor.is_heading line
  then Js.trim (DocumentProcessor.strip_marker line)
  else lit "Introduction".

(** The spans of the chunks, as numbers. *)
Definition spanOf (chunk : DocumentChunk) : nat * nat :=
  (default 0 (startLine (metadata chunk)), default 0 (endLine (metadata chunk))).

(** The chunk of the markdown strategy for the lines [s] to [e]. *)
Definition sectionChunk (pid path : str) (lines : list str) (se : nat * nat)
  : DocumentChunk :=
  {| id := DocumentProcessor.chunkId pid path se.1;
     projectId := pid;
     filePath := path;
     content := linesBetween lines se.1 se.2;
     metadata := {| title := Some (sectionTitle (default [] (lines !! (se.1 - 1))));
                    type := markdown;
                    startLine := Some se.1;
                    endLine := Some se.2 |} |}.

(** The chunk of the code strategy for the lines [s] to [e]. *)
Definition windowChunk (pid path : str) (lines : list str) (se : nat * nat)
  : DocumentChunk :=
  {| id := DocumentProcessor.chunkId pid path se.1;
     projectId := pid;
     filePath := path;
     content := linesBetween lines se.1 se.2;
     metadata := {| title := None;
                    type := code;
                    startLine := Some se.1;
                    endLine := Some se.2 |} |}.

(** The number of windows of the code strategy for [n] lines: one, and
    one more for every 40 lines from line 51 on. *)
Definition windowCount (n : nat) : nat := S ((n - 11) / 40).

(** The windows of the code strategy for [n] lines. *)
Definition windowSpans (n : nat) : list (nat * nat) :=
  map (fun k => (40 * k + 1, Nat.min (40 * k + 50) n)) (seq 0 (windowCount n)).

(** Line [n] lies in the span of [chunk]. *)
Definition covers (chunk : DocumentChunk) (n : nat) : Prop :=
  (spanOf chunk).1 <= n <= (spanOf chunk).2.

(** A chunk made for the project [pid] and the file [path] with the
    strategy [kind]: its span lies within the lines of [doc] and its
    identifier names the project, the path and its first line. *)
Definition tagged (pid path doc : str) (kind : ChunkType) (c : DocumentChunk) : Prop :=
  projectId c = pid /\ filePath c = path /\ type (metadata c) = kind
  /\ exists s e, Spec.span c = (Some s, Some e)
       /\ 1 <= s /\ s <= e /\ e <= Spec.lineCount doc
       /\ id c = DocumentProcessor.chunkId pid path s.

(** [xs] is the beginning of [ys]. *)
Definition startsList {A} (xs ys : list A) : Prop := exists more, ys = xs ++ more.

(** The engine [st'] is the engine [st] but for chunks that were appended
    to its arrays: the same index, the same snapshot on disk, the same log,
    and every array of [st] is the beginning of what it is in [st']. *)
Definition grownFrom (st st' : State) : Prop :=
  index st' = index st /\ disk st' = disk st /\ console st' = console st
  /\ length (heap st') = length (heap st)
  /\ forall r, startsList (SearchEngine.deref st r) (SearchEngine.deref st' r).

(** The outcome of matching a term against a chunk is an exact match. *)
Definition isExact (m : nat * option MatchType) : bool :=
  match m.2 with Some exact => true | _ => false end.

(** The results of a search that have a positive score. *)
Definition positive (item : SearchResult) : bool := PrimFloat.ltb 0 (score item).

(** A registry as [registerResource] builds it: every resource is filed
    under its own URI, and no URI is there twice. *)
Definition registry (resources : ResourceManager.Resources) : Prop :=
  NoDup (map fst resources)
  /\ Forall (fun kv : str * ResourceManager.GitLabResource =>
               kv.1 = ResourceManager.uri kv.2) resources.

End Shape.

(** ** More sample data *)

Module Samples.

Definition folder (u : str) : ResourceManager.GitLabResource :=
  {| ResourceManager.uri := u;
     ResourceManager.name := lit "docs";
     ResourceManager.mimeType := Some (lit "application/x-yaml");
     ResourceManager.text := None;
     ResourceManager.isFolder := true;
     ResourceManager.children := None;
     ResourceManager.webUrl := None;
     ResourceManager.projectPath := Some (lit "group/project");
     ResourceManager.instructionToLLM := None |}.

Definition docs : ResourceManager.GitLabResource :=
  folder (ResourceManager.getUri (lit "group/project") (lit "/docs")).

Definition registered : ResourceManager.Resources :=
  ResourceManager.registerResource docs [].

End Samples.


(** * Properties *)

Import DocumentProcessor SearchEngine.

(** ** Strings *)

Lemma split_nonempty sep s : Js.split sep s <> [].
Proof.
  destruct s as [|c s]; simpl; [done|].
  case_bool_decide; [done|]. by destruct (Js.split sep s).
Qed.

Lemma split_length sep s :
  length (Js.split sep s) = S (length (List.filter (fun c => bool_decide (c = sep)) s)).
Proof.
  induction s as [|c s IH]; simpl; [done|].
  case_bool_decide; simpl; [by rewrite IH|].
  destruct (Js.split sep s) eqn:E; [by destruct (split_nonempty sep s)|].
  simpl in *. done.
Qed.

Lemma join_split sep s : Js.join [sep] (Js.split sep s) = s.
Proof.
  induction s as [|c s IH]; simpl; [done|].
  case_bool_decide as Hc.
  - subst c. destruct (Js.split sep s) eqn:E; [by destruct (split_nonempty sep s)|].
    simpl in *. by rewrite IH.
  - destruct (Js.split sep s) as [|p ps] eqn:E; [by destruct (split_nonempty sep s)|].
    destruct ps; simpl in *; by rewrite <- IH.
Qed.

(** ** The text strategy *)

Lemma slice0_take {A} (xs : list A) (n : nat) :
  Js.slice0 xs (Z.of_nat n) = take (Nat.min n (length xs)) xs.
Proof.
  unfold Js.slice0.
  destruct (Z.ltb_spec (Z.of_nat n) 0); [lia|].
  f_equal. lia.
Qed.

Lemma chunkDocument_dispatch pid path doc :
  chunkDocument pid path doc =
  match Spec.strategy path with
  | markdown => chunkMarkdown pid path doc
  | code => chunkCode pid path doc
  | text => chunkText pid path doc
  end.
Proof.
  unfold Spec.strategy, chunkDocument. cbv zeta.
  generalize (extension path). intros e.
  destruct (decide (e = lit "md")) as [->|H1]; [reflexivity|].
  destruct (decide (e = lit "markdown")) as [->|H2]; [reflexivity|].
  rewrite (bool_decide_eq_false_2 (e = lit "md")) by done.
  rewrite (bool_decide_eq_false_2 (e = lit "markdown")) by done.
  rewrite (bool_decide_eq_false_2 (e ∈ [lit "md"; lit "markdown"])).
  - simpl. by destruct (bool_decide (e ∈ codeExtensions)).
  - rewrite !elem_of_cons, elem_of_nil. tauto.
Qed.

(** C5: a document of the text strategy gives exactly one chunk; its
    content is the first [min 10000 length] characters of the input, so
    exactly 10000 characters when the input is longer, and its [endLine] is
    the number of lines of the whole input. *)
Theorem chunkText_single_truncated_chunk pid path doc :
  Spec.strategy path = text ->
  exists chunk,
    chunkDocument pid path doc = [chunk]
    /\ content chunk = take (Nat.min 10000 (length doc)) doc
    /\ (10000 < length doc -> length (content chunk) = 10000)
    /\ endLine (metadata chunk) = Some (Spec.lineCount doc).
Proof.
  intros Hs. rewrite chunkDocument_dispatch, Hs.
  assert (Hz : 10000%Z = Z.of_nat 10000) by (vm_compute; reflexivity).
  remember 10000 as limit eqn:Hlimit. clear Hlimit.
  eexists. split; [reflexivity|]. cbn [content metadata endLine].
  rewrite Hz, slice0_take.
  split; [done|]. split.
  - intros Hlen. rewrite length_take. lia.
  - unfold Spec.lineCount. by rewrite split_length.
Qed.

Lemma chunkText_single_truncated_chunk_witness :
  Spec.strategy (lit "notes/README.txt") = text
  /\ exists chunk,
       chunkDocument (lit "group/project") (lit "notes/README.txt")
         (lit "first line" ++ [LF] ++ lit "second line") = [chunk]
       /\ content chunk
          = take (Nat.min 10000 (length (lit "first line" ++ [LF] ++ lit "second line")))
              (lit "first line" ++ [LF] ++ lit "second line")
       /\ (10000 < length (lit "first line" ++ [LF] ++ lit "second line")
           -> length (content chunk) = 10000)
       /\ endLine (metadata chunk)
          = Some (Spec.lineCount (lit "first line" ++ [LF] ++ lit "second line")).
Proof.
  split; [vm_compute; reflexivity|].
  apply (chunkText_single_truncated_chunk (lit "group/project") (lit "notes/README.txt")).
  vm_compute; reflexivity.
Defined.

(** ** The code strategy *)

Section CodeWindows.

Variables (pid path : str) (lines : list str).

Let spansFrom (i : nat) : list (option nat * option nat) :=
  map Spec.span (codeLoop pid path lines i []).

Lemma codeLoop_acc i acc :
  codeLoop pid path lines i acc = acc ++ codeLoop pid path lines i [].
Proof.
  remember (length lines - i) as m eqn:Hm.
  revert i acc Hm. induction m as [m IH] using lt_wf_ind. intros i acc Hm.
  rewrite (codeLoop_equation_1 _ _ _ i acc), (codeLoop_equation_1 _ _ _ i []).
  destruct (decide (i < length lines)); [|by rewrite app_nil_r].
  cbv zeta. destruct (decide _); [done|].
  assert (Hlt : length lines - (i + (CHUNK_SIZE - OVERLAP)) < m)
    by (unfold CHUNK_SIZE, OVERLAP; lia).
  rewrite (IH _ Hlt); [|done].
  rewrite (IH _ Hlt _ ([] ++ _)); [|done].
  by rewrite <- app_assoc.
Qed.

Lemma spansFrom_step i :
  i < length lines ->
  spansFrom i =
  (Some (i + 1), Some (Nat.min (i + 50) (length lines)))
    :: (if decide (i + 50 < length lines) then spansFrom (i + 40) else []).
Proof.
  intros Hi. unfold spansFrom. rewrite codeLoop_equation_1.
  rewrite decide_True by done. cbv zeta. unfold CHUNK_SIZE, OVERLAP.
  destruct (decide (_ = _)) as [He|He].
  - rewrite decide_False by lia. done.
  - rewrite decide_True by lia. rewrite codeLoop_acc. simpl.
    do 3 f_equal.
Qed.

Lemma spansFrom_windows i :
  i < length lines ->
  (forall k w w', spansFrom i !! k = Some w -> spansFrom i !! S k = Some w' ->
     exists s, w.1 = Some s
       /\ w' = (Some (s + 40), Some (Nat.min (s + 40 + 49) (length lines))))
  /\ (forall k w, spansFrom i !! k = Some w ->
        (w.2 = Some (length lines) <-> S k = length (spansFrom i)))
  /\ (forall w, w ∈ spansFrom i ->
        exists s e, w = (Some s, Some e) /\ i < s /\ s <= e <= length lines).
Proof.
  remember (length lines - i) as m eqn:Hm.
  revert i Hm. induction m as [m IH] using lt_wf_ind. intros i Hm Hi.
  rewrite (spansFrom_step i Hi).
  destruct (decide (i + 50 < length lines)) as [Hlt|Hge].
  - destruct (IH (length lines - (i + 40)) ltac:(lia) (i + 40) eq_refl ltac:(lia))
      as (IH2 & IH3 & IH4).
    assert (Hhd : spansFrom (i + 40) !! 0
                  = Some (Some (i + 40 + 1), Some (Nat.min (i + 40 + 50) (length lines)))).
    { rewrite (spansFrom_step (i + 40)) by lia. done. }
    split; [|split].
    + intros [|k] w w'; simpl; intros Hw Hw'.
      * inversion Hw; subst w. rewrite Hhd in Hw'. inversion Hw'; subst w'.
        exists (i + 1). split; [done|]. simpl. do 2 f_equal; lia.
      * eauto.
    + intros [|k] w; simpl; intros Hw.
      * inversion Hw; subst w. simpl.
        assert (0 < length (spansFrom (i + 40))).
        { apply lookup_lt_Some in Hhd. lia. }
        split; [intros [=]; lia | lia].
      * rewrite (IH3 k w Hw). lia.
    + intros w [->|Hw]%elem_of_cons.
      * exists (i + 1), (Nat.min (i + 50) (length lines)). split; [done|]. lia.
      * destruct (IH4 w Hw) as (s & e & -> & ? & ?). exists s, e. split; [done|]. lia.
  - split; [|split].
    + intros [|k] w w'; simpl; intros Hw Hw'; done.
    + intros [|k] w; simpl; intros Hw; [|done].
      inversion Hw; subst w. simpl. split; [done|]. intros _. f_equal. lia.
    + intros w [->|Hw]%elem_of_cons; [|by apply elem_of_nil in Hw].
      exists (i + 1), (Nat.min (i + 50) (length lines)). split; [done|]. lia.
Qed.

End CodeWindows.

(** C4: for a document of [N] lines under the code strategy, the first
    window is [[1, min 50 N]]; every further window starts 40 lines after
    the start of the window before it and ends at [min (start + 49) N]; the
    last window, and no window before it, ends at line [N]; and every window
    holds at least one line of the document. *)
Theorem chunkCode_sliding_windows pid path doc :
  Spec.strategy path = code ->
  let N := Spec.lineCount doc in
  let windows := map Spec.span (chunkDocument pid path doc) in
  windows !! 0 = Some (Some 1, Some (Nat.min 50 N))
  /\ (forall k w w', windows !! k = Some w -> windows !! S k = Some w' ->
        exists s, w.1 = Some s
          /\ w' = (Some (s + 40), Some (Nat.min (s + 40 + 49) N)))
  /\ (forall k w, windows !! k = Some w ->
        (w.2 = Some N <-> S k = length windows))
  /\ (forall w, w ∈ windows ->
        exists s e, w = (Some s, Some e) /\ 1 <= s /\ s <= e <= N).
Proof.
  intros Hs N windows. subst windows.
  rewrite chunkDocument_dispatch, Hs. unfold chunkCode.
  assert (HN : N = length (Js.split LF doc)).
  { subst N. unfold Spec.lineCount. by rewrite split_length. }
  assert (Hpos : 0 < length (Js.split LF doc))
    by (rewrite <- HN; subst N; unfold Spec.lineCount; lia).
  rewrite HN.
  destruct (spansFrom_windows pid path (Js.split LF doc) 0 Hpos) as (H2 & H3 & H4).
  split; [|split; [|split]].
  - rewrite (spansFrom_step pid path (Js.split LF doc) 0 Hpos). done.
  - exact H2.
  - exact H3.
  - intros w Hw. destruct (H4 w Hw) as (s & e & -> & ? & ?).
    exists s, e. split; [done|]. lia.
Qed.

Lemma chunkCode_sliding_windows_witness :
  Spec.strategy (lit "src/main.ts") = code
  /\ let N := Spec.lineCount (lit "let a = 1;" ++ [LF] ++ lit "let b = 2;") in
     let windows :=
       map Spec.span
         (chunkDocument (lit "group/project") (lit "src/main.ts")
            (lit "let a = 1;" ++ [LF] ++ lit "let b = 2;")) in
     windows !! 0 = Some (Some 1, Some (Nat.min 50 N))
     /\ (forall k w w', windows !! k = Some w -> windows !! S k = Some w' ->
           exists s, w.1 = Some s
             /\ w' = (Some (s + 40), Some (Nat.min (s + 40 + 49) N)))
     /\ (forall k w, windows !! k = Some w ->
           (w.2 = Some N <-> S k = length windows))
     /\ (forall w, w ∈ windows ->
           exists s e, w = (Some s, Some e) /\ 1 <= s /\ s <= e <= N).
Proof.
  split; [vm_compute; reflexivity|].
  apply (chunkCode_sliding_windows (lit "group/project") (lit "src/main.ts")).
  vm_compute; reflexivity.
Defined.

(** ** The markdown strategy *)

Lemma indexed_snoc {A} (xs : list A) (x : A) :
  indexed (xs ++ [x]) = indexed xs ++ [(length xs, x)].
Proof.
  unfold indexed. rewrite length_app, seq_app. simpl.
  rewrite zip_with_app by (by rewrite length_seq). done.
Qed.

Lemma headingLines_snoc pre line :
  Spec.headingLines (pre ++ [line])
  = Spec.headingLines pre ++ (if is_heading line then [length pre] else []).
Proof.
  unfold Spec.headingLines. rewrite indexed_snoc, List.filter_app, map_app.
  simpl. by destruct (is_heading line).
Qed.

Lemma hasLeadingContent_snoc pre line :
  pre <> [] -> Spec.hasLeadingContent (pre ++ [line]) = Spec.hasLeadingContent pre.
Proof. by destruct pre. Qed.

Lemma hashes_then_space_spec k line :
  hashes_then_space k line = true
  <-> exists c rest, line = replicate k hash ++ c :: rest /\ Js.is_space c = true.
Proof.
  unfold hashes_then_space. rewrite !andb_true_iff, Nat.eqb_eq. split.
  - intros [[Hall Hlen] Hsp].
    destruct (line !! k) as [c|] eqn:Hc; [|done].
    exists c, (drop (S k) line). split; [|done].
    rewrite <- (take_drop k line) at 1. f_equal.
    + apply list_eq_same_length with k; [by rewrite length_replicate|done|].
      intros i x y _ Hx Hy. apply lookup_replicate in Hy as [-> _].
      rewrite forallb_forall in Hall.
      specialize (Hall x (proj1 (list_elem_of_In _ _) (list_elem_of_lookup_2 _ _ _ Hx))).
      by apply bool_decide_eq_true in Hall.
    + by apply drop_S.
  - intros (c & rest & -> & Hsp).
    rewrite take_app_length' by (by rewrite length_replicate).
    rewrite length_replicate.
    rewrite list_lookup_middle by (by rewrite length_replicate).
    split; [split; [|done]|done].
    apply forallb_forall. intros x Hx%list_elem_of_In%elem_of_replicate.
    destruct Hx as [-> _]. by apply bool_decide_eq_true.
Qed.

Lemma is_heading_marker line :
  is_heading line = true <-> Spec.headingMarker line.
Proof.
  unfold is_heading, Spec.headingMarker. simpl.
  rewrite !orb_true_iff, !hashes_then_space_spec. split.
  - intros [(c & rest & H)|[(c & rest & H)|[(c & rest & H)|H]]];
      [exists 3|exists 2|exists 1|done]; exists c, rest; split; (lia || done).
  - intros (k & c & rest & Hk & H).
    assert (k = 1 \/ k = 2 \/ k = 3) as [-> | [-> | ->]] by lia; eauto 10.
Qed.

Lemma elem_of_indexed {A} (xs : list A) i x :
  (i, x) ∈ indexed xs <-> xs !! i = Some x.
Proof.
  induction xs as [|y xs IH] using rev_ind.
  - split; [by intros ?%elem_of_nil|done].
  - rewrite indexed_snoc, elem_of_app, list_elem_of_singleton, IH, lookup_snoc_Some.
    split.
    + intros [H|[= -> ->]]; [left|right]; split; try done.
      by apply lookup_lt_Some in H.
    + intros [[_ H]|[-> ->]]; [by left|by right].
Qed.

Lemma elem_of_headingLines lines i :
  i ∈ Spec.headingLines lines
  <-> exists line, lines !! i = Some line /\ Spec.headingMarker line.
Proof.
  unfold Spec.headingLines. rewrite list_elem_of_In, List.in_map_iff. split.
  - intros ([i' line] & <- & [Hin Hh]%List.filter_In). simpl in *.
    exists line. split; [by apply elem_of_indexed, list_elem_of_In|].
    by apply is_heading_marker.
  - intros (line & Hl & Hm). exists (i, line). split; [done|].
    apply List.filter_In. split.
    + by apply list_elem_of_In, elem_of_indexed.
    + by apply is_heading_marker.
Qed.

Section Markdown.

Variables pid path : str.

Local Arguments is_heading : simpl never.

(** The start lines that the state will have produced once its last
    chunk is flushed. *)
Let starts (st : MdState) : list (option nat) :=
  map (fun c => startLine (metadata c)) (chunks st)
  ++ (if 0 <? length (currentChunkLines st) then [Some (mdStartLine st)] else []).

Let expected (pre : list str) : list (option nat) :=
  (if Spec.hasLeadingContent pre then [Some 1] else [])
  ++ map (fun i => Some (S i)) (Spec.headingLines pre).

Let run (pre : list str) : MdState :=
  fold_left (mdStep pid path) (indexed pre) mdInit.

Lemma run_snoc pre line :
  run (pre ++ [line]) = mdStep pid path (run pre) (length pre, line).
Proof. unfold run. by rewrite indexed_snoc, fold_left_app. Qed.

Lemma run_invariant pre :
  starts (run pre) = expected pre
  /\ (currentChunkLines (run pre) = [] <-> pre = [])
  /\ (Spec.headingLines pre = [] ->
      chunks (run pre) = [] /\ currentChunkLines (run pre) = pre
      /\ currentTitle (run pre) = lit "Introduction" /\ mdStartLine (run pre) = 1).
Proof.
  induction pre as [|line pre IH] using rev_ind; [done|].
  destruct IH as (IH1 & IH2 & IH3).
  rewrite run_snoc. unfold mdStep. subst starts expected. cbv beta in *.
  rewrite headingLines_snoc.
  destruct (is_heading line) eqn:Hh;
    cbn [chunks currentChunkLines currentTitle mdStartLine].
  - split; [|split].
    + unfold flush. rewrite map_app.
      destruct (decide (pre = [])) as [->|Hne].
      * cbn. rewrite Hh. done.
      * rewrite hasLeadingContent_snoc by done.
        rewrite (app_assoc _ _ (map _ [length pre])), <- IH1.
        destruct (0 <? length (currentChunkLines (run pre))) eqn:Hc.
        -- rewrite map_app. simpl. do 3 f_equal. lia.
        -- rewrite app_nil_r. simpl. do 3 f_equal. lia.
    + split; [done|]. intros H. by destruct pre.
    + intros H. by destruct (Spec.headingLines pre).
  - rewrite app_nil_r. split; [|split].
    + rewrite length_app. simpl.
      replace (0 <? length (currentChunkLines (run pre)) + 1) with true
        by (symmetry; apply Nat.ltb_lt; lia).
      destruct (decide (pre = [])) as [->|Hne].
      * cbn. rewrite Hh. done.
      * rewrite hasLeadingContent_snoc by done. rewrite <- IH1.
        destruct (currentChunkLines (run pre)) eqn:Hc;
          [by destruct IH2 as [IH2 _]; destruct (Hne (IH2 eq_refl))|].
        done.
    + split; [by destruct (currentChunkLines (run pre))|by destruct pre].
    + intros H. destruct (IH3 H) as (-> & -> & -> & ->). done.
Qed.

Lemma chunkMarkdown_starts doc :
  map (fun c => startLine (metadata c)) (chunkMarkdown pid path doc)
  = expected (Js.split LF doc).
Proof.
  unfold chunkMarkdown. cbv zeta. fold (run (Js.split LF doc)).
  destruct (run_invariant (Js.split LF doc)) as (H1 & _ & _).
  rewrite <- H1. subst starts. cbv beta. unfold flush.
  destruct (0 <? _); [|by rewrite app_nil_r].
  by rewrite map_app.
Qed.

Lemma chunkMarkdown_no_heading doc :
  Spec.headingLines (Js.split LF doc) = [] ->
  chunkMarkdown pid path doc =
  [ {| id := chunkId pid path 1; projectId := pid; filePath := path;
       content := doc;
       metadata := {| title := Some (lit "Introduction"); type := markdown;
                      startLine := Some 1;
                      endLine := Some (length (Js.split LF doc)) |} |} ].
Proof.
  intros Hno. unfold chunkMarkdown. cbv zeta. fold (run (Js.split LF doc)).
  destruct (run_invariant (Js.split LF doc)) as (_ & _ & H3).
  destruct (H3 Hno) as (Hc & Hl & Ht & Hs).
  unfold flush, mdChunk. rewrite Hc, Hl, Ht, Hs, join_split.
  destruct (Js.split LF doc) eqn:E; [by destruct (split_nonempty LF doc)|].
  done.
Qed.

End Markdown.

(** C3: a heading line is a line that starts with one to three hashes and
    a white-space character.  Under the markdown strategy, a document
    without a heading line gives exactly one chunk, titled "Introduction",
    that spans the whole document (lines 1 to the line count, with the
    document as its content); in general the chunks are as many as the
    heading lines, plus one when the first line is not a heading, and their
    start lines are 1 for that leading chunk and the 1-based line of its
    heading for every other. *)
Theorem chunkMarkdown_chunks_by_heading pid path doc :
  Spec.strategy path = markdown ->
  let lines := Spec.linesOf doc in
  let chunks := chunkDocument pid path doc in
  let leading := if Spec.hasLeadingContent lines then 1 else 0 in
  (forall i, i ∈ Spec.headingLines lines
     <-> exists line, lines !! i = Some line /\ Spec.headingMarker line)
  /\ (Spec.headingLines lines = [] ->
      exists chunk,
        chunks = [chunk]
        /\ title (metadata chunk) = Some (lit "Introduction")
        /\ Spec.span chunk = (Some 1, Some (Spec.lineCount doc))
        /\ content chunk = doc)
  /\ length chunks = length (Spec.headingLines lines) + leading
  /\ map (fun c => startLine (metadata c)) chunks
     = replicate leading (Some 1)
       ++ map (fun i => Some (S i)) (Spec.headingLines lines).
Proof.
  intros Hs lines chunks leading. subst chunks.
  rewrite chunkDocument_dispatch, Hs.
  assert (Hstarts := chunkMarkdown_starts pid path doc). cbv beta zeta in Hstarts.
  fold (Spec.linesOf doc) in Hstarts. fold lines in Hstarts.
  assert (Hlead : (if Spec.hasLeadingContent lines then [Some 1] else [])
                  = replicate leading (Some 1)).
  { subst leading. by destruct (Spec.hasLeadingContent lines). }
  rewrite Hlead in Hstarts.
  split; [|split; [|split]].
  - apply elem_of_headingLines.
  - intros Hno. rewrite (chunkMarkdown_no_heading pid path doc Hno).
    eexists. split; [reflexivity|]. split; [done|]. split; [|done].
    unfold Spec.span, Spec.lineCount. simpl. by rewrite split_length.
  - rewrite <- (length_map (fun c => startLine (metadata c))), Hstarts.
    rewrite length_app, length_replicate, length_map. lia.
  - exact Hstarts.
Qed.

Lemma chunkMarkdown_chunks_by_heading_witness :
  Spec.strategy (lit "docs/README.md") = markdown
  /\ let doc := lit "intro" ++ [LF] ++ lit "# Title" ++ [LF] ++ lit "body" in
     let lines := Spec.linesOf doc in
     let chunks := chunkDocument (lit "group/project") (lit "docs/README.md") doc in
     let leading := if Spec.hasLeadingContent lines then 1 else 0 in
     (forall i, i ∈ Spec.headingLines lines
        <-> exists line, lines !! i = Some line /\ Spec.headingMarker line)
     /\ (Spec.headingLines lines = [] ->
         exists chunk,
           chunks = [chunk]
           /\ title (metadata chunk) = Some (lit "Introduction")
           /\ Spec.span chunk = (Some 1, Some (Spec.lineCount doc))
           /\ content chunk = doc)
     /\ length chunks = length (Spec.headingLines lines) + leading
     /\ map (fun c => startLine (metadata c)) chunks
        = replicate leading (Some 1)
          ++ map (fun i => Some (S i)) (Spec.headingLines lines).
Proof.
  split; [vm_compute; reflexivity|].
  apply (chunkMarkdown_chunks_by_heading (lit "group/project") (lit "docs/README.md")).
  vm_compute; reflexivity.
Defined.

(** ** The tokenizer *)

Lemma pieces_nonempty sep s : Spec.pieces sep s <> [].
Proof.
  destruct s as [|c s]; simpl; [done|].
  destruct (sep c); [done|]. by destruct (Spec.pieces sep s).
Qed.

Lemma pieces_free sep s :
  Forall (Forall (fun c => sep c = false)) (Spec.pieces sep s).
Proof.
  induction s as [|c s IH]; simpl.
  - by repeat constructor.
  - destruct (sep c) eqn:Hc; [by constructor|].
    destruct (Spec.pieces sep s) as [|p ps]; [by repeat constructor|].
    inversion IH; subst. constructor; [by constructor|done].
Qed.

Lemma fragments_alnum text :
  Forall (Forall (fun c => Js.is_alnum c = true)) (Spec.fragments text).
Proof.
  unfold Spec.fragments. apply Forall_forall. intros f Hf.
  apply list_elem_of_In, List.filter_In in Hf. destruct Hf as [Hf _].
  pose proof (pieces_free (fun c => negb (Js.is_alnum c)) text) as Hall.
  rewrite Forall_forall in Hall. specialize (Hall f (proj2 (list_elem_of_In _ _) Hf)).
  eapply Forall_impl; [exact Hall|]. intros c Hc. simpl in Hc.
  by destruct (Js.is_alnum c).
Qed.

Lemma splitNonAlnum_from_fragments piece inSep s :
  (inSep = true -> piece = []) ->
  List.filter Spec.nonEmpty (splitNonAlnum_from piece inSep s)
  = List.filter Spec.nonEmpty
      (match Spec.pieces (fun c => negb (Js.is_alnum c)) s with
       | p :: ps => (piece ++ p) :: ps
       | [] => [piece]
       end).
Proof.
  revert piece inSep. induction s as [|c s IH]; intros piece inSep Hsep; simpl.
  - by rewrite app_nil_r.
  - destruct (Js.is_alnum c) eqn:Hc; simpl.
    + rewrite IH by done.
      destruct (Spec.pieces _ s) as [|p ps]; [done|]. by rewrite <- app_assoc.
    + rewrite app_nil_r. destruct inSep.
      * rewrite (Hsep eq_refl). rewrite IH by done. simpl.
        destruct (Spec.pieces _ s) as [|p ps] eqn:E; [by destruct (pieces_nonempty _ _ E)|].
        done.
      * simpl. rewrite IH by done.
        destruct (Spec.pieces _ s) as [|p ps] eqn:E; [by destruct (pieces_nonempty _ _ E)|].
        done.
Qed.

Lemma splitNonAlnum_fragments text :
  List.filter Spec.nonEmpty (splitNonAlnum text) = Spec.fragments text.
Proof.
  unfold splitNonAlnum. rewrite splitNonAlnum_from_fragments by done.
  unfold Spec.fragments.
  destruct (Spec.pieces _ text) as [|p ps] eqn:E; [by destruct (pieces_nonempty _ _ E)|].
  done.
Qed.

Lemma lower_not_upper c : Js.is_upper c = true -> Js.is_lower c = false.
Proof.
  unfold Js.is_upper, Js.is_lower, Js.between.
  rewrite !andb_true_iff, !Nat.leb_le. intros [? ?].
  apply andb_false_iff. left. apply Nat.leb_gt. lia.
Qed.

Lemma camelReplace_upper c rest :
  Js.is_lower c = false -> camelReplace (c :: rest) = c :: camelReplace rest.
Proof. intros Hc. destruct rest as [|c' rest]; simpl; [done|]. by rewrite Hc. Qed.

Lemma camelReplace_cons c1 c2 rest :
  camelReplace (c1 :: c2 :: rest) =
  if Js.is_lower c1 && Js.is_upper c2
  then c1 :: " "%char :: camelReplace (c2 :: rest)
  else c1 :: camelReplace (c2 :: rest).
Proof.
  destruct (Js.is_lower c1 && Js.is_upper c2) eqn:Hb.
  - pose proof Hb as Hb'. apply andb_true_iff in Hb' as [_ Hu].
    rewrite (camelReplace_upper c2 rest (lower_not_upper _ Hu)).
    simpl. by rewrite Hb.
  - simpl. by rewrite Hb.
Qed.

Lemma subFragments_nonempty s : Spec.subFragments s <> [].
Proof.
  destruct s as [|c s]; simpl; [done|].
  destruct (Spec.subFragments s); [done|]. by destruct (_ && _).
Qed.

Lemma split_camelReplace token :
  Forall (fun c => c <> " "%char) token ->
  Js.split " "%char (camelReplace token) = Spec.subFragments token.
Proof.
  induction token as [|c1 token IH]; intros Hsp; [done|].
  inversion Hsp as [|? ? Hc1 Hrest]; subst.
  specialize (IH Hrest).
  destruct token as [|c2 rest].
  - simpl. rewrite bool_decide_eq_false_2 by done. by rewrite andb_false_r.
  - rewrite camelReplace_cons.
    cbn [Spec.subFragments] in *.
    destruct (Js.is_lower c1 && Js.is_upper c2) eqn:Hb.
    + cbn [Js.split]. rewrite bool_decide_eq_false_2 by done.
      rewrite bool_decide_eq_true_2 by done. rewrite IH.
      destruct (Spec.subFragments rest) as [|p ps] eqn:E;
        [by destruct (subFragments_nonempty _ E)|].
      by destruct (_ && _).
    + cbn [Js.split]. rewrite bool_decide_eq_false_2 by done. rewrite IH.
      destruct (Spec.subFragments rest) as [|p ps] eqn:E;
        [by destruct (subFragments_nonempty _ E)|].
      by destruct (_ && _).
Qed.

Lemma alnum_not_space c : Js.is_alnum c = true -> c <> " "%char.
Proof. intros H ->. vm_compute in H. done. Qed.

Lemma pushPart_fold parts tokens :
  fold_left pushPart parts tokens
  = tokens ++ List.filter Spec.survives (map Js.toLowerCase parts).
Proof.
  revert tokens. induction parts as [|p parts IH]; intros tokens; simpl.
  - by rewrite app_nil_r.
  - rewrite IH. unfold pushPart, Spec.survives, isStopWord.
    replace (2 <? length (Js.toLowerCase p))
      with (negb (length (Js.toLowerCase p) <=? 2))
      by (destruct (Nat.leb_spec (length (Js.toLowerCase p)) 2);
          destruct (Nat.ltb_spec 2 (length (Js.toLowerCase p))); simpl; lia).
    destruct (_ && _); [|done]. by rewrite <- app_assoc.
Qed.

Lemma pushToken_fold raw tokens :
  fold_left pushToken raw tokens
  = tokens ++ concat (map (fun token =>
                             List.filter Spec.survives
                               (map Js.toLowerCase
                                  (Js.split " "%char (camelReplace token))))
                        (List.filter Spec.nonEmpty raw)).
Proof.
  revert tokens. induction raw as [|t raw IH]; intros tokens; simpl.
  - by rewrite app_nil_r.
  - rewrite IH. unfold pushToken, Spec.nonEmpty.
    case_bool_decide; simpl; [done|].
    by rewrite pushPart_fold, <- app_assoc.
Qed.

Lemma tokenize_spec text : tokenize text = Spec.tokenize text.
Proof.
  unfold tokenize, Spec.tokenize.
  rewrite pushToken_fold, splitNonAlnum_fragments. simpl.
  pose proof (fragments_alnum text) as Hal.
  induction (Spec.fragments text) as [|f fs IH]; [done|].
  inversion Hal as [|? ? Hf Hfs]; subst. simpl.
  rewrite map_app, List.filter_app, <- (IH Hfs).
  rewrite split_camelReplace; [done|].
  eapply Forall_impl; [exact Hf|]. intros c. apply alnum_not_space.
Qed.

(** C6: [tokenize] splits its input on the runs of characters that are
    not letters or digits, cuts every fragment between a lowercase letter
    and the uppercase letter that follows it, lowercases the parts and keeps,
    in order and with repetitions, those that are longer than 2 and are not
    stop words; and ["GitLabCrawlerTest"] gives [git, lab, crawler, test]. *)
Theorem tokenize_splits_lowercases_filters :
  (forall text,
     tokenize text
     = List.filter (fun t => negb (length t <=? 2) && negb (isStopWord t))
         (map Js.toLowerCase
            (concat (map Spec.subFragments (Spec.fragments text)))))
  /\ tokenize (lit "GitLabCrawlerTest")
     = [lit "git"; lit "lab"; lit "crawler"; lit "test"].
Proof.
  split; [|vm_compute; reflexivity].
  intros text. apply tokenize_spec.
Qed.

(** ** Edit distance: the recurrence is the least number of edits *)

Section EditDistance.

Import Spec.

Lemma distance_nil_r s : distance s [] = length s.
Proof. by destruct s. Qed.

Lemma distance_cons c d s t :
  distance (c :: s) (d :: t) =
  if bool_decide (c = d) then distance s t
  else S (Nat.min (distance s t)
            (Nat.min (distance (c :: s) t) (distance s (d :: t)))).
Proof. reflexivity. Qed.

Lemma aligned_refl s : aligned s s 0.
Proof. induction s; by constructor. Qed.

Lemma aligned_nil_l t : aligned [] t (length t).
Proof. induction t; simpl; by constructor. Qed.

Lemma aligned_nil_r s : aligned s [] (length s).
Proof. induction s; simpl; by constructor. Qed.

(** The recurrence is reached by an alignment. *)
Lemma aligned_distance s t : aligned s t (distance s t).
Proof.
  revert t. induction s as [|c s IHs]; intros t.
  - apply aligned_nil_l.
  - induction t as [|d t IHt].
    + rewrite distance_nil_r. apply aligned_nil_r.
    + rewrite distance_cons. case_bool_decide as Hcd.
      * subst d. by constructor.
      * destruct (Nat.min_spec (distance s t)
                    (Nat.min (distance (c :: s) t) (distance s (d :: t))))
          as [[_ ->]|[_ ->]]; [by constructor|].
        destruct (Nat.min_spec (distance (c :: s) t) (distance s (d :: t)))
          as [[_ ->]|[_ ->]]; by constructor.
Qed.

Lemma aligned_sym s t n : aligned s t n -> aligned t s n.
Proof. induction 1; by constructor. Qed.

(** Dropping the first character of the source costs at most one more. *)
Lemma aligned_uncons_l c s u m :
  aligned (c :: s) u m -> exists m', m' <= S m /\ aligned s u m'.
Proof.
  intros H. remember (c :: s) as x eqn:Hx. revert c s Hx.
  induction H as [|c' s' t n H IH|c' d s' t n H IH|c' s' t n H IH|d s' t n H IH];
    intros c s Hx; try discriminate.
  - injection Hx as -> ->. exists (S n). split; [lia|by constructor].
  - injection Hx as -> ->. exists (S n). split; [lia|by constructor].
  - injection Hx as -> ->. exists n. split; [lia|done].
  - destruct (IH c s Hx) as (m' & Hm' & Ha).
    exists (S m'). split; [lia|by constructor].
Qed.

Lemma aligned_uncons_r d s t n :
  aligned s (d :: t) n -> exists m, m <= S n /\ aligned s t m.
Proof.
  intros H%aligned_sym. destruct (aligned_uncons_l _ _ _ _ H) as (m & Hm & Ha).
  exists m. split; [done|by apply aligned_sym].
Qed.

(** No alignment is cheaper than the recurrence. *)
Lemma distance_le_aligned s t n : aligned s t n -> distance s t <= n.
Proof.
  remember (length s + length t) as k eqn:Hk.
  revert s t n Hk. induction k as [k IH] using lt_wf_ind.
  intros s t n Hk H.
  assert (IH' : forall s' t' n', length s' + length t' < k ->
                  aligned s' t' n' -> distance s' t' <= n')
    by (intros s' t' n' Hlt Ha; exact (IH _ Hlt s' t' n' eq_refl Ha)).
  clear IH. subst k.
  destruct H as [|c s t n H|c d s t n H|c s t n H|d s t n H].
  - done.
  - rewrite distance_cons, bool_decide_eq_true_2 by done.
    apply IH'; [simpl; lia|done].
  - assert (distance s t <= n) by (apply IH'; [simpl; lia|done]).
    rewrite distance_cons. case_bool_decide; lia.
  - assert (Hd : distance s t <= n) by (apply IH'; [simpl; lia|done]).
    destruct t as [|d t].
    + rewrite distance_nil_r in *. simpl. lia.
    + rewrite distance_cons. case_bool_decide as Hcd; [|lia].
      subst d. destruct (aligned_uncons_r _ _ _ _ H) as (m & Hm & Ha).
      assert (distance s t <= m); [|lia].
      apply IH'; [simpl; lia|done].
  - assert (Hd : distance s t <= n) by (apply IH'; [simpl; lia|done]).
    destruct s as [|c s].
    + simpl in *. lia.
    + rewrite distance_cons. case_bool_decide as Hcd; [|lia].
      subst d. destruct (aligned_uncons_l _ _ _ _ H) as (m & Hm & Ha).
      assert (distance s t <= m); [|lia].
      apply IH'; [simpl; lia|done].
Qed.

(** Edits and alignments. *)
Lemma edits_cons c n s t : edits n s t -> edits n (c :: s) (c :: t).
Proof.
  induction 1 as [|n s t u Hst _ IH]; [constructor|].
  eapply edits_more; [apply further, Hst|exact IH].
Qed.

Lemma aligned_edits s t n : aligned s t n -> edits n s t.
Proof.
  induction 1 as [|c s t n _ IH|c d s t n _ IH|c s t n _ IH|d s t n _ IH].
  - constructor.
  - by apply edits_cons.
  - eapply edits_more; [apply (substitution c d)|by apply edits_cons].
  - eapply edits_more; [apply deletion|exact IH].
  - eapply edits_more; [apply (insertion d)|by apply edits_cons].
Qed.

Lemma aligned_after_substitution c d s u m :
  aligned (d :: s) u m -> exists m', m' <= S m /\ aligned (c :: s) u m'.
Proof.
  intros H. remember (d :: s) as x eqn:Hx. revert Hx.
  induction H as [|c' s' t n H IH|c' e s' t n H IH|c' s' t n H IH|e s' t n H IH];
    intros Hx; try discriminate.
  - injection Hx as -> ->. exists (S n). split; [lia|by constructor].
  - injection Hx as -> ->. exists (S n). split; [lia|by constructor].
  - injection Hx as -> ->. exists (S n). split; [lia|by constructor].
  - destruct (IH Hx) as (m' & Hm' & Ha).
    exists (S m'). split; [lia|by constructor].
Qed.

Lemma aligned_after_edit s t :
  edit s t ->
  forall u m, aligned t u m -> exists m', m' <= S m /\ aligned s u m'.
Proof.
  induction 1 as [c s|c s|c d s|c s t Hst IH]; intros u m H.
  - by apply (aligned_uncons_l c).
  - exists (S m). split; [lia|by constructor].
  - by apply (aligned_after_substitution c d).
  - remember (c :: t) as x eqn:Hx. revert Hx.
    induction H as [|c' s' t' n H IH'|c' e s' t' n H IH'|c' s' t' n H IH'|e s' t' n H IH'];
      intros Hx; try discriminate.
    + injection Hx as -> ->. destruct (IH _ _ H) as (m' & Hm' & Ha).
      exists m'. split; [lia|by constructor].
    + injection Hx as -> ->. destruct (IH _ _ H) as (m' & Hm' & Ha).
      exists (S m'). split; [lia|by constructor].
    + injection Hx as -> ->. destruct (IH _ _ H) as (m' & Hm' & Ha).
      exists (S m'). split; [lia|by constructor].
    + destruct (IH' Hx) as (m' & Hm' & Ha).
      exists (S m'). split; [lia|by constructor].
Qed.

Lemma edits_aligned n s t :
  edits n s t -> exists m, m <= n /\ aligned s t m.
Proof.
  induction 1 as [s|n s t u Hst _ (m & Hm & Ha)].
  - exists 0. split; [done|apply aligned_refl].
  - destruct (aligned_after_edit _ _ Hst _ _ Ha) as (m' & Hm' & Ha').
    exists m'. split; [lia|done].
Qed.

(** The recurrence computes the edit distance. *)
Lemma distance_editDistance a b : editDistance a b (distance a b).
Proof.
  split.
  - apply aligned_edits, aligned_distance.
  - intros n (m & Hm & Ha)%edits_aligned.
    apply distance_le_aligned in Ha. lia.
Qed.

End EditDistance.

(** ** levenshteinDistance fills its table with the recurrence *)

Section Reversal.

Import Spec.

Lemma aligned_snoc_keep c s t n :
  aligned s t n -> aligned (s ++ [c]) (t ++ [c]) n.
Proof. induction 1; simpl; by repeat constructor. Qed.

Lemma aligned_snoc_subst c d s t n :
  aligned s t n -> aligned (s ++ [c]) (t ++ [d]) (S n).
Proof. induction 1; simpl; by repeat constructor. Qed.

Lemma aligned_snoc_delete c s t n :
  aligned s t n -> aligned (s ++ [c]) t (S n).
Proof. induction 1; simpl; by repeat constructor. Qed.

Lemma aligned_snoc_insert d s t n :
  aligned s t n -> aligned s (t ++ [d]) (S n).
Proof. intros H. by apply aligned_sym, aligned_snoc_delete, aligned_sym. Qed.

Lemma aligned_rev s t n : aligned s t n -> aligned (rev s) (rev t) n.
Proof.
  induction 1; simpl.
  - constructor.
  - by apply aligned_snoc_keep.
  - by apply aligned_snoc_subst.
  - by apply aligned_snoc_delete.
  - by apply aligned_snoc_insert.
Qed.

Lemma distance_rev s t : distance (rev s) (rev t) = distance s t.
Proof.
  apply Nat.le_antisymm.
  - apply distance_le_aligned, aligned_rev, aligned_distance.
  - rewrite <- (rev_involutive s), <- (rev_involutive t) at 1.
    apply distance_le_aligned, aligned_rev, aligned_distance.
Qed.

(** The recurrence read from the ends of the strings, as the table of
    the source reads it. *)
Lemma distance_snoc c d s t :
  distance (s ++ [c]) (t ++ [d]) =
  if bool_decide (c = d) then distance s t
  else S (Nat.min (distance s t)
            (Nat.min (distance (s ++ [c]) t) (distance s (t ++ [d])))).
Proof.
  rewrite <- (distance_rev (s ++ [c]) (t ++ [d])), !rev_unit, distance_cons.
  rewrite <- (distance_rev s t), <- (distance_rev (s ++ [c]) t),
    <- (distance_rev s (t ++ [d])), !rev_unit.
  done.
Qed.

End Reversal.

Lemma lookup_map {A B} (f : A -> B) (l : list A) (i : nat) :
  map f l !! i = f <$> l !! i.
Proof. exact (list_lookup_fmap f l i). Qed.

Lemma arraySet_end {A} (xs : list A) (v : A) :
  arraySet xs (length xs) v = Some (xs ++ [v]).
Proof. unfold arraySet. by rewrite Nat.ltb_irrefl, Nat.eqb_refl. Qed.

Lemma matrixSet_first_row (row row' : list nat) rest j v :
  arraySet row j v = Some row' ->
  matrixSet (row :: rest) 0 j v = Some (row' :: rest).
Proof. intros H. unfold matrixSet. simpl. by rewrite H. Qed.

Section Table.

Variables a b : str.

Let la := length a.
Let lb := length b.

(** The cell in row [i] and column [j]: the distance between the first
    [j] characters of [a] and the first [i] characters of [b]. *)
Let D (i j : nat) : nat := Spec.distance (take j a) (take i b).

(** The table when the rows before [i0] are full, row [i0] is filled up
    to column [j0], and the rows after it hold their first cell. *)
Let cols (i0 j0 i : nat) : nat :=
  if i <? i0 then la + 1 else if i =? i0 then j0 + 1 else 1.

Let table (i0 j0 : nat) : list (list nat) :=
  map (fun i => map (D i) (seq 0 (cols i0 j0 i))) (seq 0 (lb + 1)).

Lemma table_row i0 j0 i :
  i <= lb -> table i0 j0 !! i = Some (map (D i) (seq 0 (cols i0 j0 i))).
Proof.
  intros Hi. unfold table. rewrite lookup_map, lookup_seq_lt by lia. done.
Qed.

Lemma table_get i0 j0 i j :
  i <= lb -> j < cols i0 j0 i -> matrixGet (table i0 j0) i j = Some (D i j).
Proof.
  intros Hi Hj. unfold matrixGet. rewrite table_row by done. simpl.
  rewrite lookup_map, lookup_seq_lt by lia. done.
Qed.

Lemma table_set i0 j0 :
  i0 <= lb ->
  matrixSet (table i0 j0) i0 (j0 + 1) (D i0 (j0 + 1)) = Some (table i0 (j0 + 1)).
Proof.
  intros Hi. unfold matrixSet. rewrite table_row by done. simpl.
  unfold arraySet. rewrite length_map, length_seq.
  assert (Hc : forall j, cols i0 j i0 = j + 1).
  { intros j. unfold cols. rewrite Nat.ltb_irrefl, Nat.eqb_refl. done. }
  rewrite !Hc.
  replace (j0 + 1 <? j0 + 1) with false by (symmetry; apply Nat.ltb_ge; lia).
  rewrite Nat.eqb_refl. simpl. f_equal.
  apply list_eq. intros i.
  destruct (decide (i = i0)) as [->|Hne].
  - rewrite list_lookup_insert_eq
      by (unfold table; rewrite length_map, length_seq; lia).
    rewrite table_row by done. rewrite Hc.
    replace (j0 + 1 + 1) with (S (j0 + 1)) by lia.
    rewrite seq_S, map_app. done.
  - rewrite list_lookup_insert_ne by done.
    unfold table. rewrite !lookup_map.
    destruct (seq 0 (lb + 1) !! i) as [i'|] eqn:E; [|done].
    apply lookup_seq in E as [-> _]. simpl.
    unfold cols. destruct (i <? i0); [done|].
    by rewrite (proj2 (Nat.eqb_neq i i0) Hne).
Qed.

Lemma D_step i j0 c d :
  a !! j0 = Some c -> b !! i = Some d ->
  D (S i) (j0 + 1) =
  if bool_decide (Some d = Some c) then D i j0
  else Nat.min (D i j0 + 1) (Nat.min (D (S i) j0 + 1) (D i (j0 + 1) + 1)).
Proof.
  intros Ha Hb. unfold D.
  replace (j0 + 1) with (S j0) by lia.
  rewrite (take_S_r a j0 c Ha), (take_S_r b i d Hb), distance_snoc.
  destruct (decide (c = d)) as [->|Hne].
  - by rewrite !bool_decide_eq_true_2.
  - rewrite !bool_decide_eq_false_2 by congruence. lia.
Qed.

Lemma levCell_table i j0 :
  1 <= i <= lb -> j0 < la ->
  levCell a b i (table i j0) (j0 + 1) = Some (table i (j0 + 1)).
Proof.
  intros Hi Hj. unfold levCell, charAt.
  replace (j0 + 1 - 1) with j0 by lia.
  destruct i as [|i]; [lia|]. replace (S i - 1) with i by lia.
  destruct (lookup_lt_is_Some_2 a j0 Hj) as [c Hc].
  destruct (lookup_lt_is_Some_2 b i ltac:(fold lb; lia)) as [d Hd].
  rewrite Hc, Hd.
  assert (Hlt : forall j, cols (S i) j i = la + 1).
  { intros j. unfold cols. by rewrite (proj2 (Nat.ltb_lt i (S i))) by lia. }
  assert (Heq : forall j, cols (S i) j (S i) = j + 1).
  { intros j. unfold cols. by rewrite Nat.ltb_irrefl, Nat.eqb_refl. }
  rewrite (table_get (S i) j0 i j0) by (rewrite ?Hlt; lia).
  rewrite (table_get (S i) j0 (S i) j0) by (rewrite ?Heq; lia).
  rewrite (table_get (S i) j0 i (j0 + 1)) by (rewrite ?Hlt; lia).
  simpl.
  pose proof (D_step i j0 c d Hc Hd) as Hstep.
  case_bool_decide; rewrite <- Hstep; apply table_set; lia.
Qed.

Lemma inner_loop i n : forall j0,
  1 <= i <= lb -> j0 + n = la ->
  forLoop (seq (j0 + 1) n) (levCell a b i) (table i j0) = Some (table i la).
Proof.
  induction n as [|n IH]; intros j0 Hi Hj; simpl.
  - by replace j0 with la by lia.
  - rewrite levCell_table by lia. simpl.
    replace (S (j0 + 1)) with (j0 + 1 + 1) by lia. apply IH; lia.
Qed.

Lemma table_next_row i0 : table i0 la = table (i0 + 1) 0.
Proof.
  unfold table. apply map_ext. intros i. f_equal. f_equal. unfold cols.
  destruct (Nat.ltb_spec i i0), (Nat.ltb_spec i (i0 + 1)),
    (Nat.eqb_spec i i0), (Nat.eqb_spec i (i0 + 1)); lia.
Qed.

Lemma outer_loop n : forall i0,
  i0 + n = lb ->
  forLoop (seq (i0 + 1) n)
    (fun matrix i => forLoop (seq 1 la) (levCell a b i) matrix)
    (table i0 la)
  = Some (table lb la).
Proof.
  induction n as [|n IH]; intros i0 Hi; simpl.
  - by replace i0 with lb by lia.
  - rewrite table_next_row.
    pose proof (inner_loop (i0 + 1) la 0 ltac:(lia) ltac:(lia)) as Hin.
    change (0 + 1) with 1 in Hin. rewrite Hin. simpl.
    replace (S (i0 + 1)) with (i0 + 1 + 1) by lia. apply IH; lia.
Qed.

Lemma init_rows n : forall k (matrix : list (list nat)),
  length matrix = k ->
  forLoop (seq k n) (fun matrix i => arraySet matrix i [i]) matrix
  = Some (matrix ++ map (fun i => [i]) (seq k n)).
Proof.
  induction n as [|n IH]; intros k matrix Hk; simpl.
  - by rewrite app_nil_r.
  - subst k. rewrite arraySet_end. simpl.
    rewrite IH by (rewrite length_app; simpl; lia).
    by rewrite <- app_assoc.
Qed.

Lemma init_first_row n : forall k (rest : list (list nat)),
  1 <= k ->
  forLoop (seq k n) (fun matrix j => matrixSet matrix 0 j j) (seq 0 k :: rest)
  = Some (seq 0 (k + n) :: rest).
Proof.
  induction n as [|n IH]; intros k rest Hk; simpl.
  - by rewrite Nat.add_0_r.
  - pose proof (arraySet_end (seq 0 k) k) as Hset.
    rewrite length_seq in Hset.
    rewrite (matrixSet_first_row _ _ rest k k Hset). simpl.
    replace (seq 0 k ++ [k]) with (seq 0 (S k)) by (by rewrite seq_S).
    rewrite IH by lia. do 3 f_equal. lia.
Qed.

Lemma D_row0 j : j <= la -> D 0 j = j.
Proof. intros Hj. unfold D. simpl. rewrite distance_nil_r, length_take. lia. Qed.

Lemma D_col0 i : i <= lb -> D i 0 = i.
Proof. intros Hi. unfold D. simpl. rewrite length_take. lia. Qed.

Lemma init_table :
  seq 0 (1 + la) :: map (fun i => [i]) (seq 1 lb) = table 0 la.
Proof.
  unfold table. replace (lb + 1) with (S lb) by lia. cbn [seq map]. f_equal.
  - unfold cols. cbn [Nat.ltb Nat.leb Nat.eqb]. replace (la + 1) with (1 + la) by lia.
    rewrite <- (List.map_id (seq 0 (1 + la))) at 1.
    apply List.map_ext_in. intros j Hj%in_seq. symmetry. apply D_row0. lia.
  - apply List.map_ext_in. intros i Hi%in_seq.
    unfold cols. destruct i as [|i]; [lia|]. cbn [Nat.ltb Nat.leb Nat.eqb seq map].
    f_equal. symmetry. apply D_col0. lia.
Qed.

(** The table never reads an empty cell, and its last cell is the
    recurrence on the whole strings. *)
Lemma levenshteinDistance_distance :
  levenshteinDistance a b = Some (Spec.distance a b).
Proof.
  unfold levenshteinDistance. fold la lb.
  destruct (Nat.eqb_spec la 0) as [Ha|Ha].
  { apply nil_length_inv in Ha. by rewrite Ha. }
  destruct (Nat.eqb_spec lb 0) as [Hb|Hb].
  { apply nil_length_inv in Hb. by rewrite Hb, distance_nil_r. }
  rewrite (init_rows (lb + 1) 0 []) by done. simpl.
  replace (lb + 1) with (S lb) by lia. replace (la + 1) with (S la) by lia.
  cbn [seq map forLoop].
  rewrite (matrixSet_first_row [0] [0] _ 0 0 eq_refl).
  cbn [mbind option_bind]. change [0] with (seq 0 1).
  rewrite (init_first_row la 1 (map (fun i => [i]) (seq 1 lb))) by lia.
  cbn [mbind option_bind].
  rewrite init_table.
  pose proof (outer_loop lb 0 ltac:(lia)) as Hout.
  change (0 + 1) with 1 in Hout. rewrite Hout. cbn [mbind option_bind].
  rewrite table_get.
  - unfold D. by rewrite !take_ge by (fold la lb; lia).
  - lia.
  - unfold cols. rewrite Nat.ltb_irrefl, Nat.eqb_refl. lia.
Qed.

End Table.

(** C7: [levenshteinDistance a b] returns the least number of insertions,
    deletions and substitutions of one character that turn [a] into [b];
    so the distance of "color" and "colour" is 1, the distance of the empty
    string and [s] is the length of [s], and a term and a token are a fuzzy
    match exactly when their edit distance is at most 2. *)
Theorem levenshteinDistance_is_edit_distance :
  (forall a b, exists d,
      levenshteinDistance a b = Some d /\ Spec.editDistance a b d)
  /\ levenshteinDistance (lit "color") (lit "colour") = Some 1
  /\ (forall s, levenshteinDistance [] s = Some (length s))
  /\ (forall term token,
        withinTwoEdits term token = true
        <-> exists d, Spec.editDistance term token d /\ d <= 2).
Proof.
  split; [|split; [|split]].
  - intros a b. exists (Spec.distance a b).
    split; [apply levenshteinDistance_distance|apply distance_editDistance].
  - vm_compute. reflexivity.
  - intros s. reflexivity.
  - intros term token. unfold withinTwoEdits.
    rewrite levenshteinDistance_distance.
    destruct (distance_editDistance term token) as [Hreach Hleast].
    split.
    + intros H%Nat.leb_le. exists (Spec.distance term token).
      split; [by split|done].
    + intros (d & [Hd _] & Hle). apply Nat.leb_le.
      specialize (Hleast d Hd). lia.
Qed.

(** ** Scoring *)

Ltac each_char c := destruct c as [[] [] [] [] [] [] [] []]; vm_compute; reflexivity.

Lemma toLowerChar_idem c : Js.toLowerChar (Js.toLowerChar c) = Js.toLowerChar c.
Proof. each_char c. Qed.

Lemma toLowerChar_canonicalize c : Js.toLowerChar (canonicalize c) = Js.toLowerChar c.
Proof. each_char c. Qed.

Lemma canonicalize_toLowerChar c : canonicalize (Js.toLowerChar c) = canonicalize c.
Proof. each_char c. Qed.

Lemma toLowerCase_idem s : Js.toLowerCase (Js.toLowerCase s) = Js.toLowerCase s.
Proof.
  unfold Js.toLowerCase. rewrite List.map_map. apply List.map_ext.
  apply toLowerChar_idem.
Qed.

(** The comparison of the regular expression, on lowercased content, is
    the comparison up to case. *)
Lemma canonical_sameLetter c t :
  bool_decide (canonicalize (Js.toLowerChar c) = canonicalize t)
  = Spec.sameLetter c t.
Proof.
  unfold Spec.sameLetter. apply bool_decide_ext.
  rewrite canonicalize_toLowerChar. split; intros H.
  - by rewrite <- (toLowerChar_canonicalize c), H, toLowerChar_canonicalize.
  - by rewrite <- (canonicalize_toLowerChar c), H, canonicalize_toLowerChar.
Qed.

Lemma matchesAt_lower term s :
  matchesAt term (Js.toLowerCase s) = Spec.occursAt term s.
Proof.
  revert s. induction term as [|t term IH]; intros [|c s]; simpl; try done.
  by rewrite canonical_sameLetter, IH.
Qed.

Lemma occurrencesFrom_drop term s : forall skip,
  Spec.occurrencesFrom skip term s = Spec.occurrencesFrom 0 term (drop skip s).
Proof.
  induction s as [|c s IH]; intros [|k]; simpl; done.
Qed.

Lemma regexMatches_occurrences term s :
  term <> [] ->
  length (regexMatches term (Js.toLowerCase s)) = Spec.occurrences term s.
Proof.
  intros Hterm. unfold Spec.occurrences.
  remember (length s) as n eqn:Hn. revert s Hn.
  induction n as [n IH] using lt_wf_ind. intros [|c s] Hn.
  - simpl. rewrite regexMatches_equation_1. by rewrite bool_decide_eq_false_2.
  - change (Js.toLowerCase (c :: s)) with (Js.toLowerChar c :: Js.toLowerCase s).
    rewrite regexMatches_equation_2.
    change (Js.toLowerChar c :: Js.toLowerCase s) with (Js.toLowerCase (c :: s)).
    rewrite matchesAt_lower. cbn [Spec.occurrencesFrom].
    destruct (Spec.occursAt term (c :: s)); simpl.
    + rewrite occurrencesFrom_drop. f_equal.
      unfold Js.toLowerCase. rewrite skipn_map.
      apply (IH (length (drop (length term - 1) s))); [|done].
      subst n. rewrite length_drop. simpl. lia.
    + apply (IH (length s)); [subst n; simpl; lia|done].
Qed.

Lemma withinTwoEdits_distance term token :
  withinTwoEdits term token = Spec.withinDistance 2 term token.
Proof. unfold withinTwoEdits. by rewrite levenshteinDistance_distance. Qed.

Lemma fuzzy_fold term tokens : forall termFreq matchType,
  fold_left (fun tm token =>
               if withinTwoEdits term token then (tm.1 + 1, Some fuzzy) else tm)
            tokens (termFreq, matchType)
  = (termFreq + length (List.filter (Spec.withinDistance 2 term) tokens),
     if 0 <? length (List.filter (Spec.withinDistance 2 term) tokens)
     then Some fuzzy else matchType).
Proof.
  induction tokens as [|t tokens IH]; intros termFreq matchType; simpl.
  - by rewrite Nat.add_0_r.
  - rewrite withinTwoEdits_distance.
    destruct (Spec.withinDistance 2 term t); simpl.
    + rewrite IH. f_equal; [lia|]. by destruct (0 <? _).
    + apply IH.
Qed.

Lemma termMatch_spec chunk term :
  term <> [] ->
  termMatch chunk term
  = (Spec.termFreq term chunk,
     if 0 <? Spec.termFreq term chunk then Some (Spec.kindOf term chunk) else None).
Proof.
  intros Hterm. unfold termMatch, Spec.termFreq, Spec.kindOf.
  pose proof (regexMatches_occurrences term (content chunk) Hterm) as Hlen.
  cbv zeta. destruct (regexMatches term (Js.toLowerCase (content chunk))) as [|m ms].
  - simpl in Hlen. rewrite <- Hlen. simpl.
    rewrite fuzzy_fold, tokenize_spec. simpl. by destruct (0 <? _).
  - rewrite <- Hlen. simpl. done.
Qed.

(** What [tokenize] returns: words of more than two characters that
    [toLowerCase] leaves as they are. *)
Lemma tokenize_tokens text t :
  t ∈ tokenize text -> t <> [] /\ Js.toLowerCase t = t.
Proof.
  rewrite tokenize_spec. unfold Spec.tokenize.
  intros Ht%list_elem_of_In. apply List.filter_In in Ht as [Hin Hs].
  apply List.in_map_iff in Hin as (part & <- & _).
  split; [|apply toLowerCase_idem].
  intros Hnil. unfold Spec.survives in Hs. by rewrite Hnil in Hs.
Qed.

Lemma subFragments_concat s : concat (Spec.subFragments s) = s.
Proof.
  induction s as [|c s IH]; simpl; [done|].
  destruct (Spec.subFragments s) as [|part parts] eqn:E;
    [by destruct (subFragments_nonempty _ E)|].
  simpl in IH. destruct (_ && _); simpl; by rewrite IH.
Qed.

Lemma toLowerChar_alnum c :
  Js.is_alnum c = true ->
  Js.is_lower (Js.toLowerChar c) || Js.is_digit (Js.toLowerChar c) = true.
Proof. destruct c as [[] [] [] [] [] [] [] []]; vm_compute; done. Qed.

(** A token is made of lowercase letters and digits, so that the regular
    expression [new RegExp(term, 'gi')] that [search] builds from a query
    term has no special character and matches the term itself. *)
Lemma tokenize_letters_digits text t :
  t ∈ tokenize text ->
  Forall (fun c => Js.is_lower c || Js.is_digit c = true) t.
Proof.
  rewrite tokenize_spec. unfold Spec.tokenize.
  intros Ht%list_elem_of_In. apply List.filter_In in Ht as [Hin _].
  apply List.in_map_iff in Hin as (part & <- & Hpart).
  apply in_concat in Hpart as (parts & Hparts & Hpart).
  apply List.in_map_iff in Hparts as (f & <- & Hf).
  pose proof (fragments_alnum text) as Hal. rewrite Forall_forall in Hal.
  specialize (Hal f (proj2 (list_elem_of_In _ _) Hf)).
  rewrite <- (subFragments_concat f) in Hal.
  apply Forall_concat in Hal. rewrite Forall_forall in Hal.
  specialize (Hal part (proj2 (list_elem_of_In _ _) Hpart)).
  unfold Js.toLowerCase. apply Forall_fmap.
  eapply Forall_impl; [exact Hal|]. intros c. apply toLowerChar_alnum.
Qed.

Section Scoring.

Variable Math_log : float -> float.
Variable pid : option str.
Variable allChunks : list DocumentChunk.
Variable queryTerms : list str.
Variable c : DocumentChunk.

Let idf' := idfOf Math_log allChunks queryTerms.
Let avg := avgDocLength allChunks.

(** The entries of [matchDetails] for the terms [ts]. *)
Let details (ts : list str) : list MatchDetail :=
  map (fun t => {| term := t; matchType := Some (Spec.kindOf t c) |})
    (List.filter (fun t => 0 <? Spec.termFreq t c) ts).

Lemma scoreTerm_fold ts : forall s md,
  Forall (fun t => t <> []) ts ->
  fold_left (scoreTerm Math_log allChunks queryTerms c) ts (s, md)
  = (fold_left (Spec.addTerm idf' avg c) ts s, md ++ details ts).
Proof.
  induction ts as [|t ts IH]; intros s md Hts; simpl.
  - by rewrite app_nil_r.
  - inversion Hts as [|? ? Ht Hrest]; subst.
    unfold scoreTerm at 2. rewrite (termMatch_spec c t Ht).
    unfold Spec.addTerm at 2. subst details. cbv beta zeta.
    simpl List.filter.
    destruct (0 <? Spec.termFreq t c) eqn:Htf.
    + rewrite IH by done. simpl. by rewrite <- app_assoc.
    + by rewrite IH.
Qed.

Lemma titleLower_spec : titleLower c = Js.toLowerCase (Spec.titleOf c).
Proof. unfold titleLower, Spec.titleOf. by destruct (title (metadata c)). Qed.

Lemma boostTitle_fold ts : forall s,
  Forall (fun t => Js.toLowerCase t = t) ts ->
  fold_left (boostTitle c) ts s = fold_left (Spec.addTitle c) ts s.
Proof.
  induction ts as [|t ts IH]; intros s Hts; simpl; [done|].
  inversion Hts as [|? ? Ht Hrest]; subst.
  rewrite <- IH by done. f_equal.
  unfold boostTitle, Spec.addTitle, Spec.inTitle.
  by rewrite titleLower_spec, Ht.
Qed.

Lemma boost_spec :
  pid <> Some [] ->
  truthy pid && bool_decide (Some (projectIdOf c) = pid) = Spec.belongs pid c.
Proof.
  intros Hpid. unfold truthy, Spec.belongs. destruct pid as [p|]; [|done].
  rewrite bool_decide_eq_false_2 by congruence. simpl.
  apply bool_decide_ext. split; congruence.
Qed.

Hypothesis tokens : exists query, queryTerms = tokenize query.

Lemma queryTerms_tokens :
  Forall (fun t => t <> []) queryTerms
  /\ Forall (fun t => Js.toLowerCase t = t) queryTerms.
Proof.
  destruct tokens as [query ->].
  split; apply Forall_forall; intros t Ht; by apply (tokenize_tokens query).
Qed.

Lemma scoreChunk_spec :
  scoreChunk Math_log pid allChunks queryTerms c
  = {| chunk := c;
       score := if truthy pid && bool_decide (Some (projectIdOf c) = pid)
                then (fold_left (Spec.addTitle c) queryTerms
                        (fold_left (Spec.addTerm idf' avg c) queryTerms 0)
                      * 1.5)%float
                else fold_left (Spec.addTitle c) queryTerms
                       (fold_left (Spec.addTerm idf' avg c) queryTerms 0%float);
       matchDetails := details queryTerms |}.
Proof.
  destruct queryTerms_tokens as [Hne Hlow].
  unfold scoreChunk. rewrite scoreTerm_fold by done.
  by rewrite boostTitle_fold.
Qed.

End Scoring.

(** The results of a search are scored candidates with a positive score. *)
Lemma elem_of_insertByScore x y xs :
  x ∈ insertByScore y xs <-> x = y \/ x ∈ xs.
Proof.
  induction xs as [|z xs IH]; simpl.
  - rewrite list_elem_of_singleton, elem_of_nil. tauto.
  - destruct (PrimFloat.ltb _ _); rewrite !elem_of_cons, ?IH, ?elem_of_cons; tauto.
Qed.

Lemma elem_of_sortByScore x xs : x ∈ sortByScore xs <-> x ∈ xs.
Proof.
  induction xs as [|y xs IH]; simpl; [done|].
  by rewrite elem_of_insertByScore, elem_of_cons, IH.
Qed.

Lemma elem_of_slice0 {A} (x : A) xs n : x ∈ Js.slice0 xs n -> x ∈ xs.
Proof. unfold Js.slice0. apply subseteq_take. Qed.

Lemma rank_results Math_log pid allChunks queryTerms limit r :
  r ∈ rank Math_log pid allChunks queryTerms limit ->
  exists c, c ∈ allChunks
    /\ r = scoreChunk Math_log pid allChunks queryTerms c
    /\ PrimFloat.ltb 0 (score r) = true.
Proof.
  unfold rank. intros Hr%elem_of_slice0.
  apply (proj1 (elem_of_sortByScore _ _)), list_elem_of_In in Hr.
  apply List.filter_In in Hr as [Hin Hpos].
  apply List.in_map_iff in Hin as (c & <- & Hc%list_elem_of_In).
  by exists c.
Qed.

Lemma search_results Math_log pid query limit st r :
  r ∈ (search Math_log pid query limit st).2 ->
  exists c, c ∈ (collect pid st).2
    /\ r = scoreChunk Math_log pid (collect pid st).2 (tokenize query) c
    /\ PrimFloat.ltb 0 (score r) = true.
Proof.
  unfold search. destruct (collect pid st) as [st' allChunks]. simpl.
  destruct (length allChunks =? 0); simpl; [by intros ?%elem_of_nil|].
  destruct (length (tokenize query) =? 0); simpl; [by intros ?%elem_of_nil|].
  apply rank_results.
Qed.
(** C2: the score that [search] gives a candidate chunk is the reference
    score: for every query term in turn the contribution
    [idf * tf * (k1 + 1) / (tf + k1 * (1 - b + b * docLength / avgDocLength))]
    when its term frequency [tf] is positive ([tf] being the number of
    exact occurrences up to case when there is one, otherwise the number of
    tokens of the content within two edits of the term), then 2.0 for every
    query term that occurs in the title up to case, and at the end a factor
    1.5 when the chunk belongs to the collection that was asked for.  The
    collection id of a query is not the empty string. *)
Theorem score_is_reference_score Math_log pid query :
  pid <> Some [] ->
  let queryTerms := tokenize query in
  (forall allChunks c,
     score (scoreChunk Math_log pid allChunks queryTerms c)
     = Spec.score (idfOf Math_log allChunks queryTerms) (avgDocLength allChunks)
         pid queryTerms c)
  /\ (forall limit st r,
        r ∈ (search Math_log pid query limit st).2 ->
        score r
        = Spec.score (idfOf Math_log (collect pid st).2 queryTerms)
            (avgDocLength (collect pid st).2) pid queryTerms (chunk r)).
Proof.
  intros Hpid queryTerms.
  assert (Hall : forall allChunks c,
             score (scoreChunk Math_log pid allChunks queryTerms c)
             = Spec.score (idfOf Math_log allChunks queryTerms)
                 (avgDocLength allChunks) pid queryTerms c).
  { intros allChunks c.
    rewrite scoreChunk_spec by (by exists query).
    unfold Spec.score. cbn [score]. by rewrite boost_spec. }
  split; [exact Hall|].
  intros limit st r (c & _ & -> & _)%search_results.
  rewrite Hall. f_equal.
  by rewrite scoreChunk_spec by (by exists query).
Qed.

Lemma score_is_reference_score_witness :
  Some (lit "C") <> Some []
  /\ let queryTerms := tokenize (lit "search engine") in
     (forall allChunks c,
        score (scoreChunk Examples.Math_log (Some (lit "C")) allChunks queryTerms c)
        = Spec.score (idfOf Examples.Math_log allChunks queryTerms)
            (avgDocLength allChunks) (Some (lit "C")) queryTerms c)
     /\ (forall limit st r,
           r ∈ (search Examples.Math_log (Some (lit "C")) (lit "search engine")
                  limit st).2 ->
           score r
           = Spec.score
               (idfOf Examples.Math_log (collect (Some (lit "C")) st).2 queryTerms)
               (avgDocLength (collect (Some (lit "C")) st).2)
               (Some (lit "C")) queryTerms (chunk r)).
Proof.
  split; [discriminate|].
  apply (score_is_reference_score Examples.Math_log (Some (lit "C"))
           (lit "search engine")).
  discriminate.
Defined.

(** C10: in every result of [search], the entries of [matchDetails] are,
    in the order of the query, the query terms whose term frequency in the
    chunk is positive; every entry is of type exact or fuzzy (never
    semantic, never without type), and a query term that matches nowhere in
    the chunk has no entry. *)
Theorem matchDetails_exact_or_fuzzy Math_log pid query limit st r :
  r ∈ (search Math_log pid query limit st).2 ->
  map term (matchDetails r)
  = List.filter (fun t => 0 <? Spec.termFreq t (chunk r)) (tokenize query)
  /\ (forall m, m ∈ matchDetails r ->
        (matchType m = Some exact \/ matchType m = Some fuzzy)
        /\ term m ∈ tokenize query
        /\ 0 < Spec.termFreq (term m) (chunk r))
  /\ (forall t, t ∈ tokenize query -> Spec.termFreq t (chunk r) = 0 ->
        forall m, m ∈ matchDetails r -> term m <> t).
Proof.
  intros (c & _ & -> & _)%search_results.
  rewrite scoreChunk_spec by (by exists query). cbn [matchDetails chunk].
  assert (Hentries : forall m,
             m ∈ map (fun t => {| term := t; matchType := Some (Spec.kindOf t c) |})
                   (List.filter (fun t => 0 <? Spec.termFreq t c) (tokenize query)) ->
             (matchType m = Some exact \/ matchType m = Some fuzzy)
             /\ term m ∈ tokenize query
             /\ 0 < Spec.termFreq (term m) c).
  { intros m Hm%list_elem_of_In. apply List.in_map_iff in Hm as (t & <- & Ht).
    apply List.filter_In in Ht as [Hin Hpos]. simpl.
    split; [unfold Spec.kindOf; destruct (1 <=? _); auto|].
    split; [by apply list_elem_of_In|by apply Nat.ltb_lt]. }
  split; [|split].
  - rewrite List.map_map. simpl. apply List.map_id.
  - exact Hentries.
  - intros t _ Hzero m Hm Heq. destruct (Hentries m Hm) as (_ & _ & Hpos).
    rewrite Heq in Hpos. lia.
Qed.

Lemma matchDetails_exact_or_fuzzy_witness :
  exists r,
    head (search Examples.Math_log (Some (lit "C")) (lit "search engine") 5
            Examples.indexedC).2 = Some r
    /\ r ∈ (search Examples.Math_log (Some (lit "C")) (lit "search engine") 5
              Examples.indexedC).2
    /\ map term (matchDetails r)
       = List.filter (fun t => 0 <? Spec.termFreq t (chunk r))
           (tokenize (lit "search engine"))
    /\ (forall m, m ∈ matchDetails r ->
          (matchType m = Some exact \/ matchType m = Some fuzzy)
          /\ term m ∈ tokenize (lit "search engine")
          /\ 0 < Spec.termFreq (term m) (chunk r))
    /\ (forall t, t ∈ tokenize (lit "search engine") ->
          Spec.termFreq t (chunk r) = 0 ->
          forall m, m ∈ matchDetails r -> term m <> t).
Proof.
  destruct (head (search Examples.Math_log (Some (lit "C")) (lit "search engine") 5
                    Examples.indexedC).2)
    as [r|] eqn:E; [|vm_compute in E; discriminate].
  exists r. split; [reflexivity|].
  assert (Hin : r ∈ (search Examples.Math_log (Some (lit "C"))
                       (lit "search engine") 5 Examples.indexedC).2).
  { apply head_Some_elem_of. exact E. }
  split; [exact Hin|].
  exact (matchDetails_exact_or_fuzzy Examples.Math_log (Some (lit "C"))
           (lit "search engine") 5 Examples.indexedC r Hin).
Defined.

(** ** The index: indexing, clearing, loading and the candidates *)

Lemma search_state Math_log pid query limit st :
  (search Math_log pid query limit st).1 = (collect pid st).1.
Proof.
  unfold search. destruct (collect pid st) as [st' allChunks]. simpl.
  destruct (length allChunks =? 0); [done|].
  by destruct (length (tokenize query) =? 0).
Qed.






Lemma Map_get_set {V} k (v : V) m : Map_get k (Map_set k v m) = Some v.
Proof.
  induction m as [|[k' v'] m IH]; simpl.
  - by rewrite bool_decide_eq_true_2.
  - case_bool_decide as Hk; simpl.
    + by rewrite bool_decide_eq_true_2.
    + by rewrite bool_decide_eq_false_2.
Qed.

Lemma Map_get_delete {V} k (m : list (str * V)) : Map_get k (Map_delete k m) = None.
Proof.
  induction m as [|[k' v'] m IH]; simpl; [done|].
  case_bool_decide as Hk; simpl; [done|].
  by rewrite bool_decide_eq_false_2.
Qed.

Lemma Map_set_fresh {V} k (v : V) m :
  k ∉ map fst m -> Map_set k v m = m ++ [(k, v)].
Proof.
  induction m as [|[k' v'] m IH]; simpl; [done|].
  intros Hk. apply not_elem_of_cons in Hk as [Hne Hk].
  rewrite bool_decide_eq_false_2 by congruence. by rewrite IH.
Qed.

(** [indexProject] maps the project to the array it is given and touches
    no array; [clearIndex] removes the project. *)
Lemma indexProject_maps p r writable st :
  Map_get p (index (indexProject p r writable st)) = Some r
  /\ heap (indexProject p r writable st) = heap st.
Proof.
  unfold indexProject, saveIndex, writeFileSync.
  destruct writable; simpl; by rewrite Map_get_set.
Qed.

Lemma clearIndex_removes p writable st :
  Map_get p (index (clearIndex p writable st)) = None
  /\ heap (clearIndex p writable st) = heap st.
Proof.
  unfold clearIndex, saveIndex, writeFileSync.
  destruct writable; simpl; by rewrite Map_get_delete.
Qed.

(** Loading a snapshot with distinct keys. *)
Lemma new_Map_fold es : forall st,
  NoDup (map fst es) ->
  (forall k, k ∈ map fst es -> k ∉ map fst (index st)) ->
  let st' := fold_left (fun st kv =>
                          let '(r, st') := alloc kv.2 st in
                          setIndex (Map_set kv.1 r (index st')) st') es st in
  heap st' = heap st ++ map snd es
  /\ index st' = index st ++ zip (map fst es) (seq (length (heap st)) (length es))
  /\ disk st' = disk st /\ console st' = console st.
Proof.
  induction es as [|[k v] es IH]; intros st Hnd Hfresh; simpl.
  - by rewrite !app_nil_r.
  - inversion Hnd as [|? ? Hk Hnd']; subst.
    rewrite Map_set_fresh by (apply Hfresh; simpl; left).
    match goal with |- context [fold_left ?f es ?s] =>
      destruct (IH s Hnd') as (Hh & Hi & Hd & Hc) end.
    { intros k' Hk'. simpl. rewrite map_app. simpl.
      rewrite elem_of_app, list_elem_of_singleton. intros [Hin| ->]; [|done].
      apply (Hfresh k'); [simpl; by right|done]. }
    simpl in Hh, Hi, Hd, Hc. rewrite Hh, Hi, Hd, Hc.
    rewrite length_app. simpl.
    rewrite <- !app_assoc. simpl.
    replace (length (heap st) + 1) with (S (length (heap st))) by lia.
    done.
Qed.

Lemma entries_loaded (es : list (str * list DocumentChunk)) : forall pre,
  map (fun kr : str * nat => (kr.1, default [] ((pre ++ map snd es) !! kr.2)))
    (zip (map fst es) (seq (length pre) (length es)))
  = es.
Proof.
  induction es as [|[k v] es IH]; intros pre; simpl; [done|].
  rewrite list_lookup_middle by done. simpl. f_equal.
  specialize (IH (pre ++ [v])). rewrite length_app in IH. simpl in IH.
  replace (length pre + 1) with (S (length pre)) in IH by lia.
  rewrite <- app_assoc in IH. exact IH.
Qed.

Lemma new_valid es :
  NoDup (map fst es) -> entries (new (Some (Entries es))) = es.
Proof.
  intros Hnd. unfold new, loadIndex. simpl.
  match goal with |- context [fold_left ?f es ?s] =>
    destruct (new_Map_fold es s Hnd) as (Hh & Hi & _) end.
  { intros k _. simpl. apply not_elem_of_nil. }
  simpl in Hh, Hi. unfold entries, deref. simpl. rewrite Hh, Hi.
  apply (entries_loaded es []).
Qed.


(** With a known project, the candidates are its chunks and then the
    chunks of the other collections; and the array of the project in the
    index has become that list. *)
Lemma push_push r xs ys st : push r ys (push r xs st) = push r (xs ++ ys) st.
Proof.
  unfold push, setHeap. simpl. f_equal. rewrite list_alter_alter_eq.
  apply list_alter_ext; [|done]. intros old _. simpl. by rewrite <- app_assoc.
Qed.

Lemma push_nil r st : push r [] st = st.
Proof.
  unfold push, setHeap. destruct st as [h ix d c]. simpl. f_equal.
  apply list_alter_id. intros old. apply app_nil_r.
Qed.

Lemma deref_push_ne r r' xs st : r <> r' -> deref (push r xs st) r' = deref st r'.
Proof. intros Hne. unfold deref, push. simpl. by rewrite list_lookup_alter_ne. Qed.

Lemma deref_push r xs st :
  r < length (heap st) -> deref (push r xs st) r = deref st r ++ xs.
Proof.
  intros Hr. unfold deref, push. simpl. rewrite list_lookup_alter_eq.
  destruct (lookup_lt_is_Some_2 _ _ Hr) as [old ->]. done.
Qed.

Lemma collect_fold p r (ix : list (str * nat)) : forall st,
  (forall kr, kr ∈ ix -> kr.1 <> p -> kr.2 <> r) ->
  fold_left (fun st pc =>
               if negb (bool_decide (Some pc.1 = Some p))
               then push r (deref st pc.2) st else st) ix st
  = push r (concat (map (fun kr => deref st kr.2)
                      (List.filter (fun kr => negb (bool_decide (kr.1 = p))) ix))) st.
Proof.
  induction ix as [|kr ix IH]; intros st Hix; simpl.
  - by rewrite push_nil.
  - assert (Hrest : forall kr', kr' ∈ ix -> kr'.1 <> p -> kr'.2 <> r)
      by (intros kr' Hin; apply Hix; by right).
    destruct (decide (kr.1 = p)) as [Hp|Hp].
    + rewrite (bool_decide_eq_true_2 (Some kr.1 = Some p)) by congruence.
      rewrite (bool_decide_eq_true_2 (kr.1 = p)) by done. simpl. by apply IH.
    + rewrite (bool_decide_eq_false_2 (Some kr.1 = Some p)) by congruence.
      rewrite (bool_decide_eq_false_2 (kr.1 = p)) by done. simpl.
      rewrite IH by done. rewrite push_push. do 2 f_equal.
      f_equal. apply List.map_ext_in. intros kr' [Hin Hne]%List.filter_In.
      apply deref_push_ne. intros Heq. symmetry in Heq. revert Heq.
      apply Hrest; [by apply list_elem_of_In|].
      intros Hk. by rewrite Hk, bool_decide_eq_true_2 in Hne.
Qed.

Lemma Map_get_elem_of {V} k (v : V) m : Map_get k m = Some v -> (k, v) ∈ m.
Proof.
  induction m as [|[k' v'] m IH]; simpl; [done|].
  case_bool_decide as Hk.
  - intros [= ->]. subst. left.
  - intros H. right. by apply IH.
Qed.

Lemma NoDup_snd_key {K V} (l : list (K * V)) a b v :
  NoDup (map snd l) -> (a, v) ∈ l -> (b, v) ∈ l -> a = b.
Proof.
  induction l as [|[k w] l IH]; simpl; [by intros _ ?%elem_of_nil|].
  intros Hnd Ha Hb. inversion Hnd as [|? ? Hw Hnd']; subst.
  assert (Hnot : forall c, (c, w) ∈ l -> False).
  { intros c Hc. apply Hw. apply list_elem_of_In, List.in_map_iff.
    exists (c, w). split; [done|by apply list_elem_of_In]. }
  apply elem_of_cons in Ha as [Ha|Ha]; apply elem_of_cons in Hb as [Hb|Hb].
  - congruence.
  - injection Ha as -> ->. by destruct (Hnot b).
  - injection Hb as -> ->. by destruct (Hnot a).
  - by apply IH.
Qed.

Lemma collect_known p r st :
  p <> [] -> Map_get p (index st) = Some r ->
  NoDup (map snd (index st)) -> r < length (heap st) ->
  collect (Some p) st
  = (push r (Spec.otherChunks p st) st, deref st r ++ Spec.otherChunks p st).
Proof.
  intros Hp Hget Hnd Hr. unfold collect, knownProject, truthy.
  rewrite bool_decide_eq_false_2 by done. simpl. rewrite Hget.
  rewrite collect_fold.
  - assert (Hoth : concat (map (fun kr : str * nat => deref st kr.2)
                             (List.filter (fun kr => negb (bool_decide (kr.1 = p)))
                                (index st)))
                   = Spec.otherChunks p st).
    { unfold Spec.otherChunks, entries. f_equal.
      generalize (index st). intros ix.
      induction ix as [|kr ix IH]; simpl; [done|].
      destruct (bool_decide (kr.1 = p)); simpl; by rewrite IH. }
    rewrite Hoth. by rewrite deref_push.
  - intros [k r'] Hin Hk Heq. simpl in *. subst r'.
    apply Hk. apply (NoDup_snd_key (index st) k p r Hnd Hin).
    by apply Map_get_elem_of.
Qed.


(** C1 (failing input): with the projects A and B indexed, a search that
    names the known project A pushes the chunks of B onto the array that
    the index holds for A, whatever the query: after the call A maps to
    [a1; b1] and no longer to [a1].  The index is not left unchanged. *)
Theorem search_known_project_grows_its_collection Math_log query limit :
  entries Examples.indexedAB
  = [(lit "A", [Examples.a1]); (lit "B", [Examples.b1])]
  /\ entries (search Math_log (Some (lit "A")) query limit Examples.indexedAB).1
     = [(lit "A", [Examples.a1; Examples.b1]); (lit "B", [Examples.b1])].
Proof.
  split; [vm_compute; reflexivity|].
  rewrite search_state. vm_compute. reflexivity.
Qed.

(** C8 (failing input): index A with [a1] and B with [b1], search once in
    project B, then re-index A with [a2]: A maps to exactly [a2], and yet a
    search in all collections returns [a1], which the search in B had
    pushed onto the array of B.  The same after [clearIndex("A")] instead
    of the re-indexing: A is gone from the index and [a1] is still found. *)
Theorem stale_chunk_survives_reindex_and_clear Math_log :
  Spec.chunksOf (lit "A") Examples.reindexedA = Some [Examples.a2]
  /\ (Examples.a1 ∉ [Examples.a2])
  /\ Examples.a1
     ∈ map chunk (search Math_log None (lit "widget") 5 Examples.reindexedA).2
  /\ Spec.chunksOf (lit "A") Examples.clearedA = None
  /\ Examples.a1
     ∈ map chunk (search Math_log None (lit "widget") 5 Examples.clearedA).2.
Proof.
  split; [vm_compute; reflexivity|].
  split; [intros H%list_elem_of_singleton; discriminate H|].
  split; [vm_compute; apply list_elem_of_here|].
  split; [vm_compute; reflexivity|].
  vm_compute. apply list_elem_of_here.
Qed.


Lemma scoreChunk_no_terms Math_log pid allChunks c :
  PrimFloat.ltb 0 (score (scoreChunk Math_log pid allChunks [] c)) = false.
Proof. unfold scoreChunk. simpl. by destruct (_ && _). Qed.

Lemma filter_none {A} (f : A -> bool) (l : list A) :
  (forall x, x ∈ l -> f x = false) -> List.filter f l = [].
Proof.
  induction l as [|x l IH]; intros H; simpl; [done|].
  rewrite (H x) by left. apply IH. intros y Hy. apply H. by right.
Qed.

Lemma search_rank Math_log pid query limit st :
  (search Math_log pid query limit st).2
  = rank Math_log pid (collect pid st).2 (tokenize query) limit.
Proof.
  unfold search. destruct (collect pid st) as [st' allChunks]. cbn [snd].
  destruct allChunks as [|c allChunks].
  - simpl. unfold rank. simpl. by destruct limit.
  - cbn [length Nat.eqb]. destruct (tokenize query) as [|t ts] eqn:E.
    + simpl. unfold rank.
      rewrite filter_none; [by destruct limit|].
      intros r (c' & -> & _)%list_elem_of_fmap. apply scoreChunk_no_terms.
    + done.
Qed.






(** ** The definitions at work *)

Example heading_lines :
  map is_heading
    [lit "# Title"; lit "### Deep"; lit "#### Deeper"; lit "#Title";
     lit " # Title"; lit "##" ++ [ascii_of_nat 9] ++ lit "Tab"]
  = [true; true; false; false; false; true].
Proof. vm_compute. reflexivity. Qed.

Example markdown_sections :
  map (fun c => (title (metadata c), Spec.span c))
    (chunkDocument (lit "group/project") (lit "GUIDE.MD")
       (lit "preface" ++ [LF] ++ lit "# Install  " ++ [LF] ++ lit "run it"
        ++ [LF] ++ lit "## Usage" ++ [LF] ++ lit "#### not a section"))
  = [(Some (lit "Introduction"), (Some 1, Some 1));
     (Some (lit "Install"), (Some 2, Some 3));
     (Some (lit "Usage"), (Some 4, Some 5))].
Proof. vm_compute. reflexivity. Qed.

Example code_windows_91_lines :
  map Spec.span
    (chunkDocument (lit "group/project") (lit "src/main.ts")
       (concat (replicate 90 (lit "x;" ++ [LF]))))
  = [(Some 1, Some 50); (Some 41, Some 90); (Some 81, Some 91)].
Proof. vm_compute. reflexivity. Qed.

Example long_text_is_cut :
  map (fun c => (length (content c), Spec.span c))
    (chunkDocument (lit "group/project") (lit "LICENSE")
       (concat (replicate 2010 (lit "abcd" ++ [LF]))))
  = [(10000, (Some 1, Some 2011))].
Proof. vm_compute. reflexivity. Qed.

Example tokenize_identifiers :
  tokenize (lit "the quick_brownFox--is aXMLParser a1B2 default")
  = [lit "quick"; lit "brown"; lit "fox"; lit "xmlparser"; lit "a1b2"].
Proof. vm_compute. reflexivity. Qed.

Example split_keeps_outer_pieces :
  splitNonAlnum (lit "--a--") = [[]; lit "a"; []].
Proof. vm_compute. reflexivity. Qed.

Example matches_do_not_overlap :
  regexMatches (lit "aba") (lit "ababaxabaaba") = [lit "aba"; lit "aba"; lit "aba"]
  /\ Spec.occurrences (lit "aaa") (lit "AAAAA") = 1.
Proof. split; vm_compute; reflexivity. Qed.

Example kitten_sitting :
  levenshteinDistance (lit "kitten") (lit "sitting") = Some 3.
Proof. vm_compute. reflexivity. Qed.

Example ranked_search :
  map (fun r => (id (chunk r), matchDetails r))
    (search Examples.Math_log (Some (lit "C")) (lit "search engine") 5
       Examples.indexedC).2
  = [(lit "C:README.md:1",
      [{| term := lit "search"; matchType := Some exact |};
       {| term := lit "engine"; matchType := Some exact |}]);
     (lit "C:README.md:9",
      [{| term := lit "search"; matchType := Some fuzzy |};
       {| term := lit "engine"; matchType := Some fuzzy |}])].
Proof. vm_compute. reflexivity. Qed.

(** * Further properties *)

(** ** Lists of lines *)

Lemma join_snoc sep (parts : list str) x :
  Js.join sep (parts ++ [x])
  = match parts with [] => x | _ :: _ => Js.join sep parts ++ sep ++ x end.
Proof.
  induction parts as [|p parts IH]; [done|].
  destruct parts as [|q parts]; [done|].
  change (Js.join sep ((p :: q :: parts) ++ [x]))
    with (p ++ sep ++ Js.join sep ((q :: parts) ++ [x])).
  rewrite IH. change (Js.join sep (p :: q :: parts))
    with (p ++ sep ++ Js.join sep (q :: parts)).
  by rewrite <- !app_assoc.
Qed.

Lemma join_app sep (xs ys : list str) :
  xs <> [] -> ys <> [] ->
  Js.join sep (xs ++ ys) = Js.join sep xs ++ sep ++ Js.join sep ys.
Proof.
  intros Hx Hy. induction xs as [|x xs IH]; [done|].
  destruct xs as [|x' xs].
  - simpl. by destruct ys.
  - change (Js.join sep ((x :: x' :: xs) ++ ys))
      with (x ++ sep ++ Js.join sep ((x' :: xs) ++ ys)).
    rewrite IH by done.
    change (Js.join sep (x :: x' :: xs)) with (x ++ sep ++ Js.join sep (x' :: xs)).
    by rewrite <- !app_assoc.
Qed.

Lemma slice_prefix {A} (xs ys : list A) from to :
  to <= length xs -> Js.slice (xs ++ ys) from to = Js.slice xs from to.
Proof.
  intros Hto. unfold Js.slice.
  destruct (decide (from <= length xs)) as [Hf|Hf].
  - rewrite drop_app_le by done. rewrite take_app_le; [done|].
    rewrite length_drop. lia.
  - replace (to - from) with 0 by lia. by rewrite !take_0.
Qed.

Lemma slice_whole_tail {A} (xs : list A) from :
  Js.slice xs from (length xs) = drop from xs.
Proof. unfold Js.slice. apply take_ge. rewrite length_drop. lia. Qed.

Lemma slice_split {A} (xs : list A) a b c :
  a <= b -> b <= c ->
  Js.slice xs a c = Js.slice xs a b ++ Js.slice xs b c.
Proof.
  intros Hab Hbc. unfold Js.slice.
  replace (c - a) with ((b - a) + (c - b)) by lia.
  rewrite <- take_take_drop, drop_drop.
  by replace (a + (b - a)) with b by lia.
Qed.

(** ** The markdown strategy: every chunk is the section of its span *)

Lemma tiles_snoc from spans s e :
  Shape.tiles from spans (s - 1) -> 1 <= s -> s <= e ->
  Shape.tiles from (spans ++ [(s, e)]) e.
Proof.
  revert from. induction spans as [|[s' e'] spans IH]; intros from; simpl.
  - intros Hf Hs He. split; [lia|done].
  - intros (-> & Hle & Ht) Hs He. split; [done|]. split; [done|]. by apply IH.
Qed.

Lemma tiles_bounds from spans to :
  Shape.tiles from spans to ->
  Forall (fun se : nat * nat => from <= se.1 /\ se.1 <= se.2 /\ se.2 <= to) spans
  /\ from <= S to.
Proof.
  revert from. induction spans as [|[s e] spans IH]; intros from; simpl.
  - intros ->. split; [constructor|done].
  - intros (-> & Hle & Ht). destruct (IH _ Ht) as [Hall Hto].
    split; [|lia]. constructor; [simpl; lia|].
    eapply Forall_impl; [exact Hall|]. intros [s' e']; simpl. lia.
Qed.

Lemma sectionChunk_prefix pid path (pre more : list str) se :
  1 <= se.1 -> se.1 <= se.2 -> se.2 <= length pre ->
  Shape.sectionChunk pid path (pre ++ more) se = Shape.sectionChunk pid path pre se.
Proof.
  intros H1 H2 H3. unfold Shape.sectionChunk, Shape.linesBetween.
  rewrite slice_prefix by done. rewrite lookup_app_l by lia. done.
Qed.

Section MarkdownSections.

Variables pid path : str.

Let run (pre : list str) : MdState :=
  fold_left (mdStep pid path) (indexed pre) mdInit.

Let spans (st : MdState) : list (nat * nat) := map Shape.spanOf (chunks st).

Lemma sections_invariant pre :
  chunks (run pre) = map (Shape.sectionChunk pid path pre) (spans (run pre))
  /\ Shape.tiles 1 (spans (run pre)) (mdStartLine (run pre) - 1)
  /\ (pre = [] -> run pre = mdInit)
  /\ (pre <> [] ->
      1 <= mdStartLine (run pre) <= length pre
      /\ currentChunkLines (run pre) = drop (mdStartLine (run pre) - 1) pre
      /\ currentTitle (run pre)
         = Shape.sectionTitle (default [] (pre !! (mdStartLine (run pre) - 1)))).
Proof.
  induction pre as [|line pre IH] using rev_ind.
  - repeat split; done.
  - destruct IH as (IH1 & IH2 & IH3 & IH4).
    assert (Hrun : run (pre ++ [line]) = mdStep pid path (run pre) (length pre, line))
      by apply run_snoc.
    rewrite Hrun. clear Hrun.
    destruct (tiles_bounds _ _ _ IH2) as [Hb Hstart].
    assert (Hext : map (Shape.sectionChunk pid path (pre ++ [line])) (spans (run pre))
                   = chunks (run pre)).
    { etransitivity; [|symmetry; exact IH1]. apply map_ext_Forall.
      destruct (decide (pre = [])) as [->|Hne].
      - rewrite (IH3 eq_refl). constructor.
      - destruct (IH4 Hne) as ((? & ?) & _).
        eapply Forall_impl; [exact Hb|]. intros se (? & ? & ?).
        apply sectionChunk_prefix; lia. }
    unfold mdStep.
    destruct (is_heading line) eqn:Hh;
      cbn [chunks currentChunkLines currentTitle mdStartLine].
    + assert (Hflush :
        flush pid path (run pre) (length pre)
        = map (Shape.sectionChunk pid path (pre ++ [line]))
            (map Shape.spanOf (flush pid path (run pre) (length pre)))
        /\ Shape.tiles 1 (map Shape.spanOf (flush pid path (run pre) (length pre)))
             (length pre)).
      { unfold flush. destruct (decide (pre = [])) as [->|Hne].
        - rewrite (IH3 eq_refl). simpl. done.
        - destruct (IH4 Hne) as ((Hs1 & Hs2) & Hcur & Htitle).
          assert (Hpos : 0 <? length (currentChunkLines (run pre)) = true).
          { apply Nat.ltb_lt. rewrite Hcur, length_drop. lia. }
          rewrite Hpos. rewrite !map_app. fold (spans (run pre)).
          rewrite Hext. split.
          + f_equal. simpl. unfold Shape.spanOf at 1. simpl.
            rewrite (sectionChunk_prefix pid path pre [line]) by (simpl; lia).
            unfold mdChunk, Shape.sectionChunk, Shape.linesBetween. simpl.
            rewrite slice_whole_tail, Hcur, Htitle. done.
          + apply (tiles_snoc 1 _ (mdStartLine (run pre)) (length pre)); [done|lia|lia]. }
      destruct Hflush as [Hf1 Hf2].
      split; [exact Hf1|]. split; [by replace (length pre + 1 - 1) with (length pre) by lia|].
      split; [by destruct pre|]. intros _.
      rewrite length_app. simpl.
      replace (length pre + 1 - 1) with (length pre) by lia.
      split; [lia|]. split.
      * by rewrite drop_app_length.
      * rewrite list_lookup_middle by done. simpl.
        unfold Shape.sectionTitle. by rewrite Hh.
    + split; [symmetry; exact Hext|]. split; [exact IH2|]. split; [by destruct pre|]. intros _.
      rewrite length_app. simpl.
      destruct (decide (pre = [])) as [->|Hne].
      * rewrite (IH3 eq_refl). simpl. split; [lia|]. split; [done|].
        unfold Shape.sectionTitle. by rewrite Hh.
      * destruct (IH4 Hne) as ((Hs1 & Hs2) & Hcur & Htitle).
        split; [lia|]. split.
        -- rewrite Hcur. rewrite drop_app_le by lia. done.
        -- rewrite Htitle. by rewrite lookup_app_l by lia.
Qed.

Lemma chunkMarkdown_sections doc :
  let lines := Js.split LF doc in
  let chunks := chunkMarkdown pid path doc in
  chunks = map (Shape.sectionChunk pid path lines) (map Shape.spanOf chunks)
  /\ Shape.tiles 1 (map Shape.spanOf chunks) (length lines).
Proof.
  intros lines chunks. subst chunks. unfold chunkMarkdown. cbv zeta.
  fold lines. fold (run lines).
  assert (Hne : lines <> []) by apply split_nonempty.
  destruct (sections_invariant lines) as (H1 & H2 & _ & H4).
  destruct (H4 Hne) as ((Hs1 & Hs2) & Hcur & Htitle).
  unfold flush.
  assert (Hpos : 0 <? length (currentChunkLines (run lines)) = true).
  { apply Nat.ltb_lt. rewrite Hcur, length_drop. lia. }
  rewrite Hpos, !map_app. fold (spans (run lines)). rewrite <- H1. split.
  - f_equal. simpl. unfold mdChunk, Shape.sectionChunk, Shape.linesBetween. simpl.
    rewrite slice_whole_tail, Hcur, Htitle. done.
  - apply (tiles_snoc 1 _ (mdStartLine (run lines)) (length lines)); [done|lia|lia].
Qed.

End MarkdownSections.

Lemma tiles_join lines : forall spans from to,
  Shape.tiles from spans to -> spans <> [] -> 1 <= from -> to <= length lines ->
  Js.join [LF] (map (fun se : nat * nat => Shape.linesBetween lines se.1 se.2) spans)
  = Js.join [LF] (Js.slice lines (from - 1) to).
Proof.
  induction spans as [|[s e] spans IH]; intros from to Ht Hne Hfrom Hto; [done|].
  destruct Ht as (-> & Hse & Ht).
  destruct spans as [|[s' e'] spans].
  - simpl in Ht. assert (e = to) as -> by lia. done.
  - destruct (tiles_bounds _ _ _ Ht) as [Hb _].
    apply Forall_cons_1 in Hb as [(Hs' & Hse' & He') _]. simpl in Hs', Hse', He'.
    rewrite (slice_split lines (from - 1) e to) by lia.
    rewrite join_app.
    + pose proof (IH (S e) to Ht ltac:(done) ltac:(lia) Hto) as IH'.
      replace (S e - 1) with e in IH' by lia. rewrite <- IH'. done.
    + intros Hnil. apply (f_equal length) in Hnil. unfold Js.slice in Hnil.
      rewrite length_take, length_drop in Hnil. simpl in Hnil. lia.
    + intros Hnil. apply (f_equal length) in Hnil. unfold Js.slice in Hnil.
      rewrite length_take, length_drop in Hnil. simpl in Hnil. lia.
Qed.

Lemma tiles_starts_NoDup spans : forall from to,
  Shape.tiles from spans to -> NoDup (map fst spans).
Proof.
  induction spans as [|[s e] spans IH]; intros from to Ht; [constructor|].
  destruct Ht as (-> & Hse & Ht). simpl. constructor; [|by eapply IH].
  destruct (tiles_bounds _ _ _ Ht) as [Hb _].
  intros (se & Heq & Hin)%list_elem_of_fmap.
  rewrite Forall_forall in Hb. specialize (Hb se Hin). lia.
Qed.

(** ** The code strategy in closed form *)

Lemma windowCount_one n : n <= 50 -> Shape.windowCount n = 1.
Proof. intros Hn. unfold Shape.windowCount. rewrite Nat.div_small; lia. Qed.

Lemma windowCount_step n : 50 < n -> Shape.windowCount n = S (Shape.windowCount (n - 40)).
Proof.
  intros Hn. unfold Shape.windowCount.
  replace (n - 11) with ((n - 40 - 11) + 1 * 40) by lia.
  rewrite Nat.div_add by lia. lia.
Qed.

Lemma codeChunk_windowChunk pid path lines i e :
  codeChunk pid path lines i e = Shape.windowChunk pid path lines (i + 1, e).
Proof.
  unfold codeChunk, Shape.windowChunk, Shape.linesBetween. simpl.
  by replace (i + 1 - 1) with i by lia.
Qed.

Lemma codeLoop_windows pid path lines i :
  i < length lines ->
  codeLoop pid path lines i []
  = map (fun k => Shape.windowChunk pid path lines
                    (i + 40 * k + 1, Nat.min (i + 40 * k + 50) (length lines)))
      (seq 0 (Shape.windowCount (length lines - i))).
Proof.
  remember (length lines - i) as m eqn:Hm.
  revert i Hm. induction m as [m IH] using lt_wf_ind. intros i Hm Hi.
  rewrite codeLoop_equation_1. rewrite decide_True by done. cbv zeta.
  unfold CHUNK_SIZE, OVERLAP. destruct (decide (_ = _)) as [He|He].
  - rewrite windowCount_one by lia. cbn [seq map app].
    rewrite codeChunk_windowChunk. do 3 f_equal; lia.
  - rewrite windowCount_step by lia. rewrite codeLoop_acc.
    rewrite (IH (length lines - (i + (50 - 10)))) by lia.
    replace (length lines - (i + (50 - 10))) with (m - 40) by lia.
    rewrite <- cons_seq, <- fmap_S_seq. rewrite map_cons. cbn [app].
    rewrite codeChunk_windowChunk. f_equal; [do 3 f_equal; lia|].
    rewrite map_map. apply map_ext. intros k.
    do 3 f_equal; lia.
Qed.

Lemma chunkCode_windows pid path doc :
  chunkCode pid path doc
  = map (Shape.windowChunk pid path (Js.split LF doc))
      (Shape.windowSpans (length (Js.split LF doc))).
Proof.
  unfold chunkCode, Shape.windowSpans.
  assert (Hne : 0 < length (Js.split LF doc)).
  { pose proof (split_nonempty LF doc). destruct (Js.split LF doc); [done|simpl; lia]. }
  rewrite codeLoop_windows by done. rewrite Nat.sub_0_r.
  rewrite map_map. apply map_ext. intros k. done.
Qed.

Lemma windowSpans_bounds n se :
  1 <= n -> se ∈ Shape.windowSpans n -> 1 <= se.1 /\ se.1 <= se.2 /\ se.2 <= n.
Proof.
  intros Hn (k & -> & Hk)%list_elem_of_fmap. apply elem_of_seq in Hk. cbn [fst snd].
  unfold Shape.windowCount in Hk.
  pose proof (Nat.div_mod_eq (n - 11) 40).
  pose proof (Nat.mod_upper_bound (n - 11) 40). lia.
Qed.

Lemma windowSpans_cover n line :
  1 <= line <= n ->
  exists se, se ∈ Shape.windowSpans n /\ se.1 <= line <= se.2.
Proof.
  intros Hline. exists (40 * ((line - 11) / 40) + 1,
                        Nat.min (40 * ((line - 11) / 40) + 50) n).
  pose proof (Nat.div_mod_eq (line - 11) 40).
  pose proof (Nat.mod_upper_bound (line - 11) 40).
  split; [|cbn [fst snd]; lia].
  apply list_elem_of_fmap. exists ((line - 11) / 40). split; [done|].
  apply elem_of_seq. unfold Shape.windowCount.
  assert ((line - 11) / 40 <= (n - 11) / 40) by (apply Nat.Div0.div_le_mono; lia).
  lia.
Qed.

(** ** Chunk identifiers *)

Lemma lit_inj (s t : string) : lit s = lit t -> s = t.
Proof.
  intros H. unfold lit in H.
  rewrite <- (string_of_list_ascii_of_string s), <- (string_of_list_ascii_of_string t).
  by rewrite H.
Qed.

Lemma toString_inj n m : Js.toString n = Js.toString m -> n = m.
Proof.
  intros H%lit_inj.
  assert (Hnil : forall k, Nat.to_uint k <> Decimal.Nil).
  { intros k Hk. pose proof (Unsigned.of_to k) as Hof. rewrite Hk in Hof.
    simpl in Hof. subst k. done. }
  pose proof (NilZero.usu _ (Hnil n)) as Hn.
  pose proof (NilZero.usu _ (Hnil m)) as Hm'.
  rewrite H, Hm' in Hn. injection Hn as Hn.
  rewrite <- (Unsigned.of_to n), <- (Unsigned.of_to m). by rewrite Hn.
Qed.

Lemma chunkId_inj pid path n m : chunkId pid path n = chunkId pid path m -> n = m.
Proof.
  unfold chunkId. intros H.
  repeat apply app_inv_head in H. by apply toString_inj.
Qed.

(** ** What every chunk of a document carries *)

Lemma tiles_cover spans : forall from to n,
  Shape.tiles from spans to -> from <= n <= to ->
  exists se, se ∈ spans /\ se.1 <= n <= se.2.
Proof.
  induction spans as [|[s e] spans IH]; intros from to n Ht Hn.
  - simpl in Ht. lia.
  - destruct Ht as (-> & Hse & Ht).
    destruct (decide (n <= e)) as [Hle|Hgt].
    + exists (from, e). split; [left|simpl; lia].
    + destruct (IH (S e) to n Ht ltac:(lia)) as (se & Hin & Hb).
      exists se. split; [by right|done].
Qed.

Lemma spanOf_sectionChunk pid path lines se :
  Shape.spanOf (Shape.sectionChunk pid path lines se) = se.
Proof. by destruct se. Qed.

Lemma spanOf_windowChunk pid path lines se :
  Shape.spanOf (Shape.windowChunk pid path lines se) = se.
Proof. by destruct se. Qed.

Lemma lineCount_split doc : Spec.lineCount doc = length (Js.split LF doc).
Proof. unfold Spec.lineCount. by rewrite split_length. Qed.

Lemma chunkMarkdown_tagged pid path doc :
  Forall (Shape.tagged pid path doc markdown) (chunkMarkdown pid path doc).
Proof.
  destruct (chunkMarkdown_sections pid path doc) as [Heq Ht].
  cbv zeta in Heq, Ht. rewrite Heq.
  destruct (tiles_bounds _ _ _ Ht) as [Hb _].
  rewrite Forall_forall in Hb. apply Forall_forall.
  intros c (se & -> & Hin)%list_elem_of_fmap.
  specialize (Hb se Hin). unfold Shape.tagged. rewrite lineCount_split.
  repeat split. exists se.1, se.2. repeat split; lia.
Qed.

Lemma chunkCode_tagged pid path doc :
  Forall (Shape.tagged pid path doc code) (chunkCode pid path doc).
Proof.
  rewrite chunkCode_windows. apply Forall_forall.
  intros c (se & -> & Hin)%list_elem_of_fmap.
  assert (Hn : 1 <= length (Js.split LF doc)).
  { pose proof (split_nonempty LF doc). destruct (Js.split LF doc); [done|simpl; lia]. }
  pose proof (windowSpans_bounds _ _ Hn Hin). unfold Shape.tagged.
  rewrite lineCount_split. repeat split. exists se.1, se.2. repeat split; lia.
Qed.

Lemma chunkText_tagged pid path doc :
  Forall (Shape.tagged pid path doc text) (chunkText pid path doc).
Proof.
  apply Forall_singleton. unfold Shape.tagged. rewrite lineCount_split.
  repeat split. exists 1, (length (Js.split LF doc)).
  assert (Hn : 1 <= length (Js.split LF doc)).
  { pose proof (split_nonempty LF doc). destruct (Js.split LF doc); [done|simpl; lia]. }
  repeat split; lia.
Qed.

Lemma tagged_ids_NoDup pid path doc kind chunks :
  Forall (Shape.tagged pid path doc kind) chunks ->
  NoDup (map (fun c => (Shape.spanOf c).1) chunks) ->
  NoDup (map id chunks).
Proof.
  intros Htag Hnd. induction chunks as [|c chunks IH]; [constructor|].
  apply Forall_cons_1 in Htag as [Hc Htag]. apply NoDup_cons in Hnd as [Hnotin Hnd].
  simpl. constructor; [|by apply IH].
  intros (c' & Hid & Hin)%list_elem_of_fmap. apply Hnotin.
  apply list_elem_of_fmap. exists c'. split; [|done].
  rewrite Forall_forall in Htag. specialize (Htag c' Hin).
  destruct Hc as (_ & _ & _ & s & e & Hspan & _ & _ & _ & Hids).
  destruct Htag as (_ & _ & _ & s' & e' & Hspan' & _ & _ & _ & Hids').
  rewrite Hids, Hids' in Hid. apply chunkId_inj in Hid. subst s'.
  unfold Shape.spanOf. unfold Spec.span in Hspan, Hspan'.
  injection Hspan as -> _. injection Hspan' as -> _. done.
Qed.

Lemma chunkDocument_covers pid path doc line :
  1 <= line <= Spec.lineCount doc ->
  exists c, c ∈ chunkDocument pid path doc /\ Shape.covers c line.
Proof.
  rewrite lineCount_split. intros Hline. rewrite chunkDocument_dispatch.
  destruct (Spec.strategy path).
  - destruct (chunkMarkdown_sections pid path doc) as [Heq Ht].
    cbv zeta in Heq, Ht.
    destruct (tiles_cover _ _ _ line Ht Hline) as (se & Hin & Hb).
    apply list_elem_of_fmap in Hin as (c & -> & Hin).
    exists c. split; [done|]. exact Hb.
  - rewrite chunkCode_windows.
    destruct (windowSpans_cover _ line Hline) as (se & Hin & Hb).
    exists (Shape.windowChunk pid path (Js.split LF doc) se). split.
    + apply list_elem_of_fmap. by exists se.
    + unfold Shape.covers. by rewrite spanOf_windowChunk.
  - eexists. split; [left|]. unfold Shape.covers, Shape.spanOf. simpl. lia.
Qed.

(** X1: the chunks of a markdown document are the sections of their line
    spans: with [lines] the lines of the document, a chunk with the span
    [(s, e)] has as content the lines [s] to [e] joined by line feeds, as
    title the trimmed text after the marker of line [s] when that line is a
    heading and "Introduction" otherwise, and the identifier made of the
    project, the path and [s]; the spans tile the document: the first
    starts at line 1, each next one starts on the line after the end of
    the one before, none is empty, and the last ends at the last line. *)
Theorem chunkMarkdown_sections_tile_document pid path doc :
  let lines := Js.split LF doc in
  let chunks := chunkMarkdown pid path doc in
  chunks = map (Shape.sectionChunk pid path lines) (map Shape.spanOf chunks)
  /\ Shape.tiles 1 (map Shape.spanOf chunks) (length lines).
Proof. apply chunkMarkdown_sections. Qed.

(** X2: no character of a markdown document is lost or repeated by the
    chunking: the contents of its chunks, joined by line feeds, are the
    document. *)
Theorem chunkMarkdown_contents_rebuild_document pid path doc :
  Js.join [LF] (map content (chunkMarkdown pid path doc)) = doc.
Proof.
  destruct (chunkMarkdown_sections pid path doc) as [Heq Ht].
  cbv zeta in Heq, Ht. rewrite Heq, map_map.
  change (fun x => content (Shape.sectionChunk pid path (Js.split LF doc) x))
    with (fun se : nat * nat => Shape.linesBetween (Js.split LF doc) se.1 se.2).
  assert (Hne : map Shape.spanOf (chunkMarkdown pid path doc) <> []).
  { intros Hnil. rewrite Hnil in Ht. simpl in Ht.
    pose proof (split_nonempty LF doc). destruct (Js.split LF doc); [done|].
    simpl in Ht. lia. }
  rewrite (tiles_join _ _ 1 _ Ht Hne) by lia.
  change (1 - 1) with 0. rewrite slice_whole_tail. apply join_split.
Qed.

(** X3: the windows of a code document in closed form: a document of [N]
    lines gives [1 + (N - 11) / 40] chunks (integer division, and 0 for
    [N < 11]); the chunk number [k], from 0, spans the lines [40 k + 1] to
    [min (40 k + 50) N], its content is these lines joined by line feeds,
    it has no title and its identifier is made of the project, the path and
    its first line. *)
Theorem chunkCode_windows_closed_form pid path doc :
  let lines := Js.split LF doc in
  chunkCode pid path doc
  = map (Shape.windowChunk pid path lines) (Shape.windowSpans (length lines))
  /\ length (chunkCode pid path doc) = Shape.windowCount (length lines).
Proof.
  cbv zeta. split; [apply chunkCode_windows|].
  rewrite chunkCode_windows. unfold Shape.windowSpans.
  by rewrite !length_map, length_seq.
Qed.

(** X4: whatever the strategy, every line of the document lies in the span
    of some chunk. *)
Theorem chunkDocument_covers_every_line pid path doc line :
  1 <= line <= Spec.lineCount doc ->
  exists c, c ∈ chunkDocument pid path doc /\ Shape.covers c line.
Proof. apply chunkDocument_covers. Qed.

Lemma chunkDocument_covers_every_line_witness :
  1 <= 2 <= Spec.lineCount (lit "# Title" ++ [LF] ++ lit "body")
  /\ exists c,
       c ∈ chunkDocument (lit "group/project") (lit "README.md")
             (lit "# Title" ++ [LF] ++ lit "body")
       /\ Shape.covers c 2.
Proof.
  assert (H : 1 <= 2 <= Spec.lineCount (lit "# Title" ++ [LF] ++ lit "body"))
    by (vm_compute; lia).
  split; [exact H|].
  exact (chunkDocument_covers_every_line (lit "group/project") (lit "README.md")
           (lit "# Title" ++ [LF] ++ lit "body") 2 H).
Defined.

Lemma chunkDocument_chunks_tagged pid path doc :
  chunkDocument pid path doc <> []
  /\ Forall (Shape.tagged pid path doc (Spec.strategy path)) (chunkDocument pid path doc).
Proof.
  assert (Hn : 1 <= Spec.lineCount doc <= Spec.lineCount doc)
    by (unfold Spec.lineCount; lia).
  split.
  - destruct (chunkDocument_covers pid path doc _ Hn) as (c & Hin & _).
    intros Hnil. rewrite Hnil in Hin. by apply elem_of_nil in Hin.
  - rewrite chunkDocument_dispatch. destruct (Spec.strategy path).
    + apply chunkMarkdown_tagged.
    + apply chunkCode_tagged.
    + apply chunkText_tagged.
Qed.

(** X5: a document always gives at least one chunk, and every chunk carries
    the project and the path it was made for, the type of the strategy of
    the path, a span [(s, e)] with [1 <= s <= e <= N] for the [N] lines of
    the document, and the identifier made of the project, the path and
    [s]. *)
Theorem chunkDocument_chunks_are_tagged pid path doc :
  chunkDocument pid path doc <> []
  /\ Forall (Shape.tagged pid path doc (Spec.strategy path)) (chunkDocument pid path doc).
Proof. apply chunkDocument_chunks_tagged. Qed.

Lemma windowSpans_starts_NoDup n : NoDup (map fst (Shape.windowSpans n)).
Proof.
  unfold Shape.windowSpans. rewrite map_map. cbn [fst].
  apply NoDup_fmap_2_strong; [|apply NoDup_seq].
  intros j k _ _ Hjk. lia.
Qed.

(** X6: no two chunks of a document have the same identifier. *)
Theorem chunkDocument_ids_are_unique pid path doc :
  NoDup (map id (chunkDocument pid path doc)).
Proof.
  destruct (chunkDocument_chunks_tagged pid path doc) as [_ Htag].
  apply (tagged_ids_NoDup _ _ _ _ _ Htag).
  rewrite chunkDocument_dispatch. destruct (Spec.strategy path).
  - destruct (chunkMarkdown_sections pid path doc) as [_ Ht]. cbv zeta in Ht.
    apply tiles_starts_NoDup in Ht. by rewrite map_map in Ht.
  - rewrite chunkCode_windows, map_map.
    pose proof (windowSpans_starts_NoDup (length (Js.split LF doc))) as Hnd.
    erewrite map_ext; [exact Hnd|]. intros se. by rewrite spanOf_windowChunk.
  - apply NoDup_singleton.
Qed.

(** ** Tokens *)

Lemma pieces_app_sep sep a c b :
  sep c = true ->
  Spec.pieces sep (a ++ c :: b) = Spec.pieces sep a ++ Spec.pieces sep b.
Proof.
  intros Hc. induction a as [|x a IH]; simpl.
  - by rewrite Hc.
  - rewrite IH. destruct (sep x); [done|].
    destruct (Spec.pieces sep a) as [|p ps] eqn:E; [by destruct (pieces_nonempty sep a)|].
    done.
Qed.

Lemma tokenize_app_sep a c b :
  Js.is_alnum c = false -> tokenize (a ++ c :: b) = tokenize a ++ tokenize b.
Proof.
  intros Hc. rewrite !tokenize_spec. unfold Spec.tokenize, Spec.fragments.
  rewrite (pieces_app_sep _ a c b) by (by rewrite Hc).
  by rewrite List.filter_app, map_app, concat_app, map_app, List.filter_app.
Qed.

Lemma pieces_one sep s :
  Forall (fun c => sep c = false) s -> Spec.pieces sep s = [s].
Proof.
  induction 1 as [|c s Hc _ IH]; simpl; [done|]. by rewrite Hc, IH.
Qed.

Lemma lower_digit_alnum c :
  Js.is_lower c || Js.is_digit c = true -> Js.is_alnum c = true.
Proof. unfold Js.is_alnum. destruct (Js.is_lower c), (Js.is_upper c); done. Qed.

Lemma lower_digit_not_upper c :
  Js.is_lower c || Js.is_digit c = true -> Js.is_upper c = false.
Proof. destruct c as [[] [] [] [] [] [] [] []]; vm_compute; done. Qed.

Lemma lower_digit_toLowerChar c :
  Js.is_lower c || Js.is_digit c = true -> Js.toLowerChar c = c.
Proof. destruct c as [[] [] [] [] [] [] [] []]; vm_compute; done. Qed.

Lemma subFragments_one s :
  Forall (fun c => Js.is_upper c = false) s -> Spec.subFragments s = [s].
Proof.
  induction 1 as [|c s Hc Hs IH]; [done|].
  cbn [Spec.subFragments]. rewrite IH.
  destruct Hs as [|c' s' Hc' _]; [by rewrite andb_false_r|].
  by rewrite Hc', andb_false_r.
Qed.

(** What [tokenize] lets through. *)
Lemma survives_spec t :
  Spec.survives t = (2 <? length t) && negb (isStopWord t).
Proof.
  unfold Spec.survives, isStopWord. f_equal.
  destruct (Nat.leb_spec (length t) 2), (Nat.ltb_spec 2 (length t)); (done || lia).
Qed.

Lemma tokenize_one t :
  Forall (fun c => Js.is_lower c || Js.is_digit c = true) t ->
  tokenize t = if Spec.survives t then [t] else [].
Proof.
  intros Ht. rewrite tokenize_spec. unfold Spec.tokenize, Spec.fragments.
  rewrite pieces_one.
  2:{ eapply Forall_impl; [exact Ht|]. intros c Hc.
      by rewrite (lower_digit_alnum c Hc). }
  destruct t as [|c t]; [done|].
  assert (Hne : Spec.nonEmpty (c :: t) = true)
    by (unfold Spec.nonEmpty; by rewrite bool_decide_false).
  cbn [List.filter]. rewrite Hne.
  cbn [map concat]. rewrite subFragments_one.
  2:{ eapply Forall_impl; [exact Ht|]. apply lower_digit_not_upper. }
  cbn [app map]. replace (Js.toLowerCase (c :: t)) with (c :: t).
  2:{ unfold Js.toLowerCase. symmetry. rewrite <- (map_id (c :: t)) at 2.
      apply map_ext_Forall. eapply Forall_impl; [exact Ht|].
      apply lower_digit_toLowerChar. }
  cbn [List.filter]. by destruct (Spec.survives (c :: t)).
Qed.

Lemma tokenize_survive text t : t ∈ tokenize text -> Spec.survives t = true.
Proof.
  rewrite tokenize_spec. unfold Spec.tokenize.
  intros Ht%list_elem_of_In. by apply List.filter_In in Ht as [_ Hs].
Qed.

Lemma tokenize_join ts :
  Forall (fun t => Forall (fun c => Js.is_lower c || Js.is_digit c = true) t
                   /\ Spec.survives t = true) ts ->
  tokenize (Js.join (lit " ") ts) = ts.
Proof.
  induction 1 as [|t ts [Ht Hs] Hts IH]; [done|].
  destruct ts as [|t' ts].
  - cbn [Js.join]. by rewrite tokenize_one, Hs.
  - change (Js.join (lit " ") (t :: t' :: ts))
      with (t ++ " "%char :: Js.join (lit " ") (t' :: ts)).
    rewrite tokenize_app_sep by done. rewrite IH, tokenize_one, Hs by done. done.
Qed.

(** X7: what a token is: every token that [tokenize] returns has at least
    three characters, all of them lowercase letters a-z or digits, and is
    not a stop word. *)
Theorem tokenize_tokens_are_terms text :
  Forall (fun t => 3 <= length t
                   /\ Forall (fun c => Js.is_lower c || Js.is_digit c = true) t
                   /\ isStopWord t = false)
    (tokenize text).
Proof.
  apply Forall_forall. intros t Ht.
  pose proof (tokenize_survive _ _ Ht) as Hs. rewrite survives_spec in Hs.
  apply andb_prop in Hs as [Hlen Hstop].
  apply Nat.ltb_lt in Hlen. apply negb_true_iff in Hstop.
  split; [lia|]. split; [by eapply tokenize_letters_digits|done].
Qed.

(** X8: a character that is not a letter or a digit separates: the tokens
    of a text around such a character are the tokens of what is before it
    followed by the tokens of what is after it, so that no token spans a
    separator and a token never depends on the text beyond the separators
    around it. *)
Theorem tokenize_splits_at_separators a c b :
  Js.is_alnum c = false -> tokenize (a ++ c :: b) = tokenize a ++ tokenize b.
Proof. apply tokenize_app_sep. Qed.

Lemma tokenize_splits_at_separators_witness :
  Js.is_alnum "."%char = false
  /\ tokenize (lit "searchEngine" ++ "."%char :: lit "indexProject")
     = tokenize (lit "searchEngine") ++ tokenize (lit "indexProject").
Proof.
  assert (H : Js.is_alnum "."%char = false) by reflexivity.
  split; [exact H|].
  exact (tokenize_splits_at_separators (lit "searchEngine") "."%char
           (lit "indexProject") H).
Defined.

(** X9: tokens are stable: the tokens of a text, written one after the
    other with spaces between them, are tokenized to themselves: a second
    pass splits, lowercases and filters nothing more. *)
Theorem tokenize_of_its_tokens text :
  tokenize (Js.join (lit " ") (tokenize text)) = tokenize text.
Proof.
  apply tokenize_join. apply Forall_forall. intros t Ht. split.
  - by eapply tokenize_letters_digits.
  - by eapply tokenize_survive.
Qed.

(** ** The distance of two strings is a metric *)

Lemma distance_sym s t : Spec.distance s t = Spec.distance t s.
Proof.
  assert (H : forall a b, Spec.distance a b <= Spec.distance b a).
  { intros a b. apply distance_le_aligned, aligned_sym, aligned_distance. }
  pose proof (H s t). pose proof (H t s). lia.
Qed.

Lemma aligned_zero s t n : Spec.aligned s t n -> n = 0 -> s = t.
Proof.
  induction 1 as [|c s t n _ IH| | |]; intros Hn; try done.
  by rewrite IH.
Qed.

Lemma distance_zero s t : Spec.distance s t = 0 <-> s = t.
Proof.
  split.
  - intros H. apply (aligned_zero s t 0); [|done]. rewrite <- H.
    apply aligned_distance.
  - intros ->. pose proof (distance_le_aligned t t 0 (aligned_refl t)). lia.
Qed.

Lemma edits_trans n m s t u :
  Spec.edits n s t -> Spec.edits m t u -> Spec.edits (n + m) s u.
Proof.
  induction 1 as [|n s t t' He _ IH]; intros Hm; [done|].
  simpl. eapply Spec.edits_more; [exact He|]. by apply IH.
Qed.

Lemma distance_triangle s t u :
  Spec.distance s u <= Spec.distance s t + Spec.distance t u.
Proof.
  pose proof (aligned_edits _ _ _ (aligned_distance s t)) as H1.
  pose proof (aligned_edits _ _ _ (aligned_distance t u)) as H2.
  destruct (edits_aligned _ _ _ (edits_trans _ _ _ _ _ H1 H2)) as (m & Hm & Ha).
  pose proof (distance_le_aligned _ _ _ Ha). lia.
Qed.

Lemma aligned_lengths s t n :
  Spec.aligned s t n -> length s <= length t + n /\ length t <= length s + n.
Proof. induction 1; simpl; lia. Qed.

Lemma aligned_longest s : forall t,
  Spec.aligned s t (Nat.max (length s) (length t)).
Proof.
  induction s as [|c s IH]; intros t.
  - apply aligned_nil_l.
  - destruct t as [|d t].
    + apply (aligned_nil_r (c :: s)).
    + simpl. apply Spec.aligned_subst, IH.
Qed.

(** X10: the distance that [levenshteinDistance] returns is a metric on
    strings: it does not depend on the order of its arguments, it is 0
    exactly for equal strings, and the distance from [a] to [c] is at most
    the distance from [a] to [b] plus the distance from [b] to [c]. *)
Theorem levenshteinDistance_is_a_metric :
  (forall a b, levenshteinDistance a b = levenshteinDistance b a)
  /\ (forall a b, levenshteinDistance a b = Some 0 <-> a = b)
  /\ (forall a b c, exists dab dbc dac,
        levenshteinDistance a b = Some dab
        /\ levenshteinDistance b c = Some dbc
        /\ levenshteinDistance a c = Some dac
        /\ dac <= dab + dbc).
Proof.
  split; [|split].
  - intros a b. by rewrite !levenshteinDistance_distance, distance_sym.
  - intros a b. rewrite levenshteinDistance_distance. split.
    + intros [= H]. by apply distance_zero.
    + intros H. f_equal. by apply distance_zero.
  - intros a b c. eexists _, _, _.
    rewrite !levenshteinDistance_distance.
    repeat split. apply distance_triangle.
Qed.

(** X11: the distance of two strings is at least the difference of their
    lengths and at most the length of the longer one; so a query term and
    a token whose lengths differ by more than 2 are never a fuzzy match. *)
Theorem levenshteinDistance_between_lengths :
  (forall a b, exists d,
      levenshteinDistance a b = Some d
      /\ length a - length b <= d /\ length b - length a <= d
      /\ d <= Nat.max (length a) (length b))
  /\ (forall term token,
        withinTwoEdits term token = true ->
        length term <= length token + 2 /\ length token <= length term + 2).
Proof.
  assert (H : forall a b,
             length a - length b <= Spec.distance a b
             /\ length b - length a <= Spec.distance a b
             /\ Spec.distance a b <= Nat.max (length a) (length b)).
  { intros a b.
    pose proof (aligned_lengths _ _ _ (aligned_distance a b)).
    pose proof (distance_le_aligned _ _ _ (aligned_longest a b)). lia. }
  split.
  - intros a b. exists (Spec.distance a b).
    split; [apply levenshteinDistance_distance|apply H].
  - intros term token. unfold withinTwoEdits.
    rewrite levenshteinDistance_distance. intros Hd%Nat.leb_le.
    specialize (H term token). lia.
Qed.

(** ** What a search does to the engine *)

Lemma startsList_refl {A} (xs : list A) : Shape.startsList xs xs.
Proof. exists []. by rewrite app_nil_r. Qed.

Lemma startsList_trans {A} (xs ys zs : list A) :
  Shape.startsList xs ys -> Shape.startsList ys zs -> Shape.startsList xs zs.
Proof. intros [m ->] [m' ->]. exists (m ++ m'). by rewrite app_assoc. Qed.

Lemma grownFrom_refl st : Shape.grownFrom st st.
Proof. repeat split. intros r. apply startsList_refl. Qed.

Lemma grownFrom_trans st1 st2 st3 :
  Shape.grownFrom st1 st2 -> Shape.grownFrom st2 st3 -> Shape.grownFrom st1 st3.
Proof.
  intros (Hi & Hd & Hc & Hl & Hr) (Hi' & Hd' & Hc' & Hl' & Hr').
  repeat split; try congruence.
  intros r. eapply startsList_trans; [apply Hr|apply Hr'].
Qed.

Lemma grownFrom_push r xs st : Shape.grownFrom st (push r xs st).
Proof.
  unfold push, setHeap.
  split; [done|]. split; [done|]. split; [done|]. split; cbn [heap].
  - apply length_alter.
  - intros r'. unfold deref. cbn [heap].
    destruct (decide (r = r')) as [<-|Hne].
    + rewrite list_lookup_alter_eq. destruct (heap st !! r) as [old|]; simpl.
      * by exists xs.
      * apply startsList_refl.
    + rewrite list_lookup_alter_ne by done. apply startsList_refl.
Qed.

Lemma grownFrom_collect pid st : Shape.grownFrom st (collect pid st).1.
Proof.
  unfold collect. destruct (knownProject pid st) as [r|]; simpl;
    [|apply grownFrom_refl].
  generalize (index st) at 1. intros ix. revert st.
  induction ix as [|pc ix IH]; intros st; simpl; [apply grownFrom_refl|].
  destruct (negb _).
  - eapply grownFrom_trans; [apply grownFrom_push|apply IH].
  - apply IH.
Qed.

(** X12: a search only appends: whatever the project, the query and the
    limit, the engine after [search] has the same index (the same keys
    bound to the same arrays), the same snapshot on disk and the same log
    as before, and every array holds what it held before, followed by what
    was pushed onto it: nothing is removed, replaced or saved. *)
Theorem search_only_appends Math_log pid query limit st :
  Shape.grownFrom st (search Math_log pid query limit st).1.
Proof. rewrite search_state. apply grownFrom_collect. Qed.

(** X13: the search in a known project grows the array of that project
    in every engine whose projects have arrays of their own: after the
    search the project holds its chunks followed by the chunks of all
    other projects, in the order of the index. *)
Theorem search_known_project_appends_others Math_log p r query limit st :
  p <> [] -> Map_get p (index st) = Some r ->
  NoDup (map snd (index st)) -> r < length (heap st) ->
  Spec.chunksOf p (search Math_log (Some p) query limit st).1
  = Some (deref st r ++ Spec.otherChunks p st).
Proof.
  intros Hp Hget Hnd Hr. rewrite search_state, (collect_known p r st) by done.
  cbn [fst]. unfold Spec.chunksOf. 
  change (index (push r (Spec.otherChunks p st) st)) with (index st).
  rewrite Hget. simpl. by rewrite deref_push.
Qed.

Lemma search_known_project_appends_others_witness :
  lit "A" <> []
  /\ Map_get (lit "A") (index Examples.indexedAB) = Some 0
  /\ NoDup (map snd (index Examples.indexedAB))
  /\ 0 < length (heap Examples.indexedAB)
  /\ Spec.chunksOf (lit "A")
       (search Examples.Math_log (Some (lit "A")) (lit "widget") 5
          Examples.indexedAB).1
     = Some (deref Examples.indexedAB 0 ++ Spec.otherChunks (lit "A") Examples.indexedAB).
Proof.
  assert (H1 : lit "A" <> []) by discriminate.
  assert (H2 : Map_get (lit "A") (index Examples.indexedAB) = Some 0) by reflexivity.
  assert (H3 : NoDup (map snd (index Examples.indexedAB))).
  { apply (bool_decide_unpack _). vm_compute. exact I. }
  assert (H4 : 0 < length (heap Examples.indexedAB)) by (vm_compute; lia).
  split; [exact H1|]. split; [exact H2|]. split; [exact H3|]. split; [exact H4|].
  exact (search_known_project_appends_others Examples.Math_log (lit "A") 0
           (lit "widget") 5 Examples.indexedAB H1 H2 H3 H4).
Defined.

(** ** The limit and the ranking *)

Lemma insertByScore_Permutation x xs : insertByScore x xs ≡ₚ x :: xs.
Proof.
  induction xs as [|y xs IH]; simpl; [done|].
  destruct (PrimFloat.ltb _ _); [|done].
  rewrite IH. apply Permutation_swap.
Qed.

Lemma sortByScore_Permutation xs : sortByScore xs ≡ₚ xs.
Proof.
  induction xs as [|x xs IH]; simpl; [done|].
  by rewrite insertByScore_Permutation, IH.
Qed.

Section Limit.

Variable Math_log : float -> float.
Variable pid : option str.
Variable query : str.
Variable st : State.

Let candidates : list DocumentChunk := (collect pid st).2.

Let scored : list SearchResult :=
  List.filter Shape.positive
    (map (scoreChunk Math_log pid candidates (tokenize query)) candidates).

Let results (limit : Z) : list SearchResult :=
  (search Math_log pid query limit st).2.

Lemma results_slice limit : results limit = Js.slice0 (sortByScore scored) limit.
Proof. unfold results. by rewrite search_rank. Qed.

Lemma scored_length : length (sortByScore scored) <= length candidates.
Proof.
  rewrite (Permutation_length (sortByScore_Permutation scored)).
  unfold scored. rewrite List.filter_length_le. by rewrite length_map.
Qed.

Lemma results_take (n : nat) : results (Z.of_nat n) = take n (sortByScore scored).
Proof.
  rewrite results_slice, slice0_take.
  destruct (decide (n <= length (sortByScore scored))).
  - by rewrite Nat.min_l.
  - rewrite Nat.min_r by lia. rewrite !take_ge; [done|lia|lia].
Qed.

Lemma results_full (m : nat) :
  length candidates <= m -> results (Z.of_nat m) = sortByScore scored.
Proof.
  intros Hm. rewrite results_take. apply take_ge. pose proof scored_length. lia.
Qed.

Lemma results_complete (m : nat) :
  length candidates <= m -> results (Z.of_nat m) ≡ₚ scored.
Proof. intros Hm. rewrite results_full by done. apply sortByScore_Permutation. Qed.

Lemma results_prefix (n m : nat) :
  n <= m -> results (Z.of_nat n) = take n (results (Z.of_nat m)).
Proof.
  intros Hnm. rewrite !results_take, take_take. by rewrite Nat.min_l.
Qed.

Lemma results_negative (k m : nat) :
  0 < k -> length candidates <= m ->
  results (- Z.of_nat k)
  = take (length (results (Z.of_nat m)) - k) (results (Z.of_nat m)).
Proof.
  intros Hk Hm. rewrite results_full by done. rewrite results_slice.
  unfold Js.slice0. destruct (Z.ltb_spec (- Z.of_nat k) 0); [|lia].
  f_equal. lia.
Qed.

End Limit.

(** X14: the ranking loses and repeats nothing: with a limit that is at
    least the number of candidates, the results of a search are, up to
    their order, the scored candidates whose score is positive, each
    candidate once for each time it is among the candidates; the early
    returns for no candidates and for a query without tokens agree with
    this. *)
Theorem search_returns_every_positive_candidate Math_log pid query st (m : nat) :
  length (collect pid st).2 <= m ->
  (search Math_log pid query (Z.of_nat m) st).2
  ≡ₚ List.filter Shape.positive
       (map (scoreChunk Math_log pid (collect pid st).2 (tokenize query))
          (collect pid st).2).
Proof. apply results_complete. Qed.

Lemma search_returns_every_positive_candidate_witness :
  length (collect (Some (lit "C")) Examples.indexedC).2 <= 5
  /\ (search Examples.Math_log (Some (lit "C")) (lit "search engine")
        (Z.of_nat 5) Examples.indexedC).2
     ≡ₚ List.filter Shape.positive
          (map (scoreChunk Examples.Math_log (Some (lit "C"))
                  (collect (Some (lit "C")) Examples.indexedC).2
                  (tokenize (lit "search engine")))
             (collect (Some (lit "C")) Examples.indexedC).2).
Proof.
  assert (H : length (collect (Some (lit "C")) Examples.indexedC).2 <= 5)
    by (vm_compute; lia).
  split; [exact H|].
  exact (search_returns_every_positive_candidate Examples.Math_log (Some (lit "C"))
           (lit "search engine") Examples.indexedC 5 H).
Defined.

(** X15: the limit only cuts the ranking: the results for a limit [n] are
    the first [n] results for any larger limit, so there are at most [n] of
    them; and a negative limit [-k] does not fail: it drops the last [k]
    results of the whole ranking. *)
Theorem search_limit_cuts_the_ranking Math_log pid query st :
  (forall n m : nat, n <= m ->
     (search Math_log pid query (Z.of_nat n) st).2
     = take n (search Math_log pid query (Z.of_nat m) st).2)
  /\ (forall n : nat, length (search Math_log pid query (Z.of_nat n) st).2 <= n)
  /\ (forall k m : nat, 0 < k -> length (collect pid st).2 <= m ->
        (search Math_log pid query (- Z.of_nat k) st).2
        = take (length (search Math_log pid query (Z.of_nat m) st).2 - k)
            (search Math_log pid query (Z.of_nat m) st).2).
Proof.
  split; [|split].
  - apply results_prefix.
  - intros n. rewrite (results_prefix _ _ _ _ n n) by done.
    rewrite length_take. lia.
  - apply results_negative.
Qed.

(** ** Exact matches, the document count and the title *)

Lemma occursAt_startsWith term : forall s,
  Js.toLowerCase term = term ->
  Spec.occursAt term s = Js.startsWith (Js.toLowerCase s) term.
Proof.
  induction term as [|t term IH]; intros s Hlow; [by destruct s|].
  injection Hlow as Ht Hterm.
  destruct s as [|c s]; [done|]. simpl.
  unfold Spec.sameLetter. rewrite Ht. by rewrite IH.
Qed.

Lemma occurrences_includes term s :
  term <> [] -> Js.toLowerCase term = term ->
  (1 <=? Spec.occurrences term s) = Js.includes (Js.toLowerCase s) term.
Proof.
  intros Hne Hlow. unfold Spec.occurrences.
  induction s as [|c s IH].
  - by destruct term.
  - cbn [Spec.occurrencesFrom]. change (Js.toLowerCase (c :: s))
      with (Js.toLowerChar c :: Js.toLowerCase s).
    cbn [Js.includes].
    change (Js.toLowerChar c :: Js.toLowerCase s) with (Js.toLowerCase (c :: s)).
    rewrite <- occursAt_startsWith by done.
    destruct (Spec.occursAt term (c :: s)); [done|]. by rewrite IH.
Qed.

Lemma isExact_termMatch c term :
  term <> [] ->
  Shape.isExact (termMatch c term) = (1 <=? Spec.occurrences term (content c)).
Proof.
  intros Hne. rewrite termMatch_spec by done.
  unfold Shape.isExact, Spec.kindOf, Spec.termFreq. cbn [snd].
  destruct (1 <=? Spec.occurrences term (content c)) eqn:E.
  - apply Nat.leb_le in E.
    destruct (Nat.ltb_spec 0 (Spec.occurrences term (content c))); [done|lia].
  - by destruct (0 <? _).
Qed.

Lemma docCount_filter allChunks term :
  docCount allChunks term
  = length (List.filter
              (fun c => Js.includes (Js.toLowerCase (content c)) term) allChunks).
Proof.
  unfold docCount.
  assert (H : forall n,
             fold_left (fun docCount chunk =>
                          if Js.includes (Js.toLowerCase (content chunk)) term
                          then docCount + 1 else docCount) allChunks n
             = n + length (List.filter
                             (fun c => Js.includes (Js.toLowerCase (content c)) term)
                             allChunks)).
  { induction allChunks as [|c cs IH]; intros n; simpl; [lia|].
    rewrite IH. destruct (Js.includes _ _); simpl; lia. }
  by rewrite H.
Qed.

(** X16: the document count of the inverse document frequency and the
    matching agree: for a query term, [docCount] is the number of
    candidates that the term matches exactly; a candidate that the term
    only matches by a close token is not counted. *)
Theorem docCount_counts_exact_matches query allChunks :
  Forall (fun t => docCount allChunks t
                   = length (List.filter (fun c => Shape.isExact (termMatch c t))
                               allChunks))
    (tokenize query).
Proof.
  apply Forall_forall. intros t Ht.
  destruct (tokenize_tokens _ _ Ht) as [Hne Hlow].
  rewrite docCount_filter. f_equal. apply List.filter_ext. intros c.
  rewrite isExact_termMatch by done. symmetry. by apply occurrences_includes.
Qed.

Lemma fold_addTerm_none idf avg c ts : forall s,
  Forall (fun t => Spec.termFreq t c = 0) ts ->
  fold_left (Spec.addTerm idf avg c) ts s = s.
Proof.
  induction ts as [|t ts IH]; intros s Hts; [done|].
  apply Forall_cons_1 in Hts as [Ht Hts]. simpl.
  unfold Spec.addTerm at 2. rewrite Ht. simpl. by apply IH.
Qed.

Lemma fold_addTitle_none c ts : forall s,
  Forall (fun t => Spec.inTitle t c = false) ts ->
  fold_left (Spec.addTitle c) ts s = s.
Proof.
  induction ts as [|t ts IH]; intros s Hts; [done|].
  apply Forall_cons_1 in Hts as [Ht Hts]. simpl.
  unfold Spec.addTitle at 2. rewrite Ht. by apply IH.
Qed.

Lemma Forall_or_Exists {A} (P : A -> bool) (l : list A) :
  Forall (fun x => P x = false) l \/ exists x, x ∈ l /\ P x = true.
Proof.
  induction l as [|x l [IH|(y & Hy & HP)]].
  - left. constructor.
  - destruct (P x) eqn:E.
    + right. exists x. split; [left|done].
    + left. by constructor.
  - right. exists y. split; [by right|done].
Qed.

Lemma search_results_match Math_log pid query limit st r :
  r ∈ (search Math_log pid query limit st).2 ->
  exists t, t ∈ tokenize query
    /\ (0 < Spec.termFreq t (chunk r) \/ Spec.inTitle t (chunk r) = true).
Proof.
  intros (c & _ & -> & Hpos)%search_results.
  rewrite scoreChunk_spec in Hpos |- * by (by exists query). cbn [score chunk] in *.
  destruct (Forall_or_Exists (fun t => 0 <? Spec.termFreq t c) (tokenize query))
    as [Hno|(t & Ht & Hyes)].
  2:{ exists t. split; [done|]. left. by apply Nat.ltb_lt. }
  destruct (Forall_or_Exists (fun t => Spec.inTitle t c) (tokenize query))
    as [Hno'|(t & Ht & Hyes)].
  2:{ exists t. split; [done|]. by right. }
  exfalso. rewrite fold_addTerm_none in Hpos.
  2:{ eapply Forall_impl; [exact Hno|]. intros t Ht. simpl in Ht.
      destruct (Nat.ltb_spec 0 (Spec.termFreq t c)); [done|lia]. }
  rewrite fold_addTitle_none in Hpos by done.
  by destruct (_ && _).
Qed.

(** X17: every result matches the query: a chunk is only returned when
    some token of the query counts in its content (exactly or by a close
    token) or occurs in its title up to case. *)
Theorem search_results_match_the_query Math_log pid query limit st r :
  r ∈ (search Math_log pid query limit st).2 ->
  exists t, t ∈ tokenize query
    /\ (0 < Spec.termFreq t (chunk r) \/ Spec.inTitle t (chunk r) = true).
Proof. apply search_results_match. Qed.

Lemma search_results_match_the_query_witness :
  exists r,
    head (search Examples.Math_log (Some (lit "C")) (lit "search engine") 5
            Examples.indexedC).2 = Some r
    /\ r ∈ (search Examples.Math_log (Some (lit "C")) (lit "search engine") 5
              Examples.indexedC).2
    /\ exists t, t ∈ tokenize (lit "search engine")
         /\ (0 < Spec.termFreq t (chunk r) \/ Spec.inTitle t (chunk r) = true).
Proof.
  destruct (head (search Examples.Math_log (Some (lit "C")) (lit "search engine") 5
                    Examples.indexedC).2)
    as [r|] eqn:E; [|vm_compute in E; discriminate].
  exists r. split; [reflexivity|].
  assert (Hin : r ∈ (search Examples.Math_log (Some (lit "C"))
                       (lit "search engine") 5 Examples.indexedC).2).
  { apply head_Some_elem_of. exact E. }
  split; [exact Hin|].
  exact (search_results_match_the_query Examples.Math_log (Some (lit "C"))
           (lit "search engine") 5 Examples.indexedC r Hin).
Defined.

(** ** The index as a map, and its snapshot *)

Lemma Map_set_keys {V} k (v : V) m :
  map fst (Map_set k v m)
  = if bool_decide (k ∈ map fst m) then map fst m else map fst m ++ [k].
Proof.
  induction m as [|[k' v'] m IH]; [done|].
  cbn [Map_set map fst]. destruct (decide (k' = k)) as [->|Hne].
  - rewrite (bool_decide_true (k = k)) by done.
    rewrite (bool_decide_true (k ∈ k :: map fst m)) by left. done.
  - rewrite (bool_decide_false (k' = k)) by done. cbn [map fst]. rewrite IH.
    destruct (decide (k ∈ map fst m)) as [Hin|Hin].
    + rewrite (bool_decide_true _ Hin).
      rewrite (bool_decide_true (k ∈ k' :: map fst m)) by (by right). done.
    + rewrite (bool_decide_false _ Hin).
      rewrite (bool_decide_false (k ∈ k' :: map fst m)); [done|].
      intros [->|?]%elem_of_cons; done.
Qed.

Lemma Map_set_NoDup {V} k (v : V) m :
  NoDup (map fst m) -> NoDup (map fst (Map_set k v m)).
Proof.
  intros Hnd. rewrite Map_set_keys. case_bool_decide as Hk; [done|].
  apply NoDup_app. split; [done|]. split; [|apply NoDup_singleton].
  intros x Hx ->%list_elem_of_singleton. done.
Qed.

Lemma Map_delete_keys {V} k (m : list (str * V)) :
  map fst (Map_delete k m)
  = List.filter (fun k' => negb (bool_decide (k' = k))) (map fst m).
Proof.
  unfold Map_delete. induction m as [|[k' v'] m IH]; simpl; [done|].
  destruct (negb _); simpl; by rewrite IH.
Qed.

Lemma filter_NoDup {A} (f : A -> bool) (l : list A) :
  NoDup l -> NoDup (List.filter f l).
Proof.
  induction 1 as [|x l Hx _ IH]; simpl; [constructor|].
  destruct (f x); [|done]. constructor; [|done].
  intros Hin%list_elem_of_In. apply List.filter_In in Hin as [Hin _].
  by apply Hx, list_elem_of_In.
Qed.

Lemma Map_delete_NoDup {V} k (m : list (str * V)) :
  NoDup (map fst m) -> NoDup (map fst (Map_delete k m)).
Proof. intros Hnd. rewrite Map_delete_keys. by apply filter_NoDup. Qed.

Lemma Map_get_set_ne {V} k k' (v : V) m :
  k' <> k -> Map_get k' (Map_set k v m) = Map_get k' m.
Proof.
  intros Hne. induction m as [|[k0 v0] m IH]; simpl.
  - by rewrite bool_decide_false by done.
  - case_bool_decide as Hk; simpl.
    + subst k0. by rewrite !bool_decide_false by done.
    + by rewrite IH.
Qed.

Lemma Map_get_delete_ne {V} k k' (m : list (str * V)) :
  k' <> k -> Map_get k' (Map_delete k m) = Map_get k' m.
Proof.
  intros Hne. unfold Map_delete. induction m as [|[k0 v0] m IH]; simpl; [done|].
  case_bool_decide as Hk; simpl.
  - subst k0. by rewrite bool_decide_false by done.
  - by rewrite IH.
Qed.

Lemma entries_keys st : map fst (entries st) = map fst (index st).
Proof. unfold entries. rewrite map_map. done. Qed.

Lemma saveIndex_saved st :
  disk (saveIndex true st) = Some (Entries (entries st))
  /\ entries (saveIndex true st) = entries st
  /\ index (saveIndex true st) = index st.
Proof. done. Qed.

Lemma saved_reloads st :
  NoDup (map fst (index st)) ->
  entries (new (disk (saveIndex true st))) = entries (saveIndex true st).
Proof.
  intros Hnd. destruct (saveIndex_saved st) as (-> & -> & _).
  apply new_valid. by rewrite entries_keys.
Qed.

(** X18: what is saved is what is loaded: in an engine whose file system
    accepts the write, after [indexProject] or [clearIndex] a new engine
    that starts from the snapshot file has the projects of the saving
    engine, in the same order, each with the same chunks. *)
Theorem saved_index_is_restored st :
  NoDup (map fst (index st)) ->
  (forall p r,
     entries (new (disk (indexProject p r true st)))
     = entries (indexProject p r true st))
  /\ (forall p,
        entries (new (disk (clearIndex p true st)))
        = entries (clearIndex p true st)).
Proof.
  intros Hnd. split.
  - intros p r. unfold indexProject. apply saved_reloads.
    cbn [index console_error setIndex]. by apply Map_set_NoDup.
  - intros p. unfold clearIndex. apply saved_reloads.
    cbn [index setIndex]. by apply Map_delete_NoDup.
Qed.

Lemma saved_index_is_restored_witness :
  NoDup (map fst (index Examples.indexedAB))
  /\ (forall p r,
        entries (new (disk (indexProject p r true Examples.indexedAB)))
        = entries (indexProject p r true Examples.indexedAB))
  /\ (forall p,
        entries (new (disk (clearIndex p true Examples.indexedAB)))
        = entries (clearIndex p true Examples.indexedAB)).
Proof.
  assert (H : NoDup (map fst (index Examples.indexedAB))).
  { apply (bool_decide_unpack _). vm_compute. exact I. }
  split; [exact H|].
  exact (saved_index_is_restored Examples.indexedAB H).
Defined.

Lemma saveIndex_frame writable st :
  index (saveIndex writable st) = index st /\ heap (saveIndex writable st) = heap st.
Proof. unfold saveIndex, writeFileSync. by destruct writable. Qed.

(** X19: indexing and clearing touch one project: [indexProject] binds
    the project to the chunks of the array it is given, [clearIndex]
    unbinds it, and both leave the chunks of every other project and all
    arrays as they were, whether the snapshot can be written or not. *)
Theorem indexProject_clearIndex_touch_one_project p writable st :
  (forall r,
     let st' := indexProject p r writable st in
     Spec.chunksOf p st' = Some (deref st r)
     /\ heap st' = heap st
     /\ forall q, q <> p -> Spec.chunksOf q st' = Spec.chunksOf q st)
  /\ (let st' := clearIndex p writable st in
      Spec.chunksOf p st' = None
      /\ heap st' = heap st
      /\ forall q, q <> p -> Spec.chunksOf q st' = Spec.chunksOf q st).
Proof.
  split.
  - intros r st'.
    assert (Hix : index st' = Map_set p r (index st)).
    { unfold st', indexProject. by rewrite (proj1 (saveIndex_frame _ _)). }
    assert (Hheap : heap st' = heap st).
    { unfold st', indexProject. by rewrite (proj2 (saveIndex_frame _ _)). }
    unfold Spec.chunksOf, deref. rewrite Hix, Hheap.
    split; [by rewrite Map_get_set|]. split; [done|].
    intros q Hq. by rewrite Map_get_set_ne.
  - intros st'.
    assert (Hix : index st' = Map_delete p (index st)).
    { unfold st', clearIndex. by rewrite (proj1 (saveIndex_frame _ _)). }
    assert (Hheap : heap st' = heap st).
    { unfold st', clearIndex. by rewrite (proj2 (saveIndex_frame _ _)). }
    unfold Spec.chunksOf, deref. rewrite Hix, Hheap.
    split; [by rewrite Map_get_delete|]. split; [done|].
    intros q Hq. by rewrite Map_get_delete_ne.
Qed.

(** ** The registry of resources *)

Section Registry.

Import ResourceManager.

Lemma startsWith_app s p : Js.startsWith (p ++ s) p = true.
Proof.
  induction p as [|a p IH]; simpl; [by destruct s|]. by rewrite bool_decide_true, IH.
Qed.

Lemma startsWith_app_both a s p :
  Js.startsWith (a ++ s) (a ++ p) = Js.startsWith s p.
Proof. induction a as [|c a IH]; simpl; [done|]. by rewrite bool_decide_true, IH. Qed.

Lemma startsWith_spec s p :
  Js.startsWith s p = true <-> exists rest, s = p ++ rest.
Proof.
  revert s. induction p as [|a p IH]; intros s; simpl.
  - split; [by exists s|by destruct s].
  - destruct s as [|c s]; simpl.
    + split; [done|]. by intros [rest ?].
    + rewrite andb_true_iff, bool_decide_eq_true, IH. split.
      * intros [-> [rest ->]]. by exists rest.
      * intros [rest [= -> ->]]. split; [done|]. by exists rest.
Qed.

Lemma Map_get_filter {V} (f : str -> bool) u (m : list (str * V)) :
  Map_get u (List.filter (fun kv => f kv.1) m) = if f u then Map_get u m else None.
Proof.
  induction m as [|[k v] m IH]; simpl; [by destruct (f u)|].
  destruct (f k) eqn:Hk; simpl.
  - case_bool_decide as Hku; [subst k; by rewrite Hk|done].
  - rewrite IH. case_bool_decide as Hku; [subst k; by rewrite Hk|done].
Qed.

Lemma filter_filter {A} (f g : A -> bool) (l : list A) :
  List.filter f (List.filter g l) = List.filter (fun x => g x && f x) l.
Proof.
  induction l as [|x l IH]; simpl; [done|].
  destruct (g x); simpl; [|done]. destruct (f x); by rewrite IH.
Qed.

Lemma filter_all {A} (f : A -> bool) (l : list A) :
  (forall x, x ∈ l -> f x = true) -> List.filter f l = l.
Proof.
  induction l as [|x l IH]; intros H; simpl; [done|].
  rewrite (H x) by left. f_equal. apply IH. intros y Hy. apply H. by right.
Qed.

Lemma clear_fold prefix (keys : list str) : forall resources : Resources,
  fold_left (fun resources key =>
               if Js.startsWith key prefix
               then Map_delete key resources else resources) keys resources
  = List.filter (fun kv => negb (bool_decide (kv.1 ∈ keys)
                                 && Js.startsWith kv.1 prefix)) resources.
Proof.
  induction keys as [|k keys IH]; intros resources.
  - cbn [fold_left]. symmetry. apply filter_all. intros kv _.
    rewrite bool_decide_false; [done|]. apply not_elem_of_nil.
  - cbn [fold_left]. rewrite IH. destruct (Js.startsWith k prefix) eqn:Hk.
    + unfold Map_delete. rewrite filter_filter. apply List.filter_ext.
      intros [k' v]. cbn [fst].
      destruct (decide (k' = k)) as [->|Hne].
      * rewrite (bool_decide_true (k = k)) by done.
        rewrite (bool_decide_true (k ∈ k :: keys)) by left. by rewrite Hk.
      * rewrite (bool_decide_false (k' = k)) by done. cbn [negb andb].
        f_equal. f_equal. apply bool_decide_ext. rewrite elem_of_cons. tauto.
    + apply List.filter_ext. intros [k' v]. cbn [fst].
      destruct (decide (k' = k)) as [->|Hne].
      * by rewrite Hk, !andb_false_r.
      * f_equal. f_equal. apply bool_decide_ext. rewrite elem_of_cons. tauto.
Qed.

Lemma clearProjectResources_filter p (resources : Resources) :
  clearProjectResources p resources
  = List.filter (fun kv => negb (Js.startsWith kv.1 (projectPrefix p))) resources.
Proof.
  unfold clearProjectResources. rewrite clear_fold.
  induction resources as [|[k v] resources IH]; [done|].
  apply List.filter_ext_in. intros [k' v'] Hin. cbn [fst].
  rewrite bool_decide_true; [done|].
  apply list_elem_of_In in Hin. apply list_elem_of_fmap. by exists (k', v').
Qed.

Lemma registry_register r (resources : Resources) :
  Shape.registry resources -> Shape.registry (registerResource r resources).
Proof.
  intros [Hnd Hkeys]. split; [by apply Map_set_NoDup|].
  unfold registerResource. clear Hnd.
  induction Hkeys as [|[k v] m Hk Hm IH]; simpl.
  - by repeat constructor.
  - destruct (bool_decide (k = uri r)); by constructor.
Qed.

Lemma registry_filter f (resources : Resources) :
  Shape.registry resources -> Shape.registry (List.filter f resources).
Proof.
  intros [Hnd Hkeys]. split.
  - clear Hkeys. induction resources as [|kv m IH]; simpl; [constructor|].
    apply NoDup_cons in Hnd as [Hnotin Hnd].
    destruct (f kv); [|by apply IH]. simpl. constructor; [|by apply IH].
    intros (kv' & Heq & Hin)%list_elem_of_fmap. apply Hnotin.
    apply list_elem_of_fmap. exists kv'. split; [done|].
    apply list_elem_of_In in Hin. apply List.filter_In in Hin as [Hin _].
    by apply list_elem_of_In.
  - apply Forall_forall. intros kv Hin%list_elem_of_In.
    apply List.filter_In in Hin as [Hin _]. rewrite Forall_forall in Hkeys.
    by apply Hkeys, list_elem_of_In.
Qed.

Lemma registry_get u x (resources : Resources) :
  Shape.registry resources ->
  getResource u resources = Some x <-> x ∈ getAllResources resources /\ uri x = u.
Proof.
  intros [Hnd Hkeys]. unfold getResource, getAllResources.
  induction resources as [|[k v] m IH]; simpl.
  - split; [done|]. intros [?%elem_of_nil _]. done.
  - apply NoDup_cons in Hnd as [Hnotin Hnd].
    apply Forall_cons_1 in Hkeys as [Hk Hkeys]. simpl in Hk.
    specialize (IH Hnd Hkeys).
    case_bool_decide as Hku.
    + subst k. split.
      * intros [= ->]. split; [left|done].
      * intros [[->|Hin]%elem_of_cons Hu]; [done|].
        exfalso. apply Hnotin.
        apply list_elem_of_fmap in Hin as ([k' v'] & -> & Hin).
        apply list_elem_of_fmap. exists (k', v'). split; [|done].
        rewrite Forall_forall in Hkeys. specialize (Hkeys _ Hin). simpl in *.
        congruence.
    + rewrite IH. split.
      * intros [Hin Hu]. split; [by right|done].
      * intros [[->|Hin]%elem_of_cons Hu]; [congruence|done].
Qed.

(** X20: the registry is a map from URIs to resources: in a registry that
    [registerResource] built, after one more [registerResource] the
    resource is found under its URI, the resources under other URIs are
    the ones that were there, [getResource] returns exactly the resources
    that [getAllResources] lists, each under its own URI, and no two listed
    resources have the same URI: a resource registered again replaces the
    one before. *)
Theorem registerResource_files_by_uri r (resources : Resources) :
  Shape.registry resources ->
  let resources' := registerResource r resources in
  Shape.registry resources'
  /\ getResource (uri r) resources' = Some r
  /\ (forall u, u <> uri r -> getResource u resources' = getResource u resources)
  /\ (forall u x, getResource u resources' = Some x
        <-> x ∈ getAllResources resources' /\ uri x = u)
  /\ NoDup (map uri (getAllResources resources')).
Proof.
  intros Hreg resources'.
  pose proof (registry_register r _ Hreg) as Hreg'.
  split; [exact Hreg'|]. split; [apply Map_get_set|].
  split; [intros u Hu; by apply Map_get_set_ne|].
  split; [intros u x; by apply registry_get|].
  destruct Hreg' as [Hnd Hkeys]. fold resources' in Hnd, Hkeys.
  unfold getAllResources. rewrite map_map.
  erewrite map_ext_Forall; [exact Hnd|].
  eapply Forall_impl; [exact Hkeys|]. intros kv Hkv. done.
Qed.

Lemma registerResource_files_by_uri_witness :
  Shape.registry Samples.registered
  /\ let resources' := registerResource Samples.docs Samples.registered in
     Shape.registry resources'
     /\ getResource (uri Samples.docs) resources' = Some Samples.docs
     /\ (forall u, u <> uri Samples.docs ->
           getResource u resources' = getResource u Samples.registered)
     /\ (forall u x, getResource u resources' = Some x
           <-> x ∈ getAllResources resources' /\ uri x = u)
     /\ NoDup (map uri (getAllResources resources')).
Proof.
  assert (H : Shape.registry Samples.registered).
  { split; [apply NoDup_singleton|]. by repeat constructor. }
  split; [exact H|].
  exact (registerResource_files_by_uri Samples.docs Samples.registered H).
Defined.

Lemma clearProjectResources_removes_prefix p (resources : Resources) :
  clearProjectResources p resources
  = List.filter (fun kv => negb (Js.startsWith kv.1 (projectPrefix p))) resources
  /\ (forall u,
        getResource u (clearProjectResources p resources)
        = if Js.startsWith u (projectPrefix p) then None
          else getResource u resources).
Proof.
  split; [apply clearProjectResources_filter|].
  intros u. rewrite clearProjectResources_filter. unfold getResource.
  rewrite (Map_get_filter (fun k => negb (Js.startsWith k (projectPrefix p)))).
  by destruct (Js.startsWith u (projectPrefix p)).
Qed.

(** X21: [clearProjectResources] removes exactly the resources whose URI
    starts with [gitlab://<projectId>/] and keeps the others in their
    order, although it deletes from the map while it iterates over its
    keys; afterwards no URI with that prefix is found and every other URI
    gives what it gave before. *)
Theorem clearProjectResources_removes_the_prefix p (resources : Resources) :
  clearProjectResources p resources
  = List.filter (fun kv => negb (Js.startsWith kv.1 (projectPrefix p))) resources
  /\ (forall u,
        getResource u (clearProjectResources p resources)
        = if Js.startsWith u (projectPrefix p) then None
          else getResource u resources).
Proof. apply clearProjectResources_removes_prefix. Qed.

Lemma getUri_prefix p path :
  getUri p path
  = projectPrefix p
    ++ (if Js.startsWith path (lit "/") then substring1 path else path).
Proof. unfold getUri, projectPrefix. by rewrite <- !app_assoc. Qed.

(** X22: the URI of a file: [getUri] puts the path after
    [gitlab://<projectId>/] and drops one leading slash of the path, not
    more; so every resource that is filed under such a URI is removed by
    [clearProjectResources] of its project, and also by that of every
    project whose path, followed by a slash, starts the path of its
    project. *)
Theorem getUri_is_under_the_project_prefix p path :
  getUri p (lit "/" ++ path) = projectPrefix p ++ path
  /\ (Js.startsWith path (lit "/") = false -> getUri p path = projectPrefix p ++ path)
  /\ Js.startsWith (getUri p path) (projectPrefix p) = true
  /\ (forall resources : Resources,
        getResource (getUri p path) (clearProjectResources p resources) = None)
  /\ (forall sub (resources : Resources),
        getResource (getUri (p ++ lit "/" ++ sub) path)
          (clearProjectResources p resources) = None).
Proof.
  assert (Hstarts : Js.startsWith (getUri p path) (projectPrefix p) = true).
  { rewrite getUri_prefix. apply startsWith_app. }
  assert (Hsub : forall sub,
             Js.startsWith (getUri (p ++ lit "/" ++ sub) path) (projectPrefix p) = true).
  { intros sub. unfold getUri, projectPrefix.
    rewrite <- !app_assoc. rewrite !startsWith_app_both.
    apply (startsWith_app _ (lit "/")). }
  split; [rewrite getUri_prefix, (startsWith_app path (lit "/")); reflexivity|].
  split; [intros Hno; by rewrite getUri_prefix, Hno|].
  split; [exact Hstarts|].
  split.
  - intros resources.
    rewrite (proj2 (clearProjectResources_removes_prefix p resources)).
    by rewrite Hstarts.
  - intros sub resources.
    rewrite (proj2 (clearProjectResources_removes_prefix p resources)).
    by rewrite Hsub.
Qed.

End Registry.

(** ** Which files the crawler indexes *)

Import GitLabCrawler.

Lemma split_app_sep sep a b :
  Js.split sep (a ++ sep :: b) = Js.split sep a ++ Js.split sep b.
Proof.
  induction a as [|x a IH]; simpl.
  - by rewrite bool_decide_true.
  - rewrite IH. case_bool_decide; [done|].
    destruct (Js.split sep a) as [|p ps] eqn:E; [by destruct (split_nonempty sep a)|].
    done.
Qed.

Lemma split_one sep s : sep ∉ s -> Js.split sep s = [s].
Proof.
  induction s as [|c s IH]; intros Hs; simpl; [done|].
  apply not_elem_of_cons in Hs as [Hc Hs].
  rewrite bool_decide_false by done. by rewrite IH.
Qed.

Lemma last_split sep a b :
  sep ∉ b -> List.last (Js.split sep (a ++ sep :: b)) [] = b.
Proof.
  intros Hb. rewrite split_app_sep, (split_one sep b Hb). apply List.last_last.
Qed.

Lemma lastIndexOf_from_none c s : forall i found,
  c ∉ s -> lastIndexOf_from c s i found = found.
Proof.
  induction s as [|x s IH]; intros i found Hs; simpl; [done|].
  apply not_elem_of_cons in Hs as [Hc Hs].
  rewrite bool_decide_false by done. by apply IH.
Qed.

Lemma lastIndexOf_from_last c a b : forall i found,
  c ∉ b -> lastIndexOf_from c (a ++ c :: b) i found = Z.of_nat (i + length a).
Proof.
  induction a as [|x a IH]; intros i found Hb; simpl.
  - rewrite bool_decide_true by done. rewrite lastIndexOf_from_none by done.
    f_equal. lia.
  - rewrite IH by done. f_equal. lia.
Qed.

Lemma substring_lastIndexOf c a b :
  c ∉ b -> substring (a ++ c :: b) (lastIndexOf (a ++ c :: b) c) = c :: b.
Proof.
  intros Hb. unfold lastIndexOf, substring.
  rewrite lastIndexOf_from_last by done. simpl.
  replace (Z.to_nat (Z.max 0 (Z.of_nat (length a)))) with (length a) by lia.
  by rewrite drop_app_length.
Qed.

Lemma substring_no_dot c s :
  c ∉ s -> substring s (lastIndexOf s c) = s.
Proof.
  intros Hs. unfold lastIndexOf, substring.
  by rewrite lastIndexOf_from_none by done.
Qed.

Lemma toLowerChar_dot c : Js.toLowerChar c = "."%char -> c = "."%char.
Proof. destruct c as [[] [] [] [] [] [] [] []]; vm_compute; congruence. Qed.

Lemma strategy_markdown path :
  Spec.strategy path = markdown
  <-> extension path = lit "md" \/ extension path = lit "markdown".
Proof.
  unfold Spec.strategy. case_bool_decide as H.
  - split; [intros _|done].
    apply elem_of_cons in H as [H|H]; [by left|].
    apply list_elem_of_singleton in H. by right.
  - split.
    + by destruct (bool_decide _).
    + intros [Hm|Hm]; exfalso; apply H; rewrite Hm.
      * left.
      * right. left.
Qed.

Lemma shouldProcessFile_spec path :
  shouldProcessFile path = true
  <-> Forall (fun dir => Js.includes path (dir ++ lit "/") = false) excludedDirs
      /\ "."%char ∈ path
      /\ Spec.strategy path = markdown.
Proof.
  unfold shouldProcessFile.
  destruct (existsb _ excludedDirs) eqn:Hex.
  - split; [done|]. intros (Hall & _ & _). exfalso.
    apply List.existsb_exists in Hex as (dir & Hin & Hinc).
    rewrite Forall_forall in Hall. apply list_elem_of_In in Hin.
    rewrite (Hall dir Hin) in Hinc. done.
  - assert (Hall : Forall (fun dir => Js.includes path (dir ++ lit "/") = false)
                     excludedDirs).
    { apply Forall_forall. intros dir Hin.
      destruct (Js.includes path (dir ++ lit "/")) eqn:E; [|done].
      assert (existsb (fun dir => Js.includes path (dir ++ lit "/")) excludedDirs = true)
        by (apply List.existsb_exists; exists dir; by rewrite <- list_elem_of_In).
      congruence. }
    cbv zeta. rewrite bool_decide_eq_true, strategy_markdown.
    destruct (decide ("."%char ∈ path)) as [Hdot|Hdot].
    + apply list_elem_of_split_r in Hdot as (a & b & -> & Hb).
      rewrite substring_lastIndexOf by done. unfold extension.
      rewrite last_split by done.
      change (Js.toLowerCase ("."%char :: b)) with ("."%char :: Js.toLowerCase b).
      unfold supportedExtensions. rewrite !elem_of_cons, elem_of_nil. split.
      * intros [H|[H|[]]]; injection H as H; rewrite H.
        -- split; [done|]. split; [|by left]. apply elem_of_app; right; left.
        -- split; [done|]. split; [|by right]. apply elem_of_app; right; left.
      * intros (_ & _ & [H|H]); rewrite H; [by left|by right; left].
    + rewrite substring_no_dot by done. split; [|by intros (_ & ? & _)].
      intros Hin. exfalso. apply Hdot.
      unfold supportedExtensions in Hin.
      rewrite !elem_of_cons, elem_of_nil in Hin.
      destruct path as [|c path]; [by destruct Hin as [H|[H|[]]]|].
      assert (Hc : Js.toLowerChar c = "."%char).
      { destruct Hin as [H|[H|[]]]; by injection H. }
      apply toLowerChar_dot in Hc as ->. left.
Qed.

(** X23: the files that the crawler fetches for the index are markdown
    files outside the excluded directories: [shouldProcessFile] accepts a
    path exactly when no excluded directory name followed by a slash occurs
    in it, it contains a dot, and [chunkDocument] would use the markdown
    strategy for it. *)
Theorem shouldProcessFile_accepts_markdown_only path :
  shouldProcessFile path = true
  <-> Forall (fun dir => Js.includes path (dir ++ lit "/") = false) excludedDirs
      /\ "."%char ∈ path
      /\ Spec.strategy path = markdown.
Proof. apply shouldProcessFile_spec. Qed.

Section Crawl.

Variable fetchFileContent : str -> Outcome str.
Variable path_with_namespace : str.
Variable metadataOnly : bool.

(** What [crawlProject] asks of a file before it chunks it. *)
Let indexed_file (file : TreeEntry) (c : DocumentChunk) : Prop :=
  entryType file <> lit "tree"
  /\ Js.toLowerCase (entryName file) <> lit "readme.md"
  /\ shouldProcessFile (entryPath file) = true
  /\ metadataOnly = false
  /\ exists doc, fetchFileContent (entryPath file) = Returns doc
       /\ c ∈ chunkDocument path_with_namespace (entryPath file) doc.

Lemma crawlStep_chunks acc file :
  let acc' := crawlStep fetchFileContent path_with_namespace metadataOnly acc file in
  exists more,
    acc'.1 = acc.1 ++ more
    /\ Forall (indexed_file file) more
    /\ acc.2 <= acc'.2 /\ acc'.2 - acc.2 <= length more.
Proof.
  destruct acc as [chunks n]. unfold crawlStep. cbv zeta.
  assert (Hsame : exists more : list DocumentChunk,
             (chunks, n).1 = (chunks, n).1 ++ more
             /\ Forall (indexed_file file) more
             /\ (chunks, n).2 <= (chunks, n).2
             /\ (chunks, n).2 - (chunks, n).2 <= length more).
  { exists []. simpl. rewrite app_nil_r.
    split; [done|]. split; [constructor|]. lia. }
  case_bool_decide as Htree; [exact Hsame|].
  case_bool_decide as Hreadme; [exact Hsame|].
  destruct (shouldProcessFile (entryPath file)) eqn:Hshould; [|exact Hsame].
  destruct metadataOnly eqn:Hmeta; [exact Hsame|]. cbn [andb negb].
  destruct (fetchFileContent (entryPath file)) as [doc|] eqn:Hfetch; [|exact Hsame].
  exists (chunkDocument path_with_namespace (entryPath file) doc). cbn [fst snd].
  split; [done|]. split.
  - apply Forall_forall. intros c Hc. repeat split; try done. by exists doc.
  - destruct (chunkDocument_chunks_tagged path_with_namespace (entryPath file) doc)
      as [Hne _].
    destruct (chunkDocument _ _ doc); [done|]. simpl. lia.
Qed.

Lemma crawl_fold tree : forall acc,
  let acc' := fold_left (crawlStep fetchFileContent path_with_namespace metadataOnly)
                tree acc in
  exists more,
    acc'.1 = acc.1 ++ more
    /\ Forall (fun c => exists file, file ∈ tree /\ indexed_file file c) more
    /\ acc.2 <= acc'.2 /\ acc'.2 - acc.2 <= length more.
Proof.
  induction tree as [|file tree IH]; intros acc; cbn [fold_left].
  - exists []. rewrite app_nil_r. split; [done|]. split; [constructor|]. simpl. lia.
  - destruct (crawlStep_chunks acc file) as (m1 & H1 & F1 & L1 & L1').
    destruct (IH (crawlStep fetchFileContent path_with_namespace metadataOnly acc file))
      as (m2 & H2 & F2 & L2 & L2').
    cbv zeta in *. exists (m1 ++ m2). rewrite H2, H1, <- app_assoc.
    split; [done|]. split.
    + apply Forall_app. split.
      * eapply Forall_impl; [exact F1|]. intros c Hc. exists file. split; [left|done].
      * eapply Forall_impl; [exact F2|]. intros c (f & Hf & Hc).
        exists f. split; [by right|done].
    + rewrite length_app. lia.
Qed.

Lemma crawlChunks_indexed tree :
  Forall (fun c => exists file, file ∈ tree /\ indexed_file file c)
    (crawlChunks fetchFileContent path_with_namespace metadataOnly tree).1
  /\ (crawlChunks fetchFileContent path_with_namespace metadataOnly tree).2
     <= length (crawlChunks fetchFileContent path_with_namespace metadataOnly tree).1.
Proof.
  unfold crawlChunks. destruct (crawl_fold tree ([], 0)) as (more & H & F & L & L').
  cbv zeta in *. rewrite H. simpl in *. split; [done|lia].
Qed.

End Crawl.

(** X24: what a crawl puts into the index: every chunk that
    [crawlProject] hands to [indexProject] was made by the markdown
    strategy, for the crawled project, from the fetched content of a file
    of the tree that is not a folder, is not named README.md (in any
    case), and has a path that [shouldProcessFile] accepts; a crawl for
    metadata only makes no chunk; every file that is counted as processed
    gave at least one chunk; and after the crawl the index holds exactly
    these chunks for the project. *)
Theorem crawlProject_indexes_markdown_files fetchFileContent pwn metadataOnly tree :
  let chunks := (crawlChunks fetchFileContent pwn metadataOnly tree).1 in
  Forall (fun c =>
            projectId c = pwn /\ type (metadata c) = markdown
            /\ exists file doc,
                 file ∈ tree /\ filePath c = entryPath file
                 /\ entryType file <> lit "tree"
                 /\ Js.toLowerCase (entryName file) <> lit "readme.md"
                 /\ shouldProcessFile (entryPath file) = true
                 /\ fetchFileContent (entryPath file) = Returns doc
                 /\ c ∈ chunkDocument pwn (entryPath file) doc)
    chunks
  /\ (metadataOnly = true -> chunks = [])
  /\ (crawlChunks fetchFileContent pwn metadataOnly tree).2 <= length chunks
  /\ (forall writable st,
        Spec.chunksOf pwn (crawlIndex fetchFileContent pwn metadataOnly tree writable st)
        = Some chunks).
Proof.
  intros chunks.
  destruct (crawlChunks_indexed fetchFileContent pwn metadataOnly tree) as [Hall Hn].
  fold chunks in Hall, Hn.
  assert (Htagged : Forall (fun c =>
            projectId c = pwn /\ type (metadata c) = markdown
            /\ exists file doc,
                 file ∈ tree /\ filePath c = entryPath file
                 /\ entryType file <> lit "tree"
                 /\ Js.toLowerCase (entryName file) <> lit "readme.md"
                 /\ shouldProcessFile (entryPath file) = true
                 /\ fetchFileContent (entryPath file) = Returns doc
                 /\ c ∈ chunkDocument pwn (entryPath file) doc) chunks).
  { eapply Forall_impl; [exact Hall|].
    intros c (file & Hfile & Htree & Hreadme & Hshould & _ & doc & Hfetch & Hc).
    destruct (chunkDocument_chunks_tagged pwn (entryPath file) doc) as [_ Htag].
    rewrite Forall_forall in Htag. destruct (Htag c Hc) as (Hp & Hf & Ht & _).
    apply shouldProcessFile_spec in Hshould as Hmd. destruct Hmd as (_ & _ & Hmd).
    rewrite Hmd in Ht. split; [done|]. split; [done|].
    exists file, doc. repeat split; done. }
  split; [exact Htagged|]. split.
  - intros ->. destruct chunks as [|c chunks'] eqn:E; [done|].
    apply Forall_cons_1 in Hall as [(file & _ & _ & _ & _ & Hmeta & _) _]. done.
  - split; [exact Hn|]. intros writable st. unfold crawlIndex, alloc.
    fold chunks.
    destruct (indexProject_maps pwn (length (heap st)) writable
                (setHeap (heap st ++ [chunks]) st)) as [Hget Hheap].
    unfold Spec.chunksOf, deref. rewrite Hget, Hheap. simpl.
    by rewrite list_lookup_middle.
Qed.

(** ** The snippet of a search result *)

Import GitLabTools.

Lemma includes_spec s p :
  Js.includes s p = true <-> exists before after, s = before ++ p ++ after.
Proof.
  induction s as [|c s IH]; cbn [Js.includes].
  - rewrite orb_false_r, startsWith_spec. split.
    + intros [rest H]. by exists [], rest.
    + intros (before & after & H). destruct before; [by exists after|done].
  - rewrite orb_true_iff, startsWith_spec, IH. split.
    + intros [[rest ->]|(before & after & ->)].
      * by exists [], rest.
      * by exists (c :: before), after.
    + intros (before & after & H). destruct before as [|x before].
      * left. by exists after.
      * right. injection H as -> ->. by exists before, after.
Qed.

Lemma split_head sep s p ps :
  Js.split sep s = p :: ps -> exists after, s = p ++ after.
Proof.
  revert p ps. induction s as [|c s IH]; intros p ps; simpl.
  - intros [= <- _]. by exists [].
  - case_bool_decide as Hc.
    + intros [= <- _]. by exists (c :: s).
    + destruct (Js.split sep s) as [|p0 ps0] eqn:E; [by destruct (split_nonempty sep s)|].
      intros [= <- _]. destruct (IH p0 ps0 eq_refl) as [after ->]. by exists after.
Qed.

Lemma split_piece sep s piece :
  piece ∈ Js.split sep s -> exists before after, s = before ++ piece ++ after.
Proof.
  revert piece. induction s as [|c s IH]; intros piece; simpl.
  - intros ->%list_elem_of_singleton. by exists [], [].
  - case_bool_decide as Hc.
    + intros [->|Hin]%elem_of_cons.
      * by exists [], (c :: s).
      * destruct (IH _ Hin) as (before & after & ->). by exists (c :: before), after.
    + destruct (Js.split sep s) as [|p ps] eqn:E; [by destruct (split_nonempty sep s)|].
      intros [->|Hin]%elem_of_cons.
      * destruct (split_head _ _ _ _ E) as [after ->]. by exists [], after.
      * destruct (IH piece) as (before & after & ->); [by right|].
        by exists (c :: before), after.
Qed.

Lemma includes_piece sep s piece p :
  piece ∈ Js.split sep s -> Js.includes piece p = true -> Js.includes s p = true.
Proof.
  intros (before & after & ->)%split_piece (b & a & ->)%includes_spec.
  apply includes_spec. exists (before ++ b), (a ++ after).
  by rewrite <- !app_assoc.
Qed.

Lemma startsWith_split_head sep p : forall s,
  sep ∉ p -> Js.startsWith s p = true ->
  exists piece pieces, Js.split sep s = piece :: pieces /\ Js.startsWith piece p = true.
Proof.
  induction p as [|a p IH]; intros s Hp Hs.
  - destruct (Js.split sep s) as [|piece pieces] eqn:E;
      [by destruct (split_nonempty sep s)|].
    exists piece, pieces. split; [done|]. by destruct piece.
  - destruct s as [|c s]; [done|]. simpl in Hs.
    apply andb_prop in Hs as [->%bool_decide_eq_true Hs].
    apply not_elem_of_cons in Hp as [Ha Hp].
    destruct (IH s Hp Hs) as (piece & pieces & E & Hpiece).
    exists (a :: piece), pieces. simpl. rewrite bool_decide_false by done.
    rewrite E. split; [done|]. by rewrite bool_decide_true.
Qed.

Lemma startsWith_includes s p : Js.startsWith s p = true -> Js.includes s p = true.
Proof. intros H. destruct s; cbn [Js.includes]; by rewrite H. Qed.

Lemma includes_split sep s p :
  sep ∉ p -> Js.includes s p = true ->
  exists piece, piece ∈ Js.split sep s /\ Js.includes piece p = true.
Proof.
  intros Hp. induction s as [|c s IH]; cbn [Js.includes]; intros Hs.
  - rewrite orb_false_r in Hs.
    destruct (startsWith_split_head sep p [] Hp Hs) as (piece & pieces & E & Hpiece).
    exists piece. rewrite E. split; [left|by apply startsWith_includes].
  - apply orb_prop in Hs as [Hs|Hs].
    + destruct (startsWith_split_head sep p (c :: s) Hp Hs) as (piece & pieces & E & Hpiece).
      exists piece. rewrite E. split; [left|by apply startsWith_includes].
    + destruct (IH Hs) as (piece & Hin & Hpiece). simpl.
      case_bool_decide as Hc; [exists piece; split; [by right|done]|].
      destruct (Js.split sep s) as [|p0 ps0] eqn:E; [by destruct (split_nonempty sep s)|].
      apply elem_of_cons in Hin as [->|Hin].
      * exists (c :: p0). split; [left|]. cbn [Js.includes]. by rewrite Hpiece, orb_true_r.
      * exists piece. split; [by right|done].
Qed.

Lemma toLowerChar_LF c :
  bool_decide (Js.toLowerChar c = LF) = bool_decide (c = LF).
Proof. destruct c as [[] [] [] [] [] [] [] []]; vm_compute; reflexivity. Qed.

Lemma split_toLowerCase s :
  Js.split LF (Js.toLowerCase s) = map Js.toLowerCase (Js.split LF s).
Proof.
  induction s as [|c s IH]; [done|].
  change (Js.toLowerCase (c :: s)) with (Js.toLowerChar c :: Js.toLowerCase s).
  cbn [Js.split]. rewrite toLowerChar_LF, IH.
  destruct (bool_decide (c = LF)); [done|].
  by destruct (Js.split LF s).
Qed.

Lemma findIndex_Some {A} (p : A -> bool) xs i :
  findIndex p xs = Some i -> exists x, xs !! i = Some x /\ p x = true.
Proof.
  revert i. induction xs as [|x xs IH]; intros i; simpl; [done|].
  destruct (p x) eqn:Hp.
  - intros [= <-]. by exists x.
  - destruct (findIndex p xs) as [j|]; simpl; [|done].
    intros [= <-]. by apply IH.
Qed.

Lemma findIndex_None {A} (p : A -> bool) xs :
  findIndex p xs = None -> Forall (fun x => p x = false) xs.
Proof.
  induction xs as [|x xs IH]; simpl; [constructor|].
  destruct (p x) eqn:Hp; [done|].
  destruct (findIndex p xs); simpl; [done|]. intros _. constructor; auto.
Qed.

Lemma bestLineIndex_lt r :
  bestLineIndex r (Js.split LF (content (chunk r)))
  < length (Js.split LF (content (chunk r))).
Proof.
  assert (Hpos : 0 < length (Js.split LF (content (chunk r)))).
  { pose proof (split_nonempty LF (content (chunk r))).
    destruct (Js.split LF (content (chunk r))); [done|simpl; lia]. }
  unfold bestLineIndex. destruct (matchDetails r) as [|first _]; [done|].
  destruct (findIndex _ _) as [i|] eqn:E; [|done].
  apply findIndex_Some in E as (x & Hx & _). by apply lookup_lt_Some in Hx.
Qed.

Lemma snippetLines_best r :
  let lines := Js.split LF (content (chunk r)) in
  let best := bestLineIndex r lines in
  snippetLines r !! (best - (best - 1)) = lines !! best
  /\ 1 <= length (snippetLines r) <= 4
  /\ (best = 0 -> snippetLines r = take 3 lines).
Proof.
  intros lines best. pose proof (bestLineIndex_lt r) as Hlt.
  fold lines in Hlt. fold best in Hlt.
  assert (Heq : snippetLines r
                = take (Nat.min (length lines) (best + 3) - (best - 1))
                    (drop (best - 1) lines)).
  { unfold snippetLines, Js.slice. cbv zeta. fold lines. fold best.
    by rewrite Nat.max_0_l. }
  rewrite Heq. split; [|split].
  - rewrite lookup_take_lt by lia. rewrite lookup_drop. f_equal. lia.
  - rewrite length_take, length_drop. lia.
  - intros ->. rewrite drop_0. rewrite Nat.sub_0_r.
    destruct (decide (3 <= length lines)).
    + by rewrite Nat.min_r by lia.
    + rewrite Nat.min_l by lia. rewrite !take_ge; [done|lia|lia].
Qed.

(** X25: the snippet of a result is made of one to four consecutive lines
    of its chunk, joined by line feeds, and the line that was chosen as the
    best one is among them: the line before it when there is one, the line
    itself, and up to two lines after it. *)
Theorem snippet_is_around_the_best_line r :
  let lines := Js.split LF (content (chunk r)) in
  let best := bestLineIndex r lines in
  snippet r = Js.join [LF] (snippetLines r)
  /\ 1 <= length (snippetLines r) <= 4
  /\ snippetLines r = take (length (snippetLines r)) (drop (best - 1) lines)
  /\ snippetLines r !! (best - (best - 1)) = lines !! best
  /\ is_Some (lines !! best).
Proof.
  intros lines best.
  destruct (snippetLines_best r) as (Hbest & Hlen & _). fold lines best in Hbest.
  split; [done|]. split; [exact Hlen|]. split; [|split; [exact Hbest|]].
  - unfold snippetLines, Js.slice. cbv zeta. fold lines best.
    rewrite Nat.max_0_l. rewrite length_take.
    destruct (Nat.min_spec (Nat.min (length lines) (best + 3) - (best - 1))
                (length (drop (best - 1) lines))) as [[_ ->]|[Hle ->]]; [done|].
    rewrite !take_ge; [done|lia|lia].
  - apply lookup_lt_is_Some. apply bestLineIndex_lt.
Qed.

Lemma letters_digits_no_LF t :
  Forall (fun c => Js.is_lower c || Js.is_digit c = true) t -> LF ∉ t.
Proof.
  intros Ht Hin. rewrite Forall_forall in Ht. specialize (Ht LF Hin). done.
Qed.

Lemma search_matchDetails_head Math_log pid query limit st r m rest :
  r ∈ (search Math_log pid query limit st).2 ->
  matchDetails r = m :: rest ->
  term m ∈ tokenize query
  /\ matchType m = Some (Spec.kindOf (term m) (chunk r)).
Proof.
  intros (c & _ & -> & _)%search_results.
  rewrite scoreChunk_spec by (by exists query). cbn [matchDetails chunk].
  destruct (List.filter _ (tokenize query)) as [|t ts] eqn:E; [done|].
  intros [= <- _]. cbn [term matchType]. split; [|done].
  assert (Hin : In t (List.filter (fun t => 0 <? Spec.termFreq t c) (tokenize query)))
    by (rewrite E; by left).
  apply List.filter_In in Hin as [Hin _]. by apply list_elem_of_In.
Qed.

Lemma snippet_of_first_term Math_log pid query limit st r m rest :
  r ∈ (search Math_log pid query limit st).2 ->
  matchDetails r = m :: rest ->
  (matchType m = Some exact ->
     exists line, line ∈ snippetLines r
       /\ Js.includes (Js.toLowerCase line) (term m) = true)
  /\ (matchType m = Some fuzzy ->
        snippetLines r = take 3 (Js.split LF (content (chunk r)))).
Proof.
  intros Hr Hm.
  destruct (search_matchDetails_head _ _ _ _ _ _ _ _ Hr Hm) as [Hin Hkind].
  destruct (tokenize_tokens _ _ Hin) as [Hne Hlow].
  pose proof (letters_digits_no_LF _ (tokenize_letters_digits _ _ Hin)) as HLF.
  pose proof (occurrences_includes (term m) (content (chunk r)) Hne Hlow) as Hocc.
  destruct (snippetLines_best r) as (Hbest & _ & Hfirst). cbv zeta in Hbest, Hfirst.
  rewrite Hkind. unfold Spec.kindOf. split.
  - destruct (1 <=? _) eqn:E; [intros _|done]. symmetry in Hocc.
    destruct (includes_split LF _ _ HLF Hocc) as (piece & Hpiece & Hinc).
    rewrite split_toLowerCase in Hpiece.
    apply list_elem_of_fmap in Hpiece as (line & -> & Hline).
    unfold bestLineIndex in Hbest. rewrite Hm in Hbest.
    destruct (findIndex _ _) as [i|] eqn:Hfind.
    + apply findIndex_Some in Hfind as (x & Hx & Hp).
      exists x. split; [|done]. rewrite Hx in Hbest. by eapply list_elem_of_lookup_2.
    + apply findIndex_None in Hfind. rewrite Forall_forall in Hfind.
      rewrite (Hfind line Hline) in Hinc. done.
  - destruct (1 <=? _) eqn:E; [done|intros _]. symmetry in Hocc.
    apply Hfirst. unfold bestLineIndex. rewrite Hm.
    destruct (findIndex _ _) as [i|] eqn:Hfind; [|done].
    apply findIndex_Some in Hfind as (x & Hx & Hp). exfalso.
    assert (Hinc : Js.includes (Js.toLowerCase (content (chunk r))) (term m) = true).
    { apply (includes_piece LF _ (Js.toLowerCase x)); [|done].
      rewrite split_toLowerCase. apply list_elem_of_fmap. exists x.
      split; [done|]. by eapply list_elem_of_lookup_2. }
    congruence.
Qed.

(** X26: the snippet and the matching agree: for a result of [search]
    with a first entry in its match details, when that entry is an exact
    match the snippet has a line that contains its term up to case; when
    it is a fuzzy match no line contains the term, and the snippet is the
    first three lines of the chunk, wherever the close token is. *)
Theorem snippet_shows_the_first_exact_match Math_log pid query limit st r :
  r ∈ (search Math_log pid query limit st).2 ->
  forall m rest, matchDetails r = m :: rest ->
    (matchType m = Some exact ->
       exists line, line ∈ snippetLines r
         /\ Js.includes (Js.toLowerCase line) (term m) = true)
    /\ (matchType m = Some fuzzy ->
          snippetLines r = take 3 (Js.split LF (content (chunk r)))).
Proof. intros Hr m rest. by apply (snippet_of_first_term Math_log pid query limit st). Qed.

Lemma snippet_shows_the_first_exact_match_witness :
  exists r,
    head (search Examples.Math_log (Some (lit "C")) (lit "search engine") 5
            Examples.indexedC).2 = Some r
    /\ r ∈ (search Examples.Math_log (Some (lit "C")) (lit "search engine") 5
              Examples.indexedC).2
    /\ forall m rest, matchDetails r = m :: rest ->
         (matchType m = Some exact ->
            exists line, line ∈ snippetLines r
              /\ Js.includes (Js.toLowerCase line) (term m) = true)
         /\ (matchType m = Some fuzzy ->
               snippetLines r = take 3 (Js.split LF (content (chunk r)))).
Proof.
  destruct (head (search Examples.Math_log (Some (lit "C")) (lit "search engine") 5
                    Examples.indexedC).2)
    as [r|] eqn:E; [|vm_compute in E; discriminate].
  exists r. split; [reflexivity|].
  assert (Hin : r ∈ (search Examples.Math_log (Some (lit "C"))
                       (lit "search engine") 5 Examples.indexedC).2).
  { apply head_Some_elem_of. exact E. }
  split; [exact Hin|].
  exact (snippet_shows_the_first_exact_match Examples.Math_log (Some (lit "C"))
           (lit "search engine") 5 Examples.indexedC r Hin).
Defined.
